(** * Equity research agent: DCF engine, rate limiter and portfolio schema

    A shallow embedding of three parts of the repository:

    - the DCF calculator ([calculateWACC], [estimateFCFGrowthRate],
      [calculateDCF], [calculateSensitivity], [assessValuation]);
    - the Yahoo Finance rate limiter ([throttle], [getBackoffDelay],
      [isRateLimitError], [execute], [executeBatch], [estimateTime]);
    - the SQL text of the portfolio database ([SCHEMA_SQL]).

    JavaScript numbers are embedded as exact rationals extended with the
    two infinities and NaN.  Rounding of binary64 arithmetic is not part of
    the embedding, and zero carries no sign (a zero divisor is read as +0,
    which is what the subtractions and powers of the calculator produce).
    The statements about the calculator are therefore kept to what does not
    depend on the last binary digit: the branch taken, NaN and exceptions,
    the order of values, and values on magnitudes that binary64 neither
    overflows nor underflows. *)

From Stdlib Require Import ZArith QArith Qminmax Qpower Qabs Qround Lqa Lia List Ascii String.
From stdpp Require Import gmap strings.

Local Open Scope Z_scope.

(* ====================================================================== *)
(** ** Values thrown by JavaScript code *)
(* ====================================================================== *)

(** What a [throw] (or a rejected promise) carries: an [Error] object with
    its message, or any other value, kept as the text [String(value)]. *)
Inductive thrown : Type :=
| ErrorObject (message : string)
| OtherValue (text : string).

(** The outcome of running a piece of code that may throw. *)
Inductive completion (A : Type) : Type :=
| Return (a : A)
| Throw (e : thrown).
Arguments Return {A} a.
Arguments Throw {A} e.

(** [error instanceof Error ? error : new Error(String(error))] *)
Definition toError (e : thrown) : thrown :=
  match e with
  | ErrorObject m => ErrorObject m
  | OtherValue t => ErrorObject t
  end.

(* ====================================================================== *)
(** ** JavaScript numbers *)
(* ====================================================================== *)

Module JSNum.

Inductive number : Type :=
| Fin (q : Q)
| PInf
| NInf
| NaN.

(** The infinity (or NaN) a sign stands for: [Gt] is positive. *)
Definition inf_of_sign (c : comparison) : number :=
  match c with
  | Gt => PInf
  | Lt => NInf
  | Eq => NaN
  end.

Definition neg (x : number) : number :=
  match x with
  | Fin q => Fin (- q)
  | PInf => NInf
  | NInf => PInf
  | NaN => NaN
  end.

Definition add (x y : number) : number :=
  match x, y with
  | NaN, _ | _, NaN => NaN
  | Fin a, Fin b => Fin (a + b)
  | PInf, NInf | NInf, PInf => NaN
  | PInf, _ | _, PInf => PInf
  | NInf, _ | _, NInf => NInf
  end.

Definition sub (x y : number) : number := add x (neg y).

Definition mul (x y : number) : number :=
  match x, y with
  | NaN, _ | _, NaN => NaN
  | Fin a, Fin b => Fin (a * b)
  | Fin a, PInf | PInf, Fin a => inf_of_sign (a ?= 0)%Q
  | Fin a, NInf | NInf, Fin a => inf_of_sign (0 ?= a)%Q
  | PInf, PInf | NInf, NInf => PInf
  | PInf, NInf | NInf, PInf => NInf
  end.

Definition div (x y : number) : number :=
  match x, y with
  | NaN, _ | _, NaN => NaN
  | Fin a, Fin b =>
      if Qeq_bool b 0 then inf_of_sign (a ?= 0)%Q else Fin (a / b)
  | Fin _, (PInf | NInf) => Fin 0
  | (PInf | NInf), (PInf | NInf) => NaN
  | PInf, Fin b => if Qle_bool 0 b then PInf else NInf
  | NInf, Fin b => if Qle_bool 0 b then NInf else PInf
  end.

(** [Math.pow(x, n)] for an integer exponent [n]. *)
Definition pow (x : number) (n : Z) : number :=
  if (n =? 0)%Z then Fin 1
  else
    match x with
    | NaN => NaN
    | Fin a =>
        if ((n <? 0)%Z && Qeq_bool a 0)%bool then PInf else Fin (a ^ n)
    | PInf => if (n <? 0)%Z then Fin 0 else PInf
    | NInf =>
        if (n <? 0)%Z then Fin 0 else if Z.odd n then NInf else PInf
    end.

(** [x < y]; every comparison with NaN is false. *)
Definition lt (x y : number) : bool :=
  match x, y with
  | NaN, _ | _, NaN => false
  | Fin a, Fin b => negb (Qle_bool b a)
  | _, NInf => false
  | NInf, _ => true
  | PInf, _ => false
  | Fin _, PInf => true
  end.

(** [x <= y] *)
Definition le (x y : number) : bool :=
  match x, y with
  | NaN, _ | _, NaN => false
  | Fin a, Fin b => Qle_bool a b
  | NInf, _ => true
  | _, PInf => true
  | _, NInf => false
  | PInf, _ => false
  end.

(** [x > y] and [x >= y] *)
Definition gt (x y : number) : bool := lt y x.
Definition ge (x y : number) : bool := le y x.

(** [Math.min] and [Math.max]: NaN when an argument is NaN. *)
Definition min (x y : number) : number :=
  match x, y with
  | NaN, _ | _, NaN => NaN
  | _, _ => if le x y then x else y
  end.

Definition max (x y : number) : number :=
  match x, y with
  | NaN, _ | _, NaN => NaN
  | _, _ => if le x y then y else x
  end.

(** Truthiness of a number: [0] and NaN are falsy. *)
Definition truthy (x : number) : bool :=
  match x with
  | Fin q => negb (Qeq_bool q 0)
  | PInf | NInf => true
  | NaN => false
  end.

(** A property that is meant to hold a number: it holds one, or holds
    [null], or is absent ([undefined]). *)
Inductive field : Type :=
| Num (x : number)
| Null
| Undefined.

(** ToNumber, as the arithmetic and the comparisons apply it to such a
    property: [null] becomes 0 and [undefined] NaN. *)
Definition to_number (v : field) : number :=
  match v with
  | Num x => x
  | Null => Fin 0
  | Undefined => NaN
  end.

(** The integer that a number is, when it is one. *)
Definition whole (x : number) : option Z :=
  match x with
  | Fin q => if Qeq_bool q (inject_Z (Qfloor q)) then Some (Qfloor q) else None
  | PInf | NInf | NaN => None
  end.

(** [v || dflt] for an optional numeric property: [None] is [undefined]
    (or [null], which [||] treats alike). *)
Definition or_default (v : option number) (dflt : number) : number :=
  match v with
  | Some x => if truthy x then x else dflt
  | None => dflt
  end.

(** Equality of numbers as values: rationals are compared by [Qeq]; NaN is
    related to itself (this is identity of results, not [===]). *)
Definition same (x y : number) : Prop :=
  match x, y with
  | Fin a, Fin b => (a == b)%Q
  | PInf, PInf | NInf, NInf | NaN, NaN => True
  | _, _ => False
  end.

Definition is_finite (x : number) : bool :=
  match x with
  | Fin _ => true
  | _ => false
  end.

End JSNum.

Import JSNum.

(** An integer literal, and the decimal literal [n / d], as numbers. *)
Definition int (z : Z) : number := Fin (inject_Z z).
Definition dec (n : Z) (d : positive) : number := Fin (n # d).

(* ====================================================================== *)
(** ** The DCF calculator *)
(* ====================================================================== *)

Module DCF.

(** The properties of a [DCFInputs] object.  The five required ones are
    numbers, or [null] (what the workflow passes for a figure it could not
    fetch), or absent.  The optional ones are a number or absent ([None]);
    for [revenueGrowth], [terminalGrowthRate] and [projectionYears] the
    code treats [null] as it treats [undefined], so [None] stands for both
    there, and a [null] [discountRate] is excluded by its type. *)
Record DCFInputs : Type := {
  freeCashFlow : field;
  totalDebt : field;
  cash : field;
  sharesOutstanding : field;
  marketCap : field;
  revenueGrowth : option number;
  discountRate : option number;
  terminalGrowthRate : option number;
  projectionYears : option number
}.

(** The assumptions of a result.  [calculateDCF] returns one only for a
    horizon that is a whole number of years, kept here as an integer. *)
Record Assumptions : Type := {
  a_discountRate : number;
  a_terminalGrowthRate : number;
  a_projectionYears : Z;
  a_initialFCF : field;
  a_fcfGrowthRate : number
}.

Record CashFlow : Type := {
  year : Z;
  fcf : number;
  presentValue : number;
  discountFactor : number
}.

Record TerminalValue : Type := {
  nominal : number;
  tv_presentValue : number
}.

Inductive Scenario : Type := bear | base | bull.

Record SensitivityRow : Type := {
  scenario : Scenario;
  s_discountRate : number;
  growthRate : number;
  s_intrinsicValue : number
}.

Inductive Recommendation : Type :=
| StrongBuy | Buy | Hold | Sell | StrongSell.

Record DCFOutputs : Type := {
  intrinsicValue : number;
  enterpriseValue : number;
  equityValue : number;
  assumptions : Assumptions;
  projectedCashFlows : list CashFlow;
  terminalValue : TerminalValue;
  sensitivity : list SensitivityRow
}.

Record Assessment : Type := {
  currentPrice : number;
  upside : number;
  recommendation : Recommendation
}.

(** [calculateWACC(marketCap, customRate)] *)
Definition calculateWACC (marketCap : field) (customRate : option number)
    : number :=
  match customRate with
  | Some rate => rate
  | None =>
      let mc := to_number marketCap in
      if gt mc (int 200000000000) then int 9
      else if gt mc (int 50000000000) then int 10
      else if gt mc (int 10000000000) then int 11
      else if gt mc (int 2000000000) then dec 125 10
      else int 14
  end.

(** [estimateFCFGrowthRate(revenueGrowth, terminalGrowthRate)]; [None] is
    a revenue growth that is [undefined] or [null]. *)
Definition estimateFCFGrowthRate
    (revenueGrowth : option number) (terminalGrowthRate : number) : number :=
  match revenueGrowth with
  | None => div (add terminalGrowthRate (int 8)) (int 2)
  | Some rg =>
      let cappedGrowth := min rg (int 25) in
      if lt cappedGrowth (int 0) then terminalGrowthRate
      else add (mul cappedGrowth (dec 7 10)) (mul terminalGrowthRate (dec 3 10))
  end.

(** [1 + rate / 100] *)
Definition growth_factor (rate : number) : number :=
  add (int 1) (div rate (int 100)).

Section Projection.

Variables (fcf0 : number) (fcfGrowthRate discountRate : number).

(** One row of the projection table, for the year [y]. *)
Definition project_year (y : Z) : CashFlow :=
  let fcf := mul fcf0 (pow (growth_factor fcfGrowthRate) y) in
  let discountFactor := pow (growth_factor discountRate) y in
  let presentValue := div fcf discountFactor in
  {| year := y; fcf := fcf; presentValue := presentValue;
     discountFactor := discountFactor |}.

(** [for (let year = 1; year <= projectionYears; year++) push(...)],
    with [n] iterations left and the loop variable at [y]. *)
Fixpoint project_loop (n : nat) (y : Z) : list CashFlow :=
  match n with
  | O => []
  | S n' => project_year y :: project_loop n' (y + 1)
  end.

(** The loop of [calcIntrinsicValue], which accumulates [sumPV]. *)
Fixpoint sumPV_loop (n : nat) (y : Z) (sumPV : number) : number :=
  match n with
  | O => sumPV
  | S n' =>
      let fcf := mul fcf0 (pow (growth_factor fcfGrowthRate) y) in
      let pv := div fcf (pow (growth_factor discountRate) y) in
      sumPV_loop n' (y + 1) (add sumPV pv)
  end.

End Projection.

(** [array[i]] for an integer index: [undefined] outside the array. *)
Definition index {A : Type} (l : list A) (i : Z) : option A :=
  if i <? 0 then None else nth_error l (Z.to_nat i).

(** [array[x]] for a number [x]: the element when [x] is a whole index
    inside the array, and [undefined] otherwise (a key such as 1.5 names
    no element). *)
Definition index_at {A : Type} (l : list A) (x : number) : option A :=
  match whole x with
  | Some i => index l i
  | None => None
  end.

(** How often the body of [for (let year = 1; year <= bound; year++)]
    runs: once for each whole year up to the bound, not at all for a bound
    below 1 (or NaN). *)
Definition years_up_to (bound : number) : Z :=
  match bound with
  | Fin q => Z.max 0 (Qfloor q)
  | PInf | NInf | NaN => 0
  end.

(** The helper [calcIntrinsicValue] of [calculateSensitivity].  The
    function is not exported: [calculateDCF] is its only caller and reaches
    it with a horizon that is a whole number of years, the integer
    [projectionYears] here. *)
Definition calcIntrinsicValue (inputs : DCFInputs) (projectionYears : Z)
    (netDebt discountRate fcfGrowth terminalGrowth : number) : number :=
  let fcf0 := to_number (freeCashFlow inputs) in
  let sumPV :=
    sumPV_loop fcf0 fcfGrowth discountRate (Z.to_nat projectionYears) 1 (int 0) in
  let finalFCF := mul fcf0 (pow (growth_factor fcfGrowth) projectionYears) in
  let tv :=
    div (mul finalFCF (growth_factor terminalGrowth))
        (sub (div discountRate (int 100)) (div terminalGrowth (int 100))) in
  let tvPV := div tv (pow (growth_factor discountRate) projectionYears) in
  let enterpriseValue := add sumPV tvPV in
  let equityValue := sub enterpriseValue netDebt in
  div equityValue (to_number (sharesOutstanding inputs)).

(** [calculateSensitivity(inputs, baseDiscountRate, baseFCFGrowth,
    baseTerminalGrowth, projectionYears, netDebt)] *)
Definition calculateSensitivity (inputs : DCFInputs)
    (baseDiscountRate baseFCFGrowth baseTerminalGrowth : number)
    (projectionYears : Z) (netDebt : number) : list SensitivityRow :=
  let calc := calcIntrinsicValue inputs projectionYears netDebt in
  [ {| scenario := bear;
       s_discountRate := add baseDiscountRate (int 2);
       growthRate := max (sub baseFCFGrowth (int 2)) (int 0);
       s_intrinsicValue :=
         calc (add baseDiscountRate (int 2))
              (max (sub baseFCFGrowth (int 2)) (int 0))
              (max (sub baseTerminalGrowth (int 1)) (int 2)) |};
    {| scenario := base;
       s_discountRate := baseDiscountRate;
       growthRate := baseFCFGrowth;
       s_intrinsicValue :=
         calc baseDiscountRate baseFCFGrowth baseTerminalGrowth |};
    {| scenario := bull;
       s_discountRate := max (sub baseDiscountRate (int 2)) (int 5);
       growthRate := min (add baseFCFGrowth (int 2)) (int 25);
       s_intrinsicValue :=
         calc (max (sub baseDiscountRate (int 2)) (int 5))
              (min (add baseFCFGrowth (int 2)) (int 25))
              (min (add baseTerminalGrowth (int 1)) (int 4)) |} ].

(** Reading [.fcf] of [undefined]. *)
Definition undefined_fcf : thrown :=
  ErrorObject "Cannot read properties of undefined (reading 'fcf')".

(** The [RangeError] of the [push] that would give an array 2^32
    elements. *)
Definition invalid_array_length : thrown :=
  ErrorObject "Invalid array length".

(** [calculateDCF(inputs)].  The loop over the years pushes one row for
    each whole year up to the horizon; an array holds at most 2^32 - 1
    elements, so a horizon of 2^32 or more ends in the [RangeError] of
    [push] (a host runs out of memory long before).  The last row is then
    read at the index [projectionYears - 1], which names a row exactly when
    the horizon is a whole number of at least one year; from there on the
    horizon is that whole number, [years]. *)
Definition calculateDCF (inputs : DCFInputs) : completion DCFOutputs :=
  let projectionYears := or_default (projectionYears inputs) (int 5) in
  let terminalGrowthRate := or_default (terminalGrowthRate inputs) (int 3) in
  let discountRate := calculateWACC (marketCap inputs) (discountRate inputs) in
  let fcfGrowthRate :=
    estimateFCFGrowthRate (revenueGrowth inputs) terminalGrowthRate in
  let netDebt := sub (to_number (totalDebt inputs)) (to_number (cash inputs)) in
  if ge projectionYears (int 4294967296) then Throw invalid_array_length
  else
  let years := years_up_to projectionYears in
  let projectedCashFlows :=
    project_loop (to_number (freeCashFlow inputs)) fcfGrowthRate discountRate
      (Z.to_nat years) 1 in
  match index_at projectedCashFlows (sub projectionYears (int 1)) with
  | None => Throw undefined_fcf
  | Some final =>
      let finalYearFCF := fcf final in
      let terminalValueNominal :=
        div (mul finalYearFCF (growth_factor terminalGrowthRate))
            (sub (div discountRate (int 100))
                 (div terminalGrowthRate (int 100))) in
      let terminalDiscountFactor :=
        pow (growth_factor discountRate) years in
      let terminalValuePV := div terminalValueNominal terminalDiscountFactor in
      let sumOfDiscountedCashFlows :=
        fold_left (fun sum cf => add sum (presentValue cf))
          projectedCashFlows (int 0) in
      let enterpriseValue := add sumOfDiscountedCashFlows terminalValuePV in
      let equityValue := sub enterpriseValue netDebt in
      let intrinsicValue :=
        div equityValue (to_number (sharesOutstanding inputs)) in
      let sensitivity :=
        calculateSensitivity inputs discountRate fcfGrowthRate
          terminalGrowthRate years netDebt in
      Return
        {| intrinsicValue := intrinsicValue;
           enterpriseValue := enterpriseValue;
           equityValue := equityValue;
           assumptions :=
             {| a_discountRate := discountRate;
                a_terminalGrowthRate := terminalGrowthRate;
                a_projectionYears := years;
                a_initialFCF := freeCashFlow inputs;
                a_fcfGrowthRate := fcfGrowthRate |};
           projectedCashFlows := projectedCashFlows;
           terminalValue :=
             {| nominal := terminalValueNominal;
                tv_presentValue := terminalValuePV |};
           sensitivity := sensitivity |}
  end.

(** [assessValuation(intrinsicValue, currentPrice)] *)
Definition assessValuation (intrinsicValue currentPrice : number) : Assessment :=
  let upside :=
    mul (div (sub intrinsicValue currentPrice) currentPrice) (int 100) in
  let recommendation :=
    if ge upside (int 30) then StrongBuy
    else if ge upside (int 15) then Buy
    else if ge upside (int (-15)) then Hold
    else if ge upside (int (-30)) then Sell
    else StrongSell in
  {| currentPrice := currentPrice; upside := upside;
     recommendation := recommendation |}.

End DCF.

(* ====================================================================== *)
(** ** The rate limiter *)
(* ====================================================================== *)

Module RateLimiter.

Record RateLimiterConfig : Type := {
  minDelayMs : Z;
  maxRetries : Z;
  baseBackoffMs : Z;
  batchSize : Z;
  interBatchDelayMs : Z
}.

Definition DEFAULT_CONFIG : RateLimiterConfig :=
  {| minDelayMs := 500; maxRetries := 3; baseBackoffMs := 1000;
     batchSize := 10; interBatchDelayMs := 2000 |}.

(** The three places that call [sleep]. *)
Inductive sleep_site : Type := InThrottle | InBackoff | BetweenBatches.

(** [message.toLowerCase()], on the ASCII letters. *)
Definition lower_ascii (c : ascii) : ascii :=
  let n := nat_of_ascii c in
  if ((65 <=? n)%nat && (n <=? 90)%nat)%bool then ascii_of_nat (n + 32) else c.

Fixpoint toLowerCase (s : string) : string :=
  match s with
  | EmptyString => EmptyString
  | String c rest => String (lower_ascii c) (toLowerCase rest)
  end.

(** [s.includes(needle)] *)
Fixpoint includes (needle s : string) : bool :=
  if String.prefix needle s then true
  else
    match s with
    | EmptyString => false
    | String _ rest => includes needle rest
    end.

(** [isRateLimitError(error)] *)
Definition isRateLimitError (error : thrown) : bool :=
  match error with
  | ErrorObject msg =>
      let message := toLowerCase msg in
      includes "rate limit" message
      || includes "too many requests" message
      || includes "429" message
      || includes "throttl" message
  | OtherValue _ => false
  end.

(** [array.slice(start, end)] *)
Definition slice {A : Type} (l : list A) (start stop : Z) : list A :=
  let len := Z.of_nat (length l) in
  let rel i := if i <? 0 then Z.max (len + i) 0 else Z.min i len in
  let k := rel start in
  let final := rel stop in
  take (Z.to_nat (final - k)) (drop (Z.to_nat k) l).

Section Limiter.

(** Items of type [T] are fetched into results of type [R]; [W] is the
    state of everything outside the limiter that a fetch reads or
    changes. *)
Context {T R W : Type} `{Countable T}.

Variable config : RateLimiterConfig.

(** What a run does, in order: sleeps (with the site that asked for
    them), calls of the fetch function with how they settled, and calls
    of the two optional callbacks of [executeBatch]. *)
Inductive event : Type :=
| Slept (site : sleep_site) (ms : Z)
| Called (outcome : completion R)
| ErrorReported (item : T) (err : thrown)
| ProgressReported (completed total : Z).

(** The fields of the limiter, the clock read by [Date.now()], the
    outside world and the events so far. *)
Record state : Type := {
  clock : Z;
  lastRequestTime : Z;
  requestCount : Z;
  errorCount : Z;
  world : W;
  log : list event
}.

(** A fetch settles with a value or a thrown value after some
    milliseconds, and may change the world. *)
Definition fetch : Type := W -> completion R * Z * W.

(** Computations over the state that may throw. *)
Definition M (A : Type) : Type := state -> completion A * state.

Definition ret {A : Type} (a : A) : M A := fun s => (Return a, s).

Definition raise {A : Type} (e : thrown) : M A := fun s => (Throw e, s).

Definition bind {A B : Type} (m : M A) (k : A -> M B) : M B :=
  fun s =>
    match m s with
    | (Return a, s') => k a s'
    | (Throw e, s') => (Throw e, s')
    end.

(** [try { m } catch (error) { handler error }] *)
Definition try_catch {A : Type} (m : M A) (handler : thrown -> M A) : M A :=
  fun s =>
    match m s with
    | (Return a, s') => (Return a, s')
    | (Throw e, s') => handler e s'
    end.

Definition gets {A : Type} (f : state -> A) : M A :=
  fun s => (Return (f s), s).

Definition modify (f : state -> state) : M unit :=
  fun s => (Return tt, f s).

Local Notation "x <- m ;; k" := (bind m (fun x => k))
  (at level 100, m at next level, right associativity).
Local Notation "m ;;; k" := (bind m (fun _ => k))
  (at level 100, right associativity).

Definition emit (e : event) (s : state) : state :=
  {| clock := clock s; lastRequestTime := lastRequestTime s;
     requestCount := requestCount s; errorCount := errorCount s;
     world := world s; log := log s ++ [e] |}.

Definition advance (ms : Z) (s : state) : state :=
  {| clock := clock s + Z.max 0 ms; lastRequestTime := lastRequestTime s;
     requestCount := requestCount s; errorCount := errorCount s;
     world := world s; log := log s |}.

Definition set_lastRequestTime (t : Z) (s : state) : state :=
  {| clock := clock s; lastRequestTime := t;
     requestCount := requestCount s; errorCount := errorCount s;
     world := world s; log := log s |}.

Definition incr_requestCount (s : state) : state :=
  {| clock := clock s; lastRequestTime := lastRequestTime s;
     requestCount := requestCount s + 1; errorCount := errorCount s;
     world := world s; log := log s |}.

Definition incr_errorCount (s : state) : state :=
  {| clock := clock s; lastRequestTime := lastRequestTime s;
     requestCount := requestCount s; errorCount := errorCount s + 1;
     world := world s; log := log s |}.

Definition set_world (w : W) (s : state) : state :=
  {| clock := clock s; lastRequestTime := lastRequestTime s;
     requestCount := requestCount s; errorCount := errorCount s;
     world := w; log := log s |}.

(** [await this.sleep(ms)]: the timer fires after [ms] milliseconds (at
    once for a negative delay). *)
Definition sleep (site : sleep_site) (ms : Z) : M unit :=
  modify (fun s => advance ms (emit (Slept site ms) s)).

(** [await fn()] *)
Definition await (fn : fetch) : M R :=
  fun s =>
    let '(outcome, elapsed, w) := fn (world s) in
    (outcome, emit (Called outcome) (advance elapsed (set_world w s))).

(** [throttle()] *)
Definition throttle : M unit :=
  now <- gets clock ;;
  last <- gets lastRequestTime ;;
  let timeSinceLastRequest := now - last in
  (if timeSinceLastRequest <? minDelayMs config
   then sleep InThrottle (minDelayMs config - timeSinceLastRequest)
   else ret tt) ;;;
  now' <- gets clock ;;
  modify (set_lastRequestTime now').

(** [getBackoffDelay(attempt)] *)
Definition getBackoffDelay (attempt : Z) : Z :=
  baseBackoffMs config * 2 ^ attempt.

Definition all_retries_failed : thrown :=
  ErrorObject "Request failed after all retries".

(** The [for] loop of [execute] with [n] iterations left, at the given
    [attempt], followed by the final [throw]. *)
Fixpoint execute_loop (fn : fetch) (n : nat) (attempt : Z)
    (lastError : option thrown) : M R :=
  match n with
  | O =>
      raise (match lastError with
             | Some e => e
             | None => all_retries_failed
             end)
  | S n' =>
      fun s =>
        match (throttle ;;; modify incr_requestCount ;;; await fn) s with
        | (Return result, s') => (Return result, s')
        | (Throw error, s') =>
            (modify incr_errorCount ;;;
             let lastError := toError error in
             if (isRateLimitError error && (attempt <? maxRetries config))%bool
             then
               sleep InBackoff (getBackoffDelay attempt) ;;;
               execute_loop fn n' (attempt + 1) (Some lastError)
             else if attempt <? maxRetries config
             then
               sleep InBackoff (getBackoffDelay attempt) ;;;
               execute_loop fn n' (attempt + 1) (Some lastError)
             else
               execute_loop fn n' (attempt + 1) (Some lastError)) s'
        end
  end.

(** [execute(fn)]: attempts [0 .. maxRetries]. *)
Definition execute (fn : fetch) : M R :=
  execute_loop fn (Z.to_nat (maxRetries config + 1)) 0 None.

(** The options of [executeBatch]: whether each callback is given, and
    [continueOnError] when it is given. *)
Record BatchOptions : Type := {
  onProgress : bool;
  onError : bool;
  continueOnError : option bool
}.

Definition no_options : BatchOptions :=
  {| onProgress := false; onError := false; continueOnError := None |}.

(** The loop that splits the items into batches, from index [i]; it has
    no result when [fuel] iterations do not reach the end of the items. *)
Fixpoint split_batches (items : list T) (fuel : nat) (i : Z)
    : option (list (list T)) :=
  if i <? Z.of_nat (length items) then
    match fuel with
    | O => None
    | S fuel' =>
        match split_batches items fuel' (i + batchSize config) with
        | Some rest => Some (slice items i (i + batchSize config) :: rest)
        | None => None
        end
    end
  else Some [].

(** The result map and the number of completed items. *)
Definition results_map : Type := gmap T (R + thrown).

(** The body of [for (const item of batch)]. *)
Definition process_item (fn : T -> fetch) (options : BatchOptions)
    (total : Z) (acc : results_map * Z) (item : T) : M (results_map * Z) :=
  let '(results, completed) := acc in
  results <-
    try_catch
      (result <- execute (fn item) ;;
       ret (<[item := inl result]> results))
      (fun error =>
         let err := toError error in
         let results := <[item := inr err]> results in
         (if onError options
          then modify (emit (ErrorReported item err)) else ret tt) ;;;
         if negb (default true (continueOnError options))
         then raise err
         else ret results) ;;
  let completed := completed + 1 in
  (if onProgress options
   then modify (emit (ProgressReported completed total)) else ret tt) ;;;
  ret (results, completed).

Fixpoint process_batch (fn : T -> fetch) (options : BatchOptions)
    (total : Z) (acc : results_map * Z) (batch : list T)
    : M (results_map * Z) :=
  match batch with
  | [] => ret acc
  | item :: rest =>
      acc' <- process_item fn options total acc item ;;
      process_batch fn options total acc' rest
  end.

(** The loop over the batches; [batchIndex < batches.length - 1] holds
    exactly when batches remain. *)
Fixpoint process_batches (fn : T -> fetch) (options : BatchOptions)
    (total : Z) (acc : results_map * Z) (batches : list (list T))
    : M (results_map * Z) :=
  match batches with
  | [] => ret acc
  | batch :: rest =>
      acc' <- process_batch fn options total acc batch ;;
      (match rest with
       | [] => ret tt
       | _ :: _ => sleep BetweenBatches (interBatchDelayMs config)
       end) ;;;
      process_batches fn options total acc' rest
  end.

(** [executeBatch(items, fn, options)]; [None] when the loop that splits
    the items does not end within [fuel] iterations. *)
Definition executeBatch (fuel : nat) (items : list T) (fn : T -> fetch)
    (options : BatchOptions) (s : state)
    : option (completion results_map * state) :=
  match split_batches items fuel 0 with
  | None => None
  | Some batches =>
      Some
        (match
           process_batches fn options (Z.of_nat (length items)) (∅, 0)
             batches s
         with
         | (Return (results, _), s') => (Return results, s')
         | (Throw e, s') => (Throw e, s')
         end)
  end.

(** [Math.ceil(a / b)] for integers [a] and a positive [b]. *)
Definition ceil_div (a b : Z) : Z := - ((- a) / b).

(** [estimateTime(itemCount)], for a positive [batchSize]: the total in
    milliseconds, then [estimatedSeconds] and [estimatedMinutes]. *)
Definition estimateTime (itemCount : Z) : Z * Z * Z :=
  let batches := ceil_div itemCount (batchSize config) in
  let requestTime := itemCount * minDelayMs config in
  let interBatchTime := (batches - 1) * interBatchDelayMs config in
  let totalMs := requestTime + interBatchTime in
  (totalMs, ceil_div totalMs 1000, ceil_div totalMs 60000).

(** [getStats()]: [requestCount], [errorCount] and [successRate]. *)
Definition getStats (s : state) : Z * Z * number :=
  let successRate :=
    if 0 <? requestCount s
    then div (int (requestCount s - errorCount s)) (int (requestCount s))
    else int 1 in
  (requestCount s, errorCount s, successRate).

(** [resetStats()] *)
Definition resetStats : M unit :=
  modify (fun s =>
    {| clock := clock s; lastRequestTime := lastRequestTime s;
       requestCount := 0; errorCount := 0;
       world := world s; log := log s |}).

(** The entries of a [Map] in the order in which iterating it yields them,
    the order in which the keys were first set. *)
Definition entries : Type := list (T * (R + thrown)).

(** [map.set(item, value)]: the value of a key that is present is replaced
    in place, a new key goes to the end. *)
Fixpoint map_set (item : T) (value : R + thrown) (m : entries) : entries :=
  match m with
  | [] => [(item, value)]
  | (k, v) :: rest =>
      if decide (item = k) then (item, value) :: rest
      else (k, v) :: map_set item value rest
  end.

(** The loops of [executeBatch] once more, with the result map kept as its
    entries in iteration order. *)
Definition process_item_entries (fn : T -> fetch) (options : BatchOptions)
    (total : Z) (acc : entries * Z) (item : T) : M (entries * Z) :=
  let '(results, completed) := acc in
  results <-
    try_catch
      (result <- execute (fn item) ;;
       ret (map_set item (inl result) results))
      (fun error =>
         let err := toError error in
         let results := map_set item (inr err) results in
         (if onError options
          then modify (emit (ErrorReported item err)) else ret tt) ;;;
         if negb (default true (continueOnError options))
         then raise err
         else ret results) ;;
  let completed := completed + 1 in
  (if onProgress options
   then modify (emit (ProgressReported completed total)) else ret tt) ;;;
  ret (results, completed).

Fixpoint process_batch_entries (fn : T -> fetch) (options : BatchOptions)
    (total : Z) (acc : entries * Z) (batch : list T) : M (entries * Z) :=
  match batch with
  | [] => ret acc
  | item :: rest =>
      acc' <- process_item_entries fn options total acc item ;;
      process_batch_entries fn options total acc' rest
  end.

Fixpoint process_batches_entries (fn : T -> fetch) (options : BatchOptions)
    (total : Z) (acc : entries * Z) (batches : list (list T))
    : M (entries * Z) :=
  match batches with
  | [] => ret acc
  | batch :: rest =>
      acc' <- process_batch_entries fn options total acc batch ;;
      (match rest with
       | [] => ret tt
       | _ :: _ => sleep BetweenBatches (interBatchDelayMs config)
       end) ;;;
      process_batches_entries fn options total acc' rest
  end.

Definition executeBatch_entries (fuel : nat) (items : list T)
    (fn : T -> fetch) (options : BatchOptions) (s : state)
    : option (completion entries * state) :=
  match split_batches items fuel 0 with
  | None => None
  | Some batches =>
      Some
        (match
           process_batches_entries fn options (Z.of_nat (length items))
             ([], 0) batches s
         with
         | (Return (results, _), s') => (Return results, s')
         | (Throw e, s') => (Throw e, s')
         end)
  end.

(** [executeBatchFiltered(items, fn, options)]: [executeBatch] with
    [continueOnError: true], then the entries that are not an [Error], in
    the order of the map. *)
Definition executeBatchFiltered (fuel : nat) (items : list T)
    (fn : T -> fetch) (options : BatchOptions) (s : state)
    : option (completion (list (T * R)) * state) :=
  match
    executeBatch_entries fuel items fn
      {| onProgress := onProgress options; onError := onError options;
         continueOnError := Some true |} s
  with
  | None => None
  | Some (Throw e, s') => Some (Throw e, s')
  | Some (Return allResults, s') =>
      Some
        (Return
           (omap (fun entry : T * (R + thrown) =>
                    match entry.2 with
                    | inl result => Some (entry.1, result)
                    | inr _ => None
                    end)
                 allResults),
         s')
  end.

End Limiter.

End RateLimiter.

(* ====================================================================== *)
(** ** The schema of the portfolio database *)
(* ====================================================================== *)

Module Schema.

(** The text of [SCHEMA_SQL]. *)
Definition SCHEMA_SQL : string := "
-- Portfolio configuration
CREATE TABLE IF NOT EXISTS portfolios (
  id TEXT PRIMARY KEY,
  name TEXT NOT NULL,
  strategy TEXT NOT NULL DEFAULT 'value',
  initial_capital REAL NOT NULL,
  current_cash REAL NOT NULL,
  target_holdings INTEGER NOT NULL DEFAULT 20,
  max_position_pct REAL NOT NULL DEFAULT 0.10,
  min_position_pct REAL NOT NULL DEFAULT 0.02,
  max_sector_pct REAL NOT NULL DEFAULT 0.25,
  max_monthly_turnover INTEGER NOT NULL DEFAULT 10,
  created_at TEXT NOT NULL DEFAULT (datetime('now')),
  updated_at TEXT NOT NULL DEFAULT (datetime('now'))
);

-- Current holdings
CREATE TABLE IF NOT EXISTS holdings (
  id INTEGER PRIMARY KEY AUTOINCREMENT,
  portfolio_id TEXT NOT NULL,
  ticker TEXT NOT NULL,
  shares REAL NOT NULL,
  avg_cost REAL NOT NULL,
  current_price REAL,
  sector TEXT,
  acquired_at TEXT NOT NULL DEFAULT (datetime('now')),
  updated_at TEXT NOT NULL DEFAULT (datetime('now')),
  FOREIGN KEY (portfolio_id) REFERENCES portfolios(id),
  UNIQUE(portfolio_id, ticker)
);

-- Transaction history
CREATE TABLE IF NOT EXISTS transactions (
  id INTEGER PRIMARY KEY AUTOINCREMENT,
  portfolio_id TEXT NOT NULL,
  ticker TEXT NOT NULL,
  action TEXT NOT NULL CHECK (action IN ('BUY', 'SELL')),
  shares REAL NOT NULL,
  price REAL NOT NULL,
  total_value REAL NOT NULL,
  reason TEXT,
  score_at_trade REAL,
  executed_at TEXT NOT NULL DEFAULT (datetime('now')),
  FOREIGN KEY (portfolio_id) REFERENCES portfolios(id)
);

-- Monthly portfolio snapshots
CREATE TABLE IF NOT EXISTS snapshots (
  id INTEGER PRIMARY KEY AUTOINCREMENT,
  portfolio_id TEXT NOT NULL,
  snapshot_date TEXT NOT NULL,
  total_value REAL NOT NULL,
  cash_value REAL NOT NULL,
  holdings_value REAL NOT NULL,
  holdings_count INTEGER NOT NULL,
  period_return_pct REAL,
  cumulative_return_pct REAL,
  spy_period_return_pct REAL,
  spy_cumulative_return_pct REAL,
  alpha_pct REAL,
  holdings_data TEXT NOT NULL,
  created_at TEXT NOT NULL DEFAULT (datetime('now')),
  FOREIGN KEY (portfolio_id) REFERENCES portfolios(id)
);

-- Stock scores for analysis
CREATE TABLE IF NOT EXISTS stock_scores (
  id INTEGER PRIMARY KEY AUTOINCREMENT,
  ticker TEXT NOT NULL,
  score_date TEXT NOT NULL,
  total_score REAL NOT NULL,
  value_score REAL,
  quality_score REAL,
  growth_score REAL,
  momentum_score REAL,
  risk_score REAL,
  pe_ratio REAL,
  pb_ratio REAL,
  dividend_yield REAL,
  revenue_growth REAL,
  profit_margin REAL,
  beta REAL,
  market_cap REAL,
  sector TEXT,
  raw_data TEXT,
  created_at TEXT NOT NULL DEFAULT (datetime('now'))
);

-- Create indexes for common queries
CREATE INDEX IF NOT EXISTS idx_holdings_portfolio ON holdings(portfolio_id);
CREATE INDEX IF NOT EXISTS idx_holdings_ticker ON holdings(ticker);
CREATE INDEX IF NOT EXISTS idx_transactions_portfolio ON transactions(portfolio_id);
CREATE INDEX IF NOT EXISTS idx_transactions_date ON transactions(executed_at);
CREATE INDEX IF NOT EXISTS idx_snapshots_portfolio ON snapshots(portfolio_id);
CREATE INDEX IF NOT EXISTS idx_snapshots_date ON snapshots(snapshot_date);
CREATE INDEX IF NOT EXISTS idx_scores_ticker ON stock_scores(ticker);
CREATE INDEX IF NOT EXISTS idx_scores_date ON stock_scores(score_date);
".

(** *** Reading the data definition statements *)

Definition newline : ascii := "010"%char.

(** Remove the [-- ...] comments, each up to the end of its line. *)
Fixpoint strip_comments (in_comment : bool) (s : string) : string :=
  match s with
  | EmptyString => EmptyString
  | String c rest =>
      if in_comment then
        if Ascii.eqb c newline then String c (strip_comments false rest)
        else strip_comments true rest
      else
        match c, rest with
        | "-"%char, String "-"%char rest' => strip_comments true rest'
        | _, _ => String c (strip_comments false rest)
        end
  end.

(** Put [c] in front of the first segment. *)
Definition push_char (c : ascii) (segments : list string) : list string :=
  match segments with
  | seg :: segs => String c seg :: segs
  | [] => [String c EmptyString]
  end.

(** The segments of [s] between the occurrences of [sep]. *)
Fixpoint split_on (sep : ascii) (s : string) : list string :=
  match s with
  | EmptyString => [EmptyString]
  | String c rest =>
      if Ascii.eqb c sep then EmptyString :: split_on sep rest
      else push_char c (split_on sep rest)
  end.

(** The segments of [s] between the commas that are outside parentheses. *)
Fixpoint split_columns (depth : nat) (s : string) : list string :=
  match s with
  | EmptyString => [EmptyString]
  | String c rest =>
      let depth' :=
        if Ascii.eqb c "("%char then S depth
        else if Ascii.eqb c ")"%char then pred depth
        else depth in
      if (Ascii.eqb c ","%char && Nat.eqb depth 0)%bool
      then EmptyString :: split_columns depth' rest
      else push_char c (split_columns depth' rest)
  end.

(** What follows the first [c], and what precedes the last [c]. *)
Fixpoint after_first (c : ascii) (s : string) : option string :=
  match s with
  | EmptyString => None
  | String a rest => if Ascii.eqb a c then Some rest else after_first c rest
  end.

Fixpoint before_last (c : ascii) (s : string) : option string :=
  match s with
  | EmptyString => None
  | String a rest =>
      match before_last c rest with
      | Some r => Some (String a r)
      | None => if Ascii.eqb a c then Some EmptyString else None
      end
  end.

(** A table: its name, and its column definitions and table constraints,
    each as the list of its words. *)
Record table : Type := {
  table_name : string;
  definitions : list (list string)
}.

Definition parse_table (statement : string) : option table :=
  match String.words statement with
  | "CREATE" :: "TABLE" :: "IF" :: "NOT" :: "EXISTS" :: name :: _ =>
      match after_first "("%char statement with
      | Some opened =>
          match before_last ")"%char opened with
          | Some body =>
              Some {| table_name := name;
                      definitions := map String.words (split_columns 0 body) |}
          | None => None
          end
      | None => None
      end
  | _ => None
  end.

(** The tables that the statements of a script create, in order. *)
Definition tables (sql : string) : list table :=
  omap parse_table (split_on ";"%char (strip_comments false sql)).

Definition find_table (sql name : string) : option table :=
  List.find (fun t => String.eqb (table_name t) name) (tables sql).

(** The definitions of [t] that start with the word [name]. *)
Definition columns_named (t : table) (name : string) : list (list string) :=
  List.filter
    (fun d => match d with
              | w :: _ => String.eqb w name
              | [] => false
              end)
    (definitions t).

(** The word after [DEFAULT] in a column definition. *)
Fixpoint default_word (d : list string) : option string :=
  match d with
  | [] => None
  | w :: rest =>
      if String.eqb w "DEFAULT" then head rest else default_word rest
  end.

Definition digit (c : ascii) : option Z :=
  let n := nat_of_ascii c in
  if ((48 <=? n)%nat && (n <=? 57)%nat)%bool
  then Some (Z.of_nat (n - 48)) else None.

Fixpoint parse_digits (acc : Z) (s : string) : option Z :=
  match s with
  | EmptyString => Some acc
  | String c rest =>
      match digit c with
      | Some d => parse_digits (10 * acc + d) rest
      | None => None
      end
  end.

(** A decimal literal [i.f] as a rational. *)
Definition parse_decimal (s : string) : option Q :=
  match split_on "."%char s with
  | [i; f] =>
      match parse_digits 0 i, parse_digits 0 f with
      | Some a, Some b =>
          let scale := 10 ^ Z.of_nat (String.length f) in
          Some ((a * scale + b) # Z.to_pos scale)
      | _, _ => None
      end
  | [i] =>
      match parse_digits 0 i with
      | Some a => Some (inject_Z a)
      | None => None
      end
  | _ => None
  end.

(** The default of the column [name] of the table [tbl], read as a decimal. *)
Definition column_default (sql tbl name : string) : option Q :=
  match find_table sql tbl with
  | Some t =>
      match columns_named t name with
      | [d] =>
          match default_word d with
          | Some w => parse_decimal w
          | None => None
          end
      | _ => None
      end
  | None => None
  end.

(** The definitions of the table [tbl], with an empty list when there is no
    such table. *)
Definition definitions_of (sql tbl : string) : list (list string) :=
  match find_table sql tbl with
  | Some t => definitions t
  | None => []
  end.

(** [s.trim()], on the ASCII white space. *)
Fixpoint trim_start (s : string) : string :=
  match s with
  | EmptyString => EmptyString
  | String c rest => if Ascii.is_space c then trim_start rest else s
  end.

Fixpoint trim_end (s : string) : string :=
  match s with
  | EmptyString => EmptyString
  | String c rest =>
      match trim_end rest with
      | EmptyString => if Ascii.is_space c then EmptyString else String c EmptyString
      | String c' rest' => String c (String c' rest')
      end
  end.

Definition trim (s : string) : string := trim_end (trim_start s).

(** The statements that [initializeDatabase] passes to [client.execute],
    in order: [sql.split(';').map(s => s.trim()).filter(s => s.length > 0)]. *)
Definition statements (sql : string) : list string :=
  List.filter (fun s => (0 <? String.length s)%nat)
    (map trim (split_on ";"%char sql)).

End Schema.

(* ====================================================================== *)
(** ** Notions used in the statements *)
(* ====================================================================== *)

Import DCF.
Import Schema.
Import RateLimiter.

Local Open Scope Q_scope.

(** *** The DCF calculator on rationals, and inputs *)

(** The inputs of the scenario: free cash flow 10e9, debt 20e9, cash 30e9,
    5e9 shares, revenue growth 8, market cap 250e9, no override. *)
Definition scenario_inputs : DCFInputs :=
  {| freeCashFlow := Num (int 10000000000);
     totalDebt := Num (int 20000000000);
     cash := Num (int 30000000000);
     sharesOutstanding := Num (int 5000000000);
     marketCap := Num (int 250000000000);
     revenueGrowth := Some (int 8);
     DCF.discountRate := None;
     DCF.terminalGrowthRate := None;
     DCF.projectionYears := None |}.

(** The reference value, computed by hand from the formulas of the
    specification: growth [min(8, 25) * 0.7 + 3 * 0.3] percent, five
    projected cash flows discounted at 9 percent, the Gordon terminal value
    at year 5 with 3 percent growth, net debt [20e9 - 30e9], 5e9 shares. *)
Definition reference_value : Q :=
  let fcf0 := 10000000000 in
  let wacc := 9 # 100 in
  let tg := 3 # 100 in
  let g := (Qmin 8 25 * (7 # 10) + 3 * (3 # 10)) / 100 in
  let fcf (y : Z) := fcf0 * (1 + g) ^ y in
  let pv (y : Z) := fcf y / (1 + wacc) ^ y in
  let tv := fcf 5%Z * (1 + tg) / (wacc - tg) in
  let ev := pv 1%Z + pv 2%Z + pv 3%Z + pv 4%Z + pv 5%Z + tv / (1 + wacc) ^ 5 in
  (ev - (20000000000 - 30000000000)) / 5000000000.

(** [1 + rate / 100] on rationals. *)
Definition gfQ (r : Q) : Q := inject_Z 1 + r / inject_Z 100.

(** The sum accumulated by [sumPV_loop], on rationals. *)
Fixpoint sumQ (f g d : Q) (n : nat) (y : Z) (acc : Q) : Q :=
  match n with
  | O => acc
  | S n' => sumQ f g d n' (y + 1) (acc + f * gfQ g ^ y / gfQ d ^ y)
  end.

(** The intrinsic value per share of [calcIntrinsicValue], on rationals:
    free cash flow [f], [sh] shares, net debt [nd], horizon [py], discount
    rate [d], FCF growth [g] and terminal growth [t] (rates in percent). *)
Definition ivQ (f sh nd : Q) (py : Z) (d g t : Q) : Q :=
  (sumQ f g d (Z.to_nat py) 1 (inject_Z 0)
   + f * gfQ g ^ py * gfQ t / (d / inject_Z 100 - t / inject_Z 100)
     / gfQ d ^ py
   - nd) / sh.

(** [Math.max] and [Math.min] on rationals. *)
Definition maxQ (a b : Q) : Q := if Qle_bool a b then b else a.
Definition minQ (a b : Q) : Q := if Qle_bool a b then a else b.

(** The horizon [calculateDCF] works with: [inputs.projectionYears || 5]. *)
Definition horizon (inputs : DCFInputs) : number :=
  or_default (DCF.projectionYears inputs) (int 5).

(** The inputs as the arithmetic reads them: every required property
    replaced by the number it is converted to. *)
Definition as_read (inputs : DCFInputs) : DCFInputs :=
  {| freeCashFlow := Num (to_number (freeCashFlow inputs));
     totalDebt := Num (to_number (totalDebt inputs));
     cash := Num (to_number (cash inputs));
     sharesOutstanding := Num (to_number (sharesOutstanding inputs));
     marketCap := Num (to_number (marketCap inputs));
     revenueGrowth := DCF.revenueGrowth inputs;
     DCF.discountRate := DCF.discountRate inputs;
     DCF.terminalGrowthRate := DCF.terminalGrowthRate inputs;
     DCF.projectionYears := DCF.projectionYears inputs |}.

(** Magnitudes on which the binary64 arithmetic of the calculator stays
    far from overflow and underflow: amounts between 1 and 10^15, rates
    between -50 and 100 percent, at most a hundred years. *)
Definition moderate_amount (a : Q) : Prop := 1 <= a /\ a <= 1000000000000000.

Definition moderate_balance (a : Q) : Prop :=
  -1000000000000000 <= a /\ a <= 1000000000000000.

Definition moderate_rate (r : Q) : Prop := -50 <= r /\ r <= 100.

Definition moderate_horizon (py : Z) : Prop := (1 <= py /\ py <= 100)%Z.

(** The scenario inputs with a horizon of two and a half years. *)
Definition fractional_horizon_inputs : DCFInputs :=
  {| freeCashFlow := Num (int 10000000000);
     totalDebt := Num (int 20000000000);
     cash := Num (int 30000000000);
     sharesOutstanding := Num (int 5000000000);
     marketCap := Num (int 250000000000);
     revenueGrowth := Some (int 8);
     DCF.discountRate := None;
     DCF.terminalGrowthRate := None;
     DCF.projectionYears := Some (dec 25 10) |}.

(** The scenario inputs with [null] for the free cash flow. *)
Definition null_fcf_inputs : DCFInputs :=
  {| freeCashFlow := Null;
     totalDebt := Num (int 20000000000);
     cash := Num (int 30000000000);
     sharesOutstanding := Num (int 5000000000);
     marketCap := Num (int 250000000000);
     revenueGrowth := Some (int 8);
     DCF.discountRate := None;
     DCF.terminalGrowthRate := None;
     DCF.projectionYears := None |}.

(** The scenario inputs with the discount rate overridden to 3.5, above the
    default terminal growth of 3. *)
Definition low_discount_inputs : DCFInputs :=
  {| freeCashFlow := Num (int 10000000000);
     totalDebt := Num (int 20000000000);
     cash := Num (int 30000000000);
     sharesOutstanding := Num (int 5000000000);
     marketCap := Num (int 250000000000);
     revenueGrowth := Some (int 8);
     DCF.discountRate := Some (dec 35 10);
     DCF.terminalGrowthRate := None;
     DCF.projectionYears := None |}.

(** The scenario inputs with the discount rate overridden to 2, below the
    default terminal growth of 3. *)
Definition inverted_rates_inputs : DCFInputs :=
  {| freeCashFlow := Num (int 10000000000);
     totalDebt := Num (int 20000000000);
     cash := Num (int 30000000000);
     sharesOutstanding := Num (int 5000000000);
     marketCap := Num (int 250000000000);
     revenueGrowth := Some (int 8);
     DCF.discountRate := Some (int 2);
     DCF.terminalGrowthRate := None;
     DCF.projectionYears := None |}.

(** The scenario inputs without a free cash flow. *)
Definition absent_fcf_inputs : DCFInputs :=
  {| freeCashFlow := Undefined;
     totalDebt := Num (int 20000000000);
     cash := Num (int 30000000000);
     sharesOutstanding := Num (int 5000000000);
     marketCap := Num (int 250000000000);
     revenueGrowth := Some (int 8);
     DCF.discountRate := None;
     DCF.terminalGrowthRate := None;
     DCF.projectionYears := None |}.

(** *** The schema *)

(** The definitions of the column [name] in the table [tbl]. *)
Definition column_definitions (sql tbl name : string) : list (list string) :=
  match find_table sql tbl with
  | Some t => columns_named t name
  | None => []
  end.

(** The three percentage columns of the portfolio configuration. *)
Definition percentage_columns : list string :=
  ["max_position_pct"; "min_position_pct"; "max_sector_pct"]%string.

Local Open Scope Z_scope.

(** *** Traces, results and waits of the rate limiter *)

Section LimiterNotions.

Context {T R W : Type} `{Countable T}.

Variable config : RateLimiterConfig.

Variable fn : T -> @RateLimiter.fetch R W.

Local Abbreviation state := (@RateLimiter.state T R W).
Local Abbreviation event := (@RateLimiter.event T R).

(** Every event but the waits of the throttle. *)
Definition outside_throttle (e : event) : bool :=
  match e with
  | Slept InThrottle _ => false
  | _ => true
  end.

(** What a run of [execute] shows outside the throttle when its calls
    settle as [outcomes], the first of them being the attempt numbered
    [attempt]: after each call but the last, a backoff of
    [getBackoffDelay] of that attempt. *)
Fixpoint retry_trace (attempt : Z) (outcomes : list (completion R))
    : list event :=
  match outcomes with
  | [] => []
  | o :: rest =>
      match rest with
      | [] => [Called o]
      | _ :: _ =>
          Called o :: Slept InBackoff (getBackoffDelay config attempt)
            :: retry_trace (attempt + 1) rest
      end
  end.

(** Whether an outcome is a failure. *)
Definition failed (o : completion R) : Prop :=
  match o with
  | Throw _ => True
  | Return _ => False
  end.

(** All the outcomes but the last are failures. *)
Fixpoint retried (outcomes : list (completion R)) : Prop :=
  match outcomes with
  | [] => True
  | o :: rest =>
      match rest with
      | [] => True
      | _ :: _ => failed o /\ retried rest
      end
  end.

(** The number of failures among the outcomes. *)
Definition failures (outcomes : list (completion R)) : Z :=
  Z.of_nat
    (length (List.filter
               (fun o => match o with Throw _ => true | Return _ => false end)
               outcomes)).

(** How [execute] ends after calls that settled as [outcomes]: with the
    value of the last call, or by throwing the error of the last call (the
    error [fallback] when there was no call). *)
Definition settles (fallback : thrown) (outcomes : list (completion R))
    (r : completion R) : Prop :=
  match last outcomes with
  | Some (Return v) => r = Return v
  | Some (Throw e) => r = Throw (toError e)
  | None => r = Throw fallback
  end.

(** The entry that [executeBatch] stores for an item whose [execute]
    ended with [r]. *)
Definition entry_of (r : completion R) : R + thrown :=
  match r with
  | Return v => inl v
  | Throw e => inr (toError e)
  end.

(** The map has an entry exactly for the items of [done], and the entry of
    an item is how an [execute] of its fetch ended. *)
Definition covers (done : list T) (results : gmap T (R + thrown)) : Prop :=
  (forall item, item ∈ done <-> is_Some (results !! item)) /\
  (forall item entry, results !! item = Some entry ->
     exists s0 : state, entry = entry_of (execute config (fn item) s0).1).

(** The steps of [executeBatch] over the batches: their items in order,
    with a pause ([None]) between one batch and the next. *)
Fixpoint schedule (batches : list (list T)) : list (option T) :=
  match batches with
  | [] => []
  | batch :: rest =>
      (Some <$> batch) ++
      match rest with
      | [] => []
      | _ :: _ => None :: schedule rest
      end
  end.

(** The run of [executeBatch] over some of its steps, one after the
    other: an item by the body of the loop over the items, a pause by the
    sleep between batches.  The run of the steps before an item ends in
    the state in which that item is reached. *)
Fixpoint run_steps (options : BatchOptions) (total : Z)
    (acc : gmap T (R + thrown) * Z) (steps : list (option T))
    : state -> completion (gmap T (R + thrown) * Z) * state :=
  match steps with
  | [] => ret acc
  | Some item :: rest =>
      bind (process_item config fn options total acc item)
        (fun acc' => run_steps options total acc' rest)
  | None :: rest =>
      bind (sleep BetweenBatches (interBatchDelayMs config))
        (fun _ => run_steps options total acc rest)
  end.

(** The wait the throttle imposes in a state. *)
Definition throttle_wait (s : state) : Z :=
  Z.max 0 (minDelayMs config - (clock s - lastRequestTime s)).

(** Every fetch succeeds at once. *)
Definition instant : Prop :=
  forall (item : T) (w : W), exists (r : R) (w' : W),
    fn item w = (Return r, 0, w').

End LimiterNotions.

(** *** Runs on concrete tickers *)

(** A limiter that has made no request yet, at some time of the clock, in
    a world without state. *)
Definition fresh_limiter : @RateLimiter.state string Z unit :=
  {| clock := 1700000000000; lastRequestTime := 0; requestCount := 0;
     errorCount := 0; world := tt; log := [] |}.

Definition tickers23 : list string :=
  ["AAPL"; "MSFT"; "GOOG"; "AMZN"; "META"; "NVDA"; "TSLA"; "JPM"; "V"; "JNJ";
   "WMT"; "PG"; "MA"; "HD"; "XOM"; "CVX"; "KO"; "PEP"; "ABBV"; "MRK";
   "COST"; "AVGO"; "ORCL"]%string.

(** A fetch that succeeds at once for every ticker. *)
Definition instant_fetch (item : string) : @RateLimiter.fetch Z unit :=
  fun w => (Return 100, 0, w).

(** A fetch that fails for MSFT, with [message], and succeeds otherwise. *)
Definition failing_fetch (message : string) (item : string)
    : @RateLimiter.fetch Z unit :=
  fun w =>
    if String.eqb item "MSFT" then (Throw (ErrorObject message), 0, w)
    else (Return 100, 0, w).

Definition three_tickers : list string := ["AAPL"; "MSFT"; "GOOG"]%string.

Definition stop_on_error : BatchOptions :=
  {| onProgress := false; onError := false; continueOnError := Some false |}.

Definition zero_batch_config : RateLimiterConfig :=
  {| minDelayMs := 500; maxRetries := 3; baseBackoffMs := 1000;
     batchSize := 0; interBatchDelayMs := 2000 |}.

(* ====================================================================== *)
(** ** Further notions *)
(* ====================================================================== *)

Local Open Scope Z_scope.

Section LimiterMeasures.

Context {T R W : Type} `{Countable T}.

Variable config : RateLimiterConfig.

Local Abbreviation state := (@RateLimiter.state T R W).
Local Abbreviation event := (@RateLimiter.event T R).

(** From [s] to [s'] the clock did not go back, at most as many errors as
    requests were counted, and the last request moved on by at least
    [minDelayMs] for every request. *)
Definition paced (s s' : state) : Prop :=
  clock s <= clock s' /\
  0 <= errorCount s' - errorCount s <= requestCount s' - requestCount s /\
  lastRequestTime s + (requestCount s' - requestCount s) * minDelayMs config
    <= lastRequestTime s'.

(** The milliseconds slept in backoffs. *)
Fixpoint backoff_total (trace : list event) : Z :=
  match trace with
  | [] => 0
  | Slept InBackoff ms :: rest => ms + backoff_total rest
  | _ :: rest => backoff_total rest
  end.

(** The progress reports, in order. *)
Definition progress_reports (trace : list event) : list (Z * Z) :=
  omap (fun e => match e with
                 | ProgressReported completed total => Some (completed, total)
                 | _ => None
                 end) trace.

(** The keys of a map in iteration order after setting [items] in order:
    the items by first occurrence. *)
Definition insertion_order (items : list T) : list T :=
  foldl (fun keys item => if decide (item ∈ keys) then keys else keys ++ [item])
    [] items.

End LimiterMeasures.

(** The keywords that make an error message a rate-limit message. *)
Definition rate_limit_keywords : list string :=
  ["rate limit"; "too many requests"; "429"; "throttl"]%string.

(** [needle] occurs in [s]. *)
Definition occurs_in (needle s : string) : Prop :=
  exists pre post : string, s = (pre ++ needle ++ post)%string.

Section FilteredNotions.

Context {T R : Type} `{Countable T}.

(** Whether the entry of a key is there and is a result, not an [Error]. *)
Definition is_result (entry : option (R + thrown)) : bool :=
  match entry with
  | Some (inl _) => true
  | _ => false
  end.

End FilteredNotions.

Section KeyOrder.

Context {T : Type} `{EqDecision T}.

(** The keys after one more [set]. *)
Definition key_step (keys : list T) (item : T) : list T :=
  if decide (item ∈ keys) then keys else keys ++ [item].

End KeyOrder.

(** The reports of the items [completed + 1 .. completed + n]. *)
Definition expected_reports (options : BatchOptions) (total completed : Z)
    (n : nat) : list (Z * Z) :=
  if onProgress options
  then (fun k => (k, total)) <$> seqZ (completed + 1) (Z.of_nat n)
  else [].

(** The recommendations from the most negative to the most positive. *)
Definition rank (r : Recommendation) : nat :=
  match r with
  | StrongSell => 0
  | Sell => 1
  | Hold => 2
  | Buy => 3
  | StrongBuy => 4
  end.

(** The rates that [calculateWACC] returns without an override. *)
Definition wacc_tiers : list number :=
  [int 9; int 10; int 11; dec 125 10; int 14].

(** [c] is a character of [s]. *)
Fixpoint has_char (c : ascii) (s : string) : bool :=
  match s with
  | EmptyString => false
  | String c' rest => Ascii.eqb c' c || has_char c rest
  end.

(** [segments.join(sep)] *)
Fixpoint join (sep : ascii) (segments : list string) : string :=
  match segments with
  | [] => EmptyString
  | seg :: rest =>
      match rest with
      | [] => seg
      | _ :: _ => (seg ++ String sep (join sep rest))%string
      end
  end.

(** A statement that creates a table or an index unless it exists. *)
Definition creates_if_absent (statement : string) : bool :=
  match String.words (strip_comments false statement) with
  | kw1 :: kw2 :: kw3 :: kw4 :: kw5 :: _ =>
      String.eqb kw1 "CREATE" &&
      (String.eqb kw2 "TABLE" || String.eqb kw2 "INDEX") &&
      String.eqb kw3 "IF" && String.eqb kw4 "NOT" && String.eqb kw5 "EXISTS"
  | _ => false
  end.

(* ====================================================================== *)
(** ** Properties of the DCF calculator *)
(* ====================================================================== *)

Local Open Scope Q_scope.

(** *** Comparisons and arithmetic on finite numbers *)

Lemma lt_fin (a b : Q) : lt (Fin a) (Fin b) = true <-> a < b.
Proof.
  unfold lt. rewrite negb_true_iff.
  split.
  - intros Hb. apply Qnot_le_lt. intros Hle.
    apply Qle_bool_iff in Hle. congruence.
  - intros Hlt. destruct (Qle_bool b a) eqn:E; [|reflexivity].
    apply Qle_bool_iff in E. lra.
Qed.

Lemma le_fin (a b : Q) : le (Fin a) (Fin b) = true <-> a <= b.
Proof. apply Qle_bool_iff. Qed.

Lemma lt_fin_false (a b : Q) : lt (Fin a) (Fin b) = false <-> b <= a.
Proof.
  unfold lt. rewrite negb_false_iff. apply Qle_bool_iff.
Qed.

Lemma le_fin_false (a b : Q) : le (Fin a) (Fin b) = false <-> b < a.
Proof.
  unfold le. split.
  - intros E. apply Qnot_le_lt. intros Hle.
    apply Qle_bool_iff in Hle. congruence.
  - intros Hlt. destruct (Qle_bool a b) eqn:E; [|reflexivity].
    apply Qle_bool_iff in E. lra.
Qed.

Lemma div_fin (a b : Q) : ~ b == 0 -> div (Fin a) (Fin b) = Fin (a / b).
Proof.
  intros Hb. unfold div.
  destruct (Qeq_bool b 0) eqn:E; [|reflexivity].
  apply Qeq_bool_iff in E. contradiction.
Qed.

Lemma pow_fin (a : Q) (n : Z) : (0 < n)%Z -> pow (Fin a) n = Fin (a ^ n).
Proof.
  intros Hn. unfold pow.
  destruct (Z.eqb_spec n 0) as [->|_]; [lia|].
  destruct (Z.ltb_spec n 0); [lia|reflexivity].
Qed.

(** *** The discount rate *)

(** C6: without an override the discount rate is read from the market-cap
    tiers (above 200e9: 9; above 50e9: 10; above 10e9: 11; above 2e9: 12.5;
    otherwise 14), it does not increase when the market cap grows, an
    override is returned unchanged, and [calculateDCF] reports exactly that
    rate among its assumptions. *)
Theorem calculateWACC_tiers_and_override :
  (forall mc rate, calculateWACC mc (Some rate) = rate) /\
  (forall q : Q,
      (200000000000 < q -> calculateWACC (Num (Fin q)) None = int 9) /\
      (50000000000 < q <= 200000000000 ->
         calculateWACC (Num (Fin q)) None = int 10) /\
      (10000000000 < q <= 50000000000 ->
         calculateWACC (Num (Fin q)) None = int 11) /\
      (2000000000 < q <= 10000000000 ->
         calculateWACC (Num (Fin q)) None = dec 125 10) /\
      (q <= 2000000000 -> calculateWACC (Num (Fin q)) None = int 14)) /\
  (forall q1 q2 : Q, q1 <= q2 ->
      le (calculateWACC (Num (Fin q2)) None)
         (calculateWACC (Num (Fin q1)) None) = true) /\
  (forall inputs o, calculateDCF inputs = Return o ->
      a_discountRate (assumptions o) =
        calculateWACC (marketCap inputs) (DCF.discountRate inputs)) /\
  (forall inputs o rate,
      DCF.discountRate inputs = Some rate ->
      calculateDCF inputs = Return o ->
      a_discountRate (assumptions o) = rate).
Proof.
  assert (Hdcf : forall inputs o, calculateDCF inputs = Return o ->
      a_discountRate (assumptions o) =
        calculateWACC (marketCap inputs) (DCF.discountRate inputs)).
  { intros inputs o. unfold calculateDCF.
    destruct (ge _ _); [discriminate|].
    destruct (index_at _ _); [|discriminate].
    intros [= <-]. reflexivity. }
  split; [reflexivity|].
  split.
  { intros q. unfold calculateWACC, to_number, gt, int.
    repeat split; intros;
      repeat match goal with
        | |- context [lt (Fin ?a) (Fin q)] =>
            let E := fresh "E" in
            destruct (lt (Fin a) (Fin q)) eqn:E;
            [apply lt_fin in E | apply lt_fin_false in E]
        end;
      unfold inject_Z in *; try reflexivity; lra. }
  split.
  { intros q1 q2 Hq. unfold calculateWACC, to_number, gt, int.
    repeat match goal with
      | |- context [lt (Fin ?a) (Fin ?q)] =>
          let E := fresh "E" in
          destruct (lt (Fin a) (Fin q)) eqn:E;
          [apply lt_fin in E | apply lt_fin_false in E]
      end;
      unfold inject_Z in *; try reflexivity; lra. }
  split; [exact Hdcf|].
  intros inputs o rate Hrate Ho.
  rewrite (Hdcf _ _ Ho), Hrate. reflexivity.
Qed.

(** The mega-cap tier on a market cap of 250e9. *)
Lemma calculateWACC_tiers_and_override_witness :
  calculateWACC (Num (int 250000000000)) None = int 9.
Proof.
  destruct calculateWACC_tiers_and_override as (_ & Htiers & _).
  destruct (Htiers (inject_Z 250000000000)) as (Hmega & _).
  apply Hmega. reflexivity.
Defined.

(** *** The FCF growth rate *)

Lemma min_lt_zero (rg : number) :
  lt (min rg (int 25)) (int 0) = lt rg (int 0).
Proof.
  destruct rg as [q| | |]; try reflexivity.
  unfold min, int. destruct (le (Fin q) (Fin (inject_Z 25))) eqn:E.
  - reflexivity.
  - apply le_fin_false in E.
    transitivity false; [reflexivity|].
    symmetry. apply lt_fin_false. unfold inject_Z in *. lra.
Qed.

Lemma min_fin (a b : Q) : same (min (Fin a) (Fin b)) (Fin (Qmin a b)).
Proof.
  unfold min. destruct (le (Fin a) (Fin b)) eqn:E; simpl.
  - apply le_fin in E. symmetry. apply Q.min_l. exact E.
  - apply le_fin_false in E. symmetry. apply Q.min_r. lra.
Qed.

(** C7: the default FCF growth rate is [min(revenueGrowth, 25) * 0.7 +
    terminalGrowth * 0.3] when the revenue growth is present and not
    negative, the midpoint of the terminal growth rate and 8 when it is
    absent, and the terminal growth rate itself when it is negative; this
    is the rate [calculateDCF] uses. *)
Theorem estimateFCFGrowthRate_cases :
  (forall rg t : number, ge rg (int 0) = true ->
      estimateFCFGrowthRate (Some rg) t =
        add (mul (min rg (int 25)) (dec 7 10)) (mul t (dec 3 10))) /\
  (forall rg t : Q, 0 <= rg ->
      same (estimateFCFGrowthRate (Some (Fin rg)) (Fin t))
           (Fin (Qmin rg 25 * (7 # 10) + t * (3 # 10)))) /\
  (forall t : number,
      estimateFCFGrowthRate None t = div (add t (int 8)) (int 2)) /\
  (forall t : Q,
      same (estimateFCFGrowthRate None (Fin t)) (Fin ((t + 8) / 2))) /\
  (forall rg t : number, lt rg (int 0) = true ->
      estimateFCFGrowthRate (Some rg) t = t) /\
  (forall inputs o, calculateDCF inputs = Return o ->
      a_fcfGrowthRate (assumptions o) =
        estimateFCFGrowthRate (DCF.revenueGrowth inputs)
          (a_terminalGrowthRate (assumptions o)) /\
      a_terminalGrowthRate (assumptions o) =
        or_default (DCF.terminalGrowthRate inputs) (int 3)).
Proof.
  assert (Hge : forall rg t : number, ge rg (int 0) = true ->
      estimateFCFGrowthRate (Some rg) t =
        add (mul (min rg (int 25)) (dec 7 10)) (mul t (dec 3 10))).
  { intros rg t Hrg. unfold estimateFCFGrowthRate.
    rewrite min_lt_zero.
    destruct rg as [q| | |]; try discriminate; try reflexivity.
    apply le_fin in Hrg.
    replace (lt (Fin q) (int 0)) with false; [reflexivity|].
    symmetry. apply lt_fin_false. exact Hrg. }
  assert (Hdcf : forall inputs o, calculateDCF inputs = Return o ->
      a_fcfGrowthRate (assumptions o) =
        estimateFCFGrowthRate (DCF.revenueGrowth inputs)
          (a_terminalGrowthRate (assumptions o)) /\
      a_terminalGrowthRate (assumptions o) =
        or_default (DCF.terminalGrowthRate inputs) (int 3)).
  { intros inputs o. unfold calculateDCF.
    destruct (ge _ _); [discriminate|].
    destruct (index_at _ _); [|discriminate].
    intros [= <-]. split; reflexivity. }
  split; [exact Hge|].
  split.
  { intros rg t Hrg. rewrite Hge.
    - pose proof (min_fin rg 25) as Hm. unfold int.
      change (inject_Z 25) with 25.
      destruct (min (Fin rg) (Fin 25)) eqn:E; simpl in Hm; try contradiction.
      unfold dec. simpl. rewrite Hm. reflexivity.
    - apply le_fin. exact Hrg. }
  split; [reflexivity|].
  split.
  { intros t. unfold estimateFCFGrowthRate, int. simpl. reflexivity. }
  split; [|exact Hdcf].
  intros rg t Hrg. unfold estimateFCFGrowthRate.
  rewrite min_lt_zero, Hrg. reflexivity.
Qed.

(** The growth rate for a revenue growth of 8 and a terminal growth of 3. *)
Lemma estimateFCFGrowthRate_cases_witness :
  estimateFCFGrowthRate (Some (int 8)) (int 3) =
    add (mul (min (int 8) (int 25)) (dec 7 10)) (mul (int 3) (dec 3 10)).
Proof.
  destruct estimateFCFGrowthRate_cases as (Hge & _).
  apply Hge. reflexivity.
Defined.

(** *** The valuation assessment *)

(** The recommendation is read off the upside alone. *)
Lemma recommendation_of_upside (iv cp : number) :
  let a := assessValuation iv cp in
  recommendation a =
    if ge (upside a) (int 30) then StrongBuy
    else if ge (upside a) (int 15) then Buy
    else if ge (upside a) (int (-15)) then Hold
    else if ge (upside a) (int (-30)) then Sell
    else StrongSell.
Proof. reflexivity. Qed.

Lemma upside_fin (v cp : Q) :
  0 < cp ->
  upside (assessValuation (Fin v) (Fin cp)) = Fin ((v - cp) / cp * inject_Z 100).
Proof.
  intros Hcp. unfold assessValuation. cbn [upside].
  unfold sub, neg, add. rewrite div_fin by lra. reflexivity.
Qed.

(** C10: for a positive current price the upside is
    [(intrinsicValue - currentPrice) / currentPrice * 100], computed by
    these three operations in this order, and the recommendation is read
    off the upside so computed: Strong Buy from 30 up, Buy on [15, 30),
    Hold on [-15, 15), Sell on [-30, -15) and Strong Sell below -30; an
    upside of +Infinity is a Strong Buy, one of -Infinity or NaN a Strong
    Sell. *)
Theorem assessValuation_partition (iv : number) (cp : Q) :
  0 < cp ->
  let a := assessValuation iv (Fin cp) in
  currentPrice a = Fin cp /\
  upside a = mul (div (sub iv (Fin cp)) (Fin cp)) (int 100) /\
  (ge (upside a) (int 30) = true -> recommendation a = StrongBuy) /\
  (ge (upside a) (int 15) = true -> lt (upside a) (int 30) = true ->
     recommendation a = Buy) /\
  (ge (upside a) (int (-15)) = true -> lt (upside a) (int 15) = true ->
     recommendation a = Hold) /\
  (ge (upside a) (int (-30)) = true -> lt (upside a) (int (-15)) = true ->
     recommendation a = Sell) /\
  (lt (upside a) (int (-30)) = true -> recommendation a = StrongSell) /\
  (forall u : Q, upside a = Fin u ->
     (30 <= u -> recommendation a = StrongBuy) /\
     (15 <= u < 30 -> recommendation a = Buy) /\
     (-15 <= u < 15 -> recommendation a = Hold) /\
     (-30 <= u < -15 -> recommendation a = Sell) /\
     (u < -30 -> recommendation a = StrongSell)) /\
  (upside a = PInf -> recommendation a = StrongBuy) /\
  (upside a = NInf \/ upside a = NaN -> recommendation a = StrongSell).
Proof.
  intros Hcp a.
  assert (Hcases : forall u : Q, upside a = Fin u ->
     (30 <= u -> recommendation a = StrongBuy) /\
     (15 <= u < 30 -> recommendation a = Buy) /\
     (-15 <= u < 15 -> recommendation a = Hold) /\
     (-30 <= u < -15 -> recommendation a = Sell) /\
     (u < -30 -> recommendation a = StrongSell)).
  { intros u Hu. subst a. rewrite recommendation_of_upside, Hu.
    unfold ge, int.
    repeat match goal with
      | |- context [le (Fin ?k) (Fin u)] =>
          let E := fresh "E" in
          destruct (le (Fin k) (Fin u)) eqn:E;
          [apply le_fin in E | apply le_fin_false in E]
      end;
      unfold inject_Z in *;
      (split; [|split; [|split; [|split]]]); intros; try reflexivity; lra. }
  split; [reflexivity|].
  split; [reflexivity|].
  assert (Hnum :
    (ge (upside a) (int 30) = true -> recommendation a = StrongBuy) /\
    (ge (upside a) (int 15) = true -> lt (upside a) (int 30) = true ->
       recommendation a = Buy) /\
    (ge (upside a) (int (-15)) = true -> lt (upside a) (int 15) = true ->
       recommendation a = Hold) /\
    (ge (upside a) (int (-30)) = true -> lt (upside a) (int (-15)) = true ->
       recommendation a = Sell) /\
    (lt (upside a) (int (-30)) = true -> recommendation a = StrongSell)).
  { destruct (upside a) as [u| | |] eqn:Hu.
    - destruct (Hcases u eq_refl) as (H1 & H2 & H3 & H4 & H5).
      unfold ge, int.
      rewrite !le_fin, !lt_fin. unfold inject_Z.
      repeat split; intros; auto.
    - subst a. rewrite recommendation_of_upside, Hu.
      repeat split; intros; try reflexivity; discriminate.
    - subst a. rewrite recommendation_of_upside, Hu.
      repeat split; intros; try reflexivity; discriminate.
    - subst a. rewrite recommendation_of_upside, Hu.
      repeat split; intros; try reflexivity; discriminate. }
  destruct Hnum as (H1 & H2 & H3 & H4 & H5).
  do 5 (split; [assumption|]).
  split; [exact Hcases|].
  split.
  - intros Hu. subst a. rewrite recommendation_of_upside, Hu. reflexivity.
  - intros [Hu|Hu]; subst a; rewrite recommendation_of_upside, Hu;
      reflexivity.
Qed.

(** The theorem at an intrinsic value of 130 and a price of 100: the upside
    is 30 and the recommendation Strong Buy. *)
Lemma assessValuation_partition_witness :
  recommendation (assessValuation (int 130) (int 100)) = StrongBuy.
Proof.
  pose proof (assessValuation_partition (int 130) 100 ltac:(reflexivity)) as H.
  cbv zeta in H.
  destruct H as (_ & _ & H & _).
  apply H. reflexivity.
Defined.

(** *** The mega-cap scenario *)

(** C8: on the scenario inputs [calculateDCF] uses a discount rate of 9, a
    terminal growth of 3, five years and a growth of 6.5, and its intrinsic
    value per share is within 0.01 of the reference value (it lies between
    41.90 and 41.91). *)
Theorem calculateDCF_scenario_matches_reference :
  exists (o : DCFOutputs) (v : Q),
    calculateDCF scenario_inputs = Return o /\
    intrinsicValue o = Fin v /\
    Qabs (v - reference_value) <= 1 # 100 /\
    4190 # 100 <= v <= 4191 # 100 /\
    a_discountRate (assumptions o) = int 9 /\
    a_terminalGrowthRate (assumptions o) = int 3 /\
    a_projectionYears (assumptions o) = 5%Z /\
    same (a_fcfGrowthRate (assumptions o)) (Fin (65 # 10)) /\
    length (projectedCashFlows o) = 5%nat.
Proof.
  eexists. eexists.
  split; [vm_compute; reflexivity|].
  split; [reflexivity|].
  split; [apply Qle_bool_iff; vm_compute; reflexivity|].
  split.
  { split; apply Qle_bool_iff; vm_compute; reflexivity. }
  repeat split.
Qed.

(** *** The sensitivity scenarios *)

Lemma growth_factor_fin (r : Q) : growth_factor (Fin r) = Fin (gfQ r).
Proof. reflexivity. Qed.

Lemma max_fin (a b : Q) : max (Fin a) (Fin b) = Fin (maxQ a b).
Proof. unfold max, maxQ, le. destruct (Qle_bool a b); reflexivity. Qed.

Lemma min_fin_eq (a b : Q) : min (Fin a) (Fin b) = Fin (minQ a b).
Proof. unfold min, minQ, le. destruct (Qle_bool a b); reflexivity. Qed.

Lemma maxQ_spec (a b : Q) : a <= maxQ a b /\ b <= maxQ a b /\
  (maxQ a b == a \/ maxQ a b == b).
Proof.
  unfold maxQ. destruct (Qle_bool a b) eqn:E.
  - apply Qle_bool_iff in E.
    split; [lra|]. split; [lra|]. right. reflexivity.
  - assert (b < a).
    { apply Qnot_le_lt. intros Hle. apply Qle_bool_iff in Hle. congruence. }
    split; [lra|]. split; [lra|]. left. reflexivity.
Qed.

Lemma minQ_spec (a b : Q) : minQ a b <= a /\ minQ a b <= b /\
  (minQ a b == a \/ minQ a b == b).
Proof.
  unfold minQ. destruct (Qle_bool a b) eqn:E.
  - apply Qle_bool_iff in E.
    split; [lra|]. split; [lra|]. left. reflexivity.
  - assert (b < a).
    { apply Qnot_le_lt. intros Hle. apply Qle_bool_iff in Hle. congruence. }
    split; [lra|]. split; [lra|]. right. reflexivity.
Qed.

Lemma Qpower_base_le (a b : Q) (n : Z) :
  (0 <= n)%Z -> 0 <= a -> a <= b -> a ^ n <= b ^ n.
Proof.
  intros Hn Ha Hab. revert n Hn.
  apply natlike_ind.
  - simpl. lra.
  - intros x Hx IH.
    unfold Z.succ.
    rewrite !Qpower_plus' by lia.
    rewrite !Qpower_1_r.
    pose proof (Qpower_0_le a x Ha).
    nra.
Qed.

Lemma Qdiv_le_compat (a a' b b' : Q) :
  0 <= a -> a <= a' -> 0 < b' -> b' <= b -> a / b <= a' / b'.
Proof.
  intros Ha Haa Hb' Hb.
  apply Qle_shift_div_l; [exact Hb'|].
  assert (Hdiv : a / b * b == a) by (field; lra).
  assert (Hnn : 0 <= a / b).
  { apply Qle_shift_div_l; lra. }
  nra.
Qed.

Lemma Qdiv_le_r (a b c : Q) : a <= b -> 0 < c -> a / c <= b / c.
Proof.
  intros Hab Hc. unfold Qdiv.
  apply Qmult_le_compat_r; [exact Hab|].
  apply Qinv_le_0_compat. lra.
Qed.

Lemma Qdiv_nonneg (a b : Q) : 0 <= a -> 0 < b -> 0 <= a / b.
Proof. intros Ha Hb. apply Qle_shift_div_l; lra. Qed.

Lemma percent_eq (r : Q) : r / inject_Z 100 == r * (1 # 100).
Proof. reflexivity. Qed.

Lemma gfQ_eq (r : Q) : gfQ r == 1 + r * (1 # 100).
Proof. reflexivity. Qed.

Lemma gfQ_le (a b : Q) : a <= b -> gfQ a <= gfQ b.
Proof. rewrite !gfQ_eq. intros. lra. Qed.

Lemma gfQ_pos (a : Q) : -100 < a -> 0 < gfQ a.
Proof. rewrite gfQ_eq. intros. lra. Qed.

Lemma sumPV_loop_fin (f g d : Q) (n : nat) :
  0 < gfQ d ->
  forall (y : Z) (acc : Q), (0 < y)%Z ->
    sumPV_loop (Fin f) (Fin g) (Fin d) n y (Fin acc) = Fin (sumQ f g d n y acc).
Proof.
  intros Hd. induction n as [|n IH]; intros y acc Hy.
  - reflexivity.
  - cbn [sumPV_loop sumQ].
    rewrite !growth_factor_fin, !pow_fin by exact Hy.
    cbn [mul]. rewrite div_fin.
    + cbn [add]. apply IH. lia.
    + pose proof (Qpower_0_lt (gfQ d) y Hd). lra.
Qed.

Lemma sumQ_le (f g g' d d' : Q) (n : nat) :
  0 <= f -> 0 <= gfQ g -> gfQ g <= gfQ g' -> 0 < gfQ d' -> gfQ d' <= gfQ d ->
  forall (y : Z) (acc acc' : Q), (0 < y)%Z -> acc <= acc' ->
    sumQ f g d n y acc <= sumQ f g' d' n y acc'.
Proof.
  intros Hf Hg Hgg Hd' Hdd.
  induction n as [|n IH]; intros y acc acc' Hy Hacc.
  - exact Hacc.
  - cbn [sumQ]. apply IH; [lia|].
    assert (f * gfQ g ^ y / gfQ d ^ y <= f * gfQ g' ^ y / gfQ d' ^ y).
    { apply Qdiv_le_compat.
      - pose proof (Qpower_0_le (gfQ g) y Hg). nra.
      - pose proof (Qpower_base_le (gfQ g) (gfQ g') y ltac:(lia) Hg Hgg). nra.
      - apply Qpower_0_lt. exact Hd'.
      - apply Qpower_base_le; [lia|lra|exact Hdd]. }
    lra.
Qed.

Lemma calcIntrinsicValue_fin (inputs : DCFInputs) (f sh nd d g t : Q) (py : Z) :
  to_number (freeCashFlow inputs) = Fin f ->
  to_number (sharesOutstanding inputs) = Fin sh ->
  0 < sh -> (0 < py)%Z -> -100 < d -> t < d ->
  calcIntrinsicValue inputs py (Fin nd) (Fin d) (Fin g) (Fin t) =
    Fin (ivQ f sh nd py d g t).
Proof.
  intros Hf Hsh Hshpos Hpy Hd Htd.
  pose proof (gfQ_pos d Hd) as Hgd.
  unfold calcIntrinsicValue. rewrite Hf, Hsh.
  unfold int at 1. rewrite sumPV_loop_fin by (exact Hgd || lia).
  rewrite !growth_factor_fin, !pow_fin by exact Hpy.
  unfold int. cbn [mul].
  rewrite (div_fin d), (div_fin t) by (unfold inject_Z; lra).
  unfold sub. cbn [neg add].
  rewrite div_fin.
  2:{ rewrite !percent_eq. lra. }
  rewrite div_fin.
  2:{ pose proof (Qpower_0_lt (gfQ d) py Hgd). lra. }
  cbn [add]. rewrite div_fin by lra.
  reflexivity.
Qed.

(** The intrinsic value does not decrease when the FCF growth and the
    terminal growth go up and the discount rate goes down, as long as the
    discount rate stays above the terminal growth. *)
Lemma ivQ_monotone (f sh nd : Q) (py : Z) (d g t d' g' t' : Q) :
  0 < f -> 0 < sh -> (0 < py)%Z ->
  -100 <= g -> g <= g' ->
  -100 <= t -> t <= t' ->
  d' <= d -> t' < d' ->
  ivQ f sh nd py d g t <= ivQ f sh nd py d' g' t'.
Proof.
  intros Hf Hsh Hpy Hg Hgg Ht Htt Hdd Htd.
  assert (Hg0 : 0 <= gfQ g) by (rewrite gfQ_eq; lra).
  assert (Hg1 : gfQ g <= gfQ g') by (apply gfQ_le; exact Hgg).
  assert (Ht0 : 0 <= gfQ t) by (rewrite gfQ_eq; lra).
  assert (Ht1 : gfQ t <= gfQ t') by (apply gfQ_le; exact Htt).
  assert (Hd0 : 0 < gfQ d') by (apply gfQ_pos; lra).
  assert (Hd1 : gfQ d' <= gfQ d) by (apply gfQ_le; exact Hdd).
  assert (Hp0 : 0 <= gfQ g ^ py) by (apply Qpower_0_le; exact Hg0).
  assert (Hp1 : gfQ g ^ py <= gfQ g' ^ py)
    by (apply Qpower_base_le; [lia|exact Hg0|exact Hg1]).
  assert (Hq0 : 0 < gfQ d' ^ py) by (apply Qpower_0_lt; exact Hd0).
  assert (Hq1 : gfQ d' ^ py <= gfQ d ^ py)
    by (apply Qpower_base_le; [lia|lra|exact Hd1]).
  unfold ivQ.
  apply Qdiv_le_r; [|exact Hsh].
  assert (Hsum :
    sumQ f g d (Z.to_nat py) 1 (inject_Z 0)
    <= sumQ f g' d' (Z.to_nat py) 1 (inject_Z 0)).
  { apply sumQ_le; try assumption; try lra; lia. }
  assert (Htv :
    f * gfQ g ^ py * gfQ t / (d / inject_Z 100 - t / inject_Z 100)
      / gfQ d ^ py
    <= f * gfQ g' ^ py * gfQ t' / (d' / inject_Z 100 - t' / inject_Z 100)
      / gfQ d' ^ py).
  { assert (Hn0 : 0 <= f * gfQ g ^ py * gfQ t).
    { apply Qmult_le_0_compat; [|exact Ht0].
      apply Qmult_le_0_compat; [lra|exact Hp0]. }
    assert (Hn1 : f * gfQ g ^ py * gfQ t <= f * gfQ g' ^ py * gfQ t').
    { assert (f * gfQ g ^ py <= f * gfQ g' ^ py) by nra.
      assert (0 <= f * gfQ g ^ py) by nra.
      nra. }
    apply Qdiv_le_compat.
    - apply Qdiv_nonneg; [exact Hn0|]. rewrite !percent_eq. lra.
    - apply Qdiv_le_compat; [exact Hn0|exact Hn1| |];
        rewrite !percent_eq; lra.
    - exact Hq0.
    - exact Hq1. }
  lra.
Qed.

Lemma project_loop_length (fcf0 g d : number) (n : nat) (y : Z) :
  length (project_loop fcf0 g d n y) = n.
Proof.
  revert y. induction n as [|n IH]; intros y; [reflexivity|].
  cbn [project_loop length]. rewrite IH. reflexivity.
Qed.

(** *** The horizon *)

(** The row at position [k] of the projection is the row of year [y + k]. *)
Lemma project_loop_nth (fcf0 g d : number) (n : nat) :
  forall (y : Z) (k : nat) (cf : CashFlow),
    nth_error (project_loop fcf0 g d n y) k = Some cf ->
    cf = project_year fcf0 g d (y + Z.of_nat k).
Proof.
  induction n as [|n IH]; intros y k cf Hk.
  - destruct k; discriminate.
  - destruct k as [|k]; cbn in Hk.
    + injection Hk as <-. f_equal. lia.
    + apply IH in Hk. subst cf. f_equal. lia.
Qed.

Lemma final_year_row (fcf0 g d : number) (py : Z) (final : CashFlow) :
  index (project_loop fcf0 g d (Z.to_nat py) 1) (py - 1) = Some final ->
  final = project_year fcf0 g d py.
Proof.
  unfold index. destruct (Z.ltb_spec (py - 1) 0) as [|Hpy]; [discriminate|].
  intros Hk. apply project_loop_nth in Hk. subst final. f_equal. lia.
Qed.

(** A whole number is finite and is the integer it is read as. *)
Lemma whole_fin (h : number) (py : Z) :
  whole h = Some py ->
  exists q : Q, h = Fin q /\ q == inject_Z py /\ Qfloor q = py.
Proof.
  destruct h as [q| | |]; try discriminate. unfold whole.
  destruct (Qeq_bool q (inject_Z (Qfloor q))) eqn:E; [|discriminate].
  intros [= <-]. apply Qeq_bool_iff in E.
  exists q. split; [reflexivity|]. split; [exact E|reflexivity].
Qed.

Lemma whole_of_eq (q : Q) (z : Z) : q == inject_Z z -> whole (Fin q) = Some z.
Proof.
  intros Hq. unfold whole.
  assert (Hfloor : Qfloor q = z) by (rewrite Hq; apply Qfloor_Z).
  rewrite Hfloor.
  replace (Qeq_bool q (inject_Z z)) with true; [reflexivity|].
  symmetry. apply Qeq_bool_iff. exact Hq.
Qed.

(** The index of the last row: one less than a whole horizon. *)
Lemma whole_pred (h : number) (py : Z) :
  whole h = Some py -> whole (sub h (int 1)) = Some (py - 1)%Z.
Proof.
  intros Hh. destruct (whole_fin h py Hh) as (q & -> & Hq & _).
  unfold sub, int. cbn [neg add]. apply whole_of_eq.
  rewrite Hq. unfold Z.sub. rewrite inject_Z_plus, inject_Z_opp.
  reflexivity.
Qed.

Lemma whole_succ (h : number) (i : Z) :
  whole (sub h (int 1)) = Some i -> whole h = Some (i + 1)%Z.
Proof.
  destruct h as [q| | |]; try discriminate.
  intros Hi. destruct (whole_fin _ i Hi) as (q' & Hq' & Hqi & _).
  unfold sub, int in Hq'. cbn [neg add] in Hq'. injection Hq' as <-.
  apply whole_of_eq. rewrite inject_Z_plus.
  unfold inject_Z in *. lra.
Qed.

Lemma years_up_to_whole (h : number) (py : Z) :
  whole h = Some py -> (1 <= py)%Z -> years_up_to h = py.
Proof.
  intros Hh Hpy. destruct (whole_fin h py Hh) as (q & -> & _ & Hfloor).
  unfold years_up_to. rewrite Hfloor. lia.
Qed.

Lemma below_array_limit (h : number) (py : Z) :
  whole h = Some py -> (py < 4294967296)%Z ->
  ge h (int 4294967296) = false.
Proof.
  intros Hh Hpy. destruct (whole_fin h py Hh) as (q & -> & Hq & _).
  unfold ge, int. apply le_fin_false. rewrite Hq.
  rewrite <- Zlt_Qlt. exact Hpy.
Qed.

(** The last row is there exactly for a whole horizon of at least a
    year. *)
Lemma final_year_whole (fcf0 g d : number) (h : number) (py : Z) :
  whole h = Some py -> (1 <= py)%Z ->
  index_at (project_loop fcf0 g d (Z.to_nat (years_up_to h)) 1)
    (sub h (int 1)) = Some (project_year fcf0 g d py).
Proof.
  intros Hh Hpy. unfold index_at.
  rewrite (whole_pred h py Hh), (years_up_to_whole h py Hh Hpy).
  unfold index. destruct (Z.ltb_spec (py - 1) 0) as [|_]; [lia|].
  destruct (nth_error (project_loop fcf0 g d (Z.to_nat py) 1)
              (Z.to_nat (py - 1))) as [final|] eqn:E.
  - apply project_loop_nth in E. subst final. do 2 f_equal. lia.
  - apply nth_error_None in E. rewrite project_loop_length in E. lia.
Qed.

Lemma final_year_inv (fcf0 g d : number) (h : number) (final : CashFlow) :
  index_at (project_loop fcf0 g d (Z.to_nat (years_up_to h)) 1)
    (sub h (int 1)) = Some final ->
  exists py : Z, whole h = Some py /\ (1 <= py)%Z.
Proof.
  unfold index_at.
  destruct (whole (sub h (int 1))) as [i|] eqn:Hi; [|discriminate].
  unfold index. destruct (Z.ltb_spec i 0) as [|Hge]; [discriminate|].
  intros _. exists (i + 1)%Z. split; [apply whole_succ; exact Hi|lia].
Qed.

(** The sum of the present values of the table is the sum that the
    scenarios accumulate. *)
Lemma fold_presentValue (fcf0 g d : number) (n : nat) :
  forall (y : Z) (acc : number),
    fold_left (fun sum cf => add sum (presentValue cf))
      (project_loop fcf0 g d n y) acc
    = sumPV_loop fcf0 g d n y acc.
Proof.
  induction n as [|n IH]; intros y acc; [reflexivity|].
  cbn [project_loop fold_left sumPV_loop]. rewrite IH. reflexivity.
Qed.

(** What [calculateDCF] returns, and that it returns only for a horizon
    that is a whole number of years, at least one and below 2^32. *)
Lemma calculateDCF_returns (inputs : DCFInputs) (o : DCFOutputs) :
  calculateDCF inputs = Return o ->
  exists py : Z,
    whole (horizon inputs) = Some py /\ (1 <= py < 4294967296)%Z /\
    let fcf0 := to_number (freeCashFlow inputs) in
    let t := or_default (DCF.terminalGrowthRate inputs) (int 3) in
    let d := calculateWACC (marketCap inputs) (DCF.discountRate inputs) in
    let g := estimateFCFGrowthRate (DCF.revenueGrowth inputs) t in
    let netDebt :=
      sub (to_number (totalDebt inputs)) (to_number (cash inputs)) in
    let tv :=
      div (mul (mul fcf0 (pow (growth_factor g) py)) (growth_factor t))
          (sub (div d (int 100)) (div t (int 100))) in
    let tvPV := div tv (pow (growth_factor d) py) in
    assumptions o =
      {| a_discountRate := d; a_terminalGrowthRate := t;
         a_projectionYears := py;
         a_initialFCF := freeCashFlow inputs; a_fcfGrowthRate := g |} /\
    projectedCashFlows o = project_loop fcf0 g d (Z.to_nat py) 1 /\
    terminalValue o = {| nominal := tv; tv_presentValue := tvPV |} /\
    enterpriseValue o =
      add (sumPV_loop fcf0 g d (Z.to_nat py) 1 (int 0)) tvPV /\
    equityValue o = sub (enterpriseValue o) netDebt /\
    intrinsicValue o = calcIntrinsicValue inputs py netDebt d g t /\
    sensitivity o = calculateSensitivity inputs d g t py netDebt.
Proof.
  unfold calculateDCF. fold (horizon inputs). cbv zeta.
  destruct (ge (horizon inputs) (int 4294967296)) eqn:Hlimit; [discriminate|].
  destruct (index_at _ _) as [final|] eqn:Hfinal; [|discriminate].
  intros [= <-].
  destruct (final_year_inv _ _ _ _ _ Hfinal) as (py & Hh & Hpy).
  rewrite (final_year_whole _ _ _ _ py Hh Hpy) in Hfinal.
  injection Hfinal as <-.
  rewrite (years_up_to_whole _ py Hh Hpy).
  exists py. split; [exact Hh|].
  split.
  { split; [exact Hpy|].
    destruct (whole_fin _ py Hh) as (q & Hq & Hqpy & _).
    rewrite Hq in Hlimit. unfold ge, int in Hlimit.
    apply le_fin_false in Hlimit. rewrite Hqpy in Hlimit.
    rewrite <- Zlt_Qlt in Hlimit. exact Hlimit. }
  cbn [assumptions projectedCashFlows terminalValue enterpriseValue
       equityValue intrinsicValue sensitivity project_year fcf].
  rewrite fold_presentValue.
  split_and!; reflexivity.
Qed.

(** For a whole horizon of at least a year, below 2^32, it does return. *)
Lemma calculateDCF_whole (inputs : DCFInputs) (py : Z) :
  whole (horizon inputs) = Some py -> (1 <= py < 4294967296)%Z ->
  exists o : DCFOutputs, calculateDCF inputs = Return o.
Proof.
  intros Hh [Hpy Hlimit]. unfold calculateDCF. fold (horizon inputs).
  cbv zeta.
  rewrite (below_array_limit _ py Hh Hlimit).
  rewrite (final_year_whole _ _ _ _ py Hh Hpy).
  eexists. reflexivity.
Qed.

Lemma calculateDCF_at (inputs : DCFInputs) (py : Z) :
  whole (horizon inputs) = Some py -> (1 <= py < 4294967296)%Z ->
  exists o : DCFOutputs,
    calculateDCF inputs = Return o /\
    let fcf0 := to_number (freeCashFlow inputs) in
    let t := or_default (DCF.terminalGrowthRate inputs) (int 3) in
    let d := calculateWACC (marketCap inputs) (DCF.discountRate inputs) in
    let g := estimateFCFGrowthRate (DCF.revenueGrowth inputs) t in
    let netDebt :=
      sub (to_number (totalDebt inputs)) (to_number (cash inputs)) in
    let tv :=
      div (mul (mul fcf0 (pow (growth_factor g) py)) (growth_factor t))
          (sub (div d (int 100)) (div t (int 100))) in
    let tvPV := div tv (pow (growth_factor d) py) in
    assumptions o =
      {| a_discountRate := d; a_terminalGrowthRate := t;
         a_projectionYears := py;
         a_initialFCF := freeCashFlow inputs; a_fcfGrowthRate := g |} /\
    projectedCashFlows o = project_loop fcf0 g d (Z.to_nat py) 1 /\
    terminalValue o = {| nominal := tv; tv_presentValue := tvPV |} /\
    enterpriseValue o =
      add (sumPV_loop fcf0 g d (Z.to_nat py) 1 (int 0)) tvPV /\
    equityValue o = sub (enterpriseValue o) netDebt /\
    intrinsicValue o = calcIntrinsicValue inputs py netDebt d g t /\
    sensitivity o = calculateSensitivity inputs d g t py netDebt.
Proof.
  intros Hh Hpy. destruct (calculateDCF_whole inputs py Hh Hpy) as (o & Ho).
  exists o. split; [exact Ho|].
  destruct (calculateDCF_returns inputs o Ho) as (py' & Hh' & _ & Hfields).
  assert (py' = py) by congruence. subst py'. exact Hfields.
Qed.

(** For any other horizon below 2^32 the last row is missing. *)
Lemma calculateDCF_throws (inputs : DCFInputs) :
  lt (horizon inputs) (int 4294967296) = true ->
  whole (horizon inputs) = None \/ lt (horizon inputs) (int 1) = true ->
  calculateDCF inputs = Throw undefined_fcf.
Proof.
  intros Hlimit Hbad. unfold calculateDCF. fold (horizon inputs). cbv zeta.
  assert (Hge : ge (horizon inputs) (int 4294967296) = false).
  { destruct (horizon inputs) as [q| | |]; try discriminate; try reflexivity.
    unfold ge, int in *. apply lt_fin in Hlimit. apply le_fin_false.
    exact Hlimit. }
  rewrite Hge.
  destruct (index_at _ _) as [final|] eqn:Hfinal; [|reflexivity].
  exfalso.
  destruct (final_year_inv _ _ _ _ _ Hfinal) as (py & Hh & Hpy).
  destruct Hbad as [Hnone|Hlt]; [congruence|].
  destruct (whole_fin _ py Hh) as (q & Hq & Hqpy & _).
  rewrite Hq in Hlt. unfold int in Hlt. apply lt_fin in Hlt.
  rewrite Hqpy in Hlt. rewrite <- Zlt_Qlt in Hlt. lia.
Qed.

(** The default growth rate is a finite rate between 0 and 25 when the
    terminal growth is. *)
Lemma estimateFCFGrowthRate_bounds (rg : option number) (t : Q) :
  rg <> Some NaN -> 0 <= t -> t <= 25 ->
  exists g : Q, estimateFCFGrowthRate rg (Fin t) = Fin g /\ 0 <= g <= 25.
Proof.
  intros Hrg Ht0 Ht1. unfold estimateFCFGrowthRate.
  destruct rg as [[q| | |]|].
  - unfold int. rewrite min_fin_eq.
    destruct (minQ_spec q (inject_Z 25)) as (_ & Hm & _).
    destruct (lt (Fin (minQ q (inject_Z 25))) (Fin (inject_Z 0))) eqn:E.
    + exists t. split; [reflexivity|lra].
    + apply lt_fin_false in E. unfold inject_Z in *.
      eexists. split; [reflexivity|]. lra.
  - exists (25 * (7 # 10) + t * (3 # 10)). split; [reflexivity|]. lra.
  - exists t. split; [reflexivity|lra].
  - congruence.
  - unfold int. cbn [add]. rewrite div_fin by (unfold inject_Z; lra).
    eexists. split; [reflexivity|].
    assert (Hmid : (t + inject_Z 8) / inject_Z 2 == (t + 8) * (1 # 2))
      by reflexivity.
    rewrite Hmid. lra.
Qed.

(** C2 (amended): when the free cash flow and the share count are
    numbers between 1 and 10^15, the debt and the cash are of magnitude at
    most 10^15, the revenue growth is not NaN, the horizon is a whole
    number of 1 to 100 years, the discount rate lies between 5 and 100 and
    the terminal growth rate between 2 and 4, [calculateDCF] returns, the
    three scenarios are bear, base and bull in this order, each is the
    intrinsic value at its own rates (bear: discount +2, growth -2 floored
    at 0, terminal -1 floored at 2; bull: discount -2 floored at 5, growth
    +2 capped at 25, terminal +1 capped at 4), and bull >= base >= bear. *)
Theorem sensitivity_scenarios_ordered
    (inputs : DCFInputs) (f sh debt c d t : Q) (py : Z) :
  to_number (freeCashFlow inputs) = Fin f -> moderate_amount f ->
  to_number (sharesOutstanding inputs) = Fin sh -> moderate_amount sh ->
  to_number (totalDebt inputs) = Fin debt -> moderate_balance debt ->
  to_number (cash inputs) = Fin c -> moderate_balance c ->
  DCF.revenueGrowth inputs <> Some NaN ->
  calculateWACC (marketCap inputs) (DCF.discountRate inputs) = Fin d ->
  or_default (DCF.terminalGrowthRate inputs) (int 3) = Fin t ->
  whole (horizon inputs) = Some py -> moderate_horizon py ->
  5 <= d <= 100 -> 2 <= t <= 4 ->
  exists (o : DCFOutputs) (g : Q),
    calculateDCF inputs = Return o /\
    a_fcfGrowthRate (assumptions o) = Fin g /\
    let value := ivQ f sh (debt - c) py in
    let vbear := value (d + 2) (maxQ (g - 2) 0) (maxQ (t - 1) 2) in
    let vbase := value d g t in
    let vbull := value (maxQ (d - 2) 5) (minQ (g + 2) 25) (minQ (t + 1) 4) in
    sensitivity o =
      [ {| scenario := bear; s_discountRate := Fin (d + 2);
           growthRate := Fin (maxQ (g - 2) 0);
           s_intrinsicValue := Fin vbear |};
        {| scenario := base; s_discountRate := Fin d;
           growthRate := Fin g;
           s_intrinsicValue := Fin vbase |};
        {| scenario := bull; s_discountRate := Fin (maxQ (d - 2) 5);
           growthRate := Fin (minQ (g + 2) 25);
           s_intrinsicValue := Fin vbull |} ] /\
    vbear <= vbase /\ vbase <= vbull.
Proof.
  intros Hf [Hf1 _] Hsh [Hsh1 _] Hdebt _ Hcash _ Hrg Hd Ht Hh [Hpy1 Hpy2]
    [Hd5 _] [Ht2 Ht4].
  destruct (estimateFCFGrowthRate_bounds (DCF.revenueGrowth inputs) t Hrg)
    as (g & Hg & Hg0 & Hg25); [lra|lra|].
  destruct (calculateDCF_at inputs py Hh ltac:(lia))
    as (o & Ho & Ha & _ & _ & _ & _ & _ & Hs).
  cbv zeta in Ha, Hs. rewrite Hd, Ht, Hg in Ha, Hs.
  rewrite Hdebt, Hcash in Hs.
  exists o, g.
  split; [exact Ho|].
  split; [rewrite Ha; reflexivity|].
  rewrite Hs. unfold calculateSensitivity, sub, int.
  cbn [neg add]. rewrite !max_fin, !min_fin_eq.
  destruct (maxQ_spec (g - 2) 0) as (Hgb1 & Hgb2 & Hgb3).
  destruct (maxQ_spec (t - 1) 2) as (Htb1 & Htb2 & Htb3).
  destruct (maxQ_spec (d - 2) 5) as (Hdb1 & Hdb2 & Hdb3).
  destruct (minQ_spec (g + 2) 25) as (HgB1 & HgB2 & HgB3).
  destruct (minQ_spec (t + 1) 4) as (HtB1 & HtB2 & HtB3).
  cbv zeta. unfold inject_Z, Qminus in *.
  rewrite !(calcIntrinsicValue_fin inputs f sh) by (try assumption; lra || lia).
  split; [reflexivity|].
  split.
  - apply ivQ_monotone; try assumption; lra || lia.
  - apply ivQ_monotone; try assumption; lra || lia.
Qed.

(** C2 as stated fails: with a discount rate of 3.5 (above the terminal
    growth of 3) and a free cash flow of 10e9, the floor of 5 on the bull
    discount rate puts the bull value below the base value. *)
Lemma sensitivity_bull_below_base :
  exists (o : DCFOutputs) (rbear rbase rbull : SensitivityRow),
    calculateDCF low_discount_inputs = Return o /\
    a_discountRate (assumptions o) = dec 35 10 /\
    a_terminalGrowthRate (assumptions o) = int 3 /\
    gt (a_discountRate (assumptions o))
       (a_terminalGrowthRate (assumptions o)) = true /\
    gt (to_number (freeCashFlow low_discount_inputs)) (int 0) = true /\
    sensitivity o = [rbear; rbase; rbull] /\
    scenario rbase = base /\ scenario rbull = bull /\
    s_discountRate rbull = int 5 /\
    lt (s_intrinsicValue rbull) (s_intrinsicValue rbase) = true /\
    ge (s_intrinsicValue rbull) (s_intrinsicValue rbase) = false.
Proof.
  do 4 eexists.
  split; [vm_compute; reflexivity|].
  split; [reflexivity|].
  split; [reflexivity|].
  split; [reflexivity|].
  split; [reflexivity|].
  split; [reflexivity|].
  split; [reflexivity|].
  split; [reflexivity|].
  split; [vm_compute; reflexivity|].
  split; vm_compute; reflexivity.
Qed.

(** The amended theorem on the scenario inputs. *)
Lemma sensitivity_scenarios_ordered_witness :
  exists (o : DCFOutputs) (g : Q),
    calculateDCF scenario_inputs = Return o /\
    a_fcfGrowthRate (assumptions o) = Fin g.
Proof.
  destruct (sensitivity_scenarios_ordered scenario_inputs
              10000000000 5000000000 20000000000 30000000000 9 3 5)
    as (o & g & Ho & Hg & _);
    try reflexivity; try discriminate; try (split; discriminate).
  exists o, g. split; assumption.
Defined.

(** *** No validation of the inputs *)

Lemma add_nan_r (x : number) : add x NaN = NaN.
Proof. destruct x; reflexivity. Qed.

Lemma div_nan_r (x : number) : div x NaN = NaN.
Proof. destruct x; reflexivity. Qed.

(** Without a free cash flow, or without a share count, a scenario value
    is NaN. *)
Lemma calcIntrinsicValue_absent (inputs : DCFInputs) (py : Z)
    (nd d g t : number) :
  freeCashFlow inputs = Undefined \/ sharesOutstanding inputs = Undefined ->
  calcIntrinsicValue inputs py nd d g t = NaN.
Proof.
  unfold calcIntrinsicValue. intros [-> | ->]; cbn [to_number].
  - cbn [mul div]. rewrite add_nan_r. reflexivity.
  - apply div_nan_r.
Qed.

(** The calculator reads the required properties through their
    conversion to a number only, apart from the copy of the free cash flow
    among the assumptions. *)
Lemma calculateDCF_as_read (inputs : DCFInputs) (o : DCFOutputs) :
  calculateDCF inputs = Return o ->
  exists o0 : DCFOutputs,
    calculateDCF (as_read inputs) = Return o0 /\
    intrinsicValue o = intrinsicValue o0 /\
    enterpriseValue o = enterpriseValue o0 /\
    equityValue o = equityValue o0 /\
    projectedCashFlows o = projectedCashFlows o0 /\
    terminalValue o = terminalValue o0 /\
    sensitivity o = sensitivity o0.
Proof.
  intros Ho.
  destruct (calculateDCF_returns inputs o Ho)
    as (py & Hh & Hpy & Ha & Hrows & Htv & Hev & Heq & Hiv & Hs).
  destruct (calculateDCF_at (as_read inputs) py Hh Hpy)
    as (o0 & Ho0 & Ha0 & Hrows0 & Htv0 & Hev0 & Heq0 & Hiv0 & Hs0).
  exists o0. split; [exact Ho0|].
  cbv zeta in *.
  rewrite Hiv, Hiv0, Heq, Heq0, Hev, Hev0, Hrows, Hrows0, Htv, Htv0, Hs, Hs0.
  split_and!; reflexivity.
Qed.

(** C1 as stated fails: with a discount rate of 2 below the terminal growth
    of 3, [calculateDCF] returns an ordinary result with a negative
    terminal value and a negative, finite intrinsic value, and the base
    scenario, whose denominator is negative, is reported with that value
    like any other; without a free cash flow it returns as well, with NaN
    as the intrinsic value, and with [null] for the free cash flow it
    returns the finite value of a cash flow of zero. *)
Lemma calculateDCF_accepts_inverted_rates :
  (exists (o : DCFOutputs) (rbear rbase rbull : SensitivityRow),
     calculateDCF inverted_rates_inputs = Return o /\
     le (a_discountRate (assumptions o))
        (a_terminalGrowthRate (assumptions o)) = true /\
     lt (nominal (terminalValue o)) (int 0) = true /\
     is_finite (intrinsicValue o) = true /\
     sensitivity o = [rbear; rbase; rbull] /\
     scenario rbase = base /\
     s_discountRate rbase = int 2 /\
     is_finite (s_intrinsicValue rbase) = true /\
     lt (s_intrinsicValue rbase) (int 0) = true) /\
  (exists o : DCFOutputs,
     calculateDCF absent_fcf_inputs = Return o /\
     intrinsicValue o = NaN) /\
  (exists o : DCFOutputs,
     calculateDCF null_fcf_inputs = Return o /\
     same (intrinsicValue o) (int 2)).
Proof.
  split; [|split].
  - do 4 eexists.
    split; [vm_compute; reflexivity|].
    repeat split; vm_compute; reflexivity.
  - eexists. split; [vm_compute; reflexivity|]. reflexivity.
  - eexists. split; [vm_compute; reflexivity|]. reflexivity.
Qed.

(** C1 (amended): [calculateDCF] validates nothing; what it rejects is
    decided by the horizon alone.  For a horizon of at most a million
    years, it throws, on reading the last projected year, exactly when the
    horizon is not a whole number of at least one year; otherwise it
    returns a result with the scenarios bear, base and bull.  When the
    free cash flow or the share count is [undefined] the intrinsic value
    and every scenario value are NaN; a [null] is read as 0, the result
    being that of the inputs with 0 in its place.  On moderate magnitudes,
    when the discount rate equals the terminal growth rate the nominal
    terminal value is +Infinity, and when it is lower by a hundredth of a
    point or more the terminal value is a negative number: nothing is
    flagged. *)
Theorem calculateDCF_validates_nothing (inputs : DCFInputs) :
  le (horizon inputs) (int 1000000) = true ->
  (whole (horizon inputs) = None \/ lt (horizon inputs) (int 1) = true ->
   calculateDCF inputs = Throw undefined_fcf) /\
  (forall py : Z, whole (horizon inputs) = Some py -> (1 <= py)%Z ->
   exists o : DCFOutputs,
     calculateDCF inputs = Return o /\
     a_projectionYears (assumptions o) = py /\
     map scenario (sensitivity o) = [bear; base; bull] /\
     (freeCashFlow inputs = Undefined \/
      sharesOutstanding inputs = Undefined ->
      intrinsicValue o = NaN /\
      map s_intrinsicValue (sensitivity o) = [NaN; NaN; NaN]) /\
     (exists o0 : DCFOutputs,
        calculateDCF (as_read inputs) = Return o0 /\
        intrinsicValue o = intrinsicValue o0 /\
        enterpriseValue o = enterpriseValue o0 /\
        equityValue o = equityValue o0 /\
        projectedCashFlows o = projectedCashFlows o0 /\
        terminalValue o = terminalValue o0 /\
        sensitivity o = sensitivity o0) /\
     (forall f d g t : Q,
        to_number (freeCashFlow inputs) = Fin f -> moderate_amount f ->
        moderate_horizon py ->
        a_discountRate (assumptions o) = Fin d ->
        a_fcfGrowthRate (assumptions o) = Fin g -> moderate_rate g ->
        a_terminalGrowthRate (assumptions o) = Fin t -> moderate_rate t ->
        (d == t -> nominal (terminalValue o) = PInf) /\
        (d + (1 # 100) <= t -> moderate_rate d ->
         exists tv : Q, nominal (terminalValue o) = Fin tv /\ tv < 0))).
Proof.
  intros Hmillion.
  assert (Hlimit : lt (horizon inputs) (int 4294967296) = true).
  { destruct (horizon inputs) as [q| | |]; try discriminate; try reflexivity.
    unfold int in *. apply le_fin in Hmillion. apply lt_fin.
    unfold inject_Z in *. lra. }
  split; [apply calculateDCF_throws; exact Hlimit|].
  intros py Hh Hpy.
  assert (Hpy' : (py < 4294967296)%Z).
  { destruct (whole_fin _ py Hh) as (q & Hq & Hqpy & _).
    rewrite Hq in Hlimit. unfold int in Hlimit. apply lt_fin in Hlimit.
    rewrite Hqpy in Hlimit. rewrite <- Zlt_Qlt in Hlimit. exact Hlimit. }
  destruct (calculateDCF_at inputs py Hh ltac:(lia))
    as (o & Ho & Ha & Hrows & Htv & Hev & Heq & Hiv & Hs).
  cbv zeta in *.
  exists o. split; [exact Ho|].
  split; [rewrite Ha; reflexivity|].
  split; [rewrite Hs; reflexivity|].
  split.
  { intros Habsent. rewrite Hiv, Hs.
    unfold calculateSensitivity. cbn [map s_intrinsicValue].
    rewrite !calcIntrinsicValue_absent by exact Habsent.
    split; reflexivity. }
  split; [apply calculateDCF_as_read; exact Ho|].
  intros f d g t Hf [Hf1 _] [_ Hpy100] Hd Hg [Hg1 Hg2] Ht [Ht1 Ht2].
  rewrite Ha in Hd, Hg, Ht.
  cbn [a_discountRate a_fcfGrowthRate a_terminalGrowthRate] in Hd, Hg, Ht.
  rewrite Htv. cbn [nominal]. rewrite Hf, Hd, Hg, Ht.
  rewrite !growth_factor_fin, pow_fin by lia.
  cbn [mul]. unfold int.
  rewrite (div_fin d), (div_fin t) by (unfold inject_Z; lra).
  unfold sub. cbn [neg add].
  assert (Hnum : 0 < f * gfQ g ^ py * gfQ t).
  { pose proof (Qpower_0_lt (gfQ g) py (gfQ_pos g ltac:(lra))).
    pose proof (gfQ_pos t ltac:(lra)).
    apply Qmult_lt_0_compat; [|assumption].
    apply Qmult_lt_0_compat; [lra|assumption]. }
  split.
  - intros Heq'. unfold div.
    replace (Qeq_bool (d / inject_Z 100 + - (t / inject_Z 100)) 0)
      with true.
    2:{ symmetry. apply Qeq_bool_iff. rewrite !percent_eq. lra. }
    apply Qgt_alt in Hnum. rewrite Hnum. reflexivity.
  - intros Hlt _.
    assert (Hden : d / inject_Z 100 + - (t / inject_Z 100) < 0)
      by (rewrite !percent_eq; lra).
    rewrite div_fin by lra.
    eexists. split; [reflexivity|].
    set (num := f * gfQ g ^ py * gfQ t) in *.
    set (den := d / inject_Z 100 + - (t / inject_Z 100)) in *.
    assert (Hdiv : num / den * den == num) by (field; lra).
    nra.
Qed.

(** The amended theorem on the inputs with the inverted rates, which are
    accepted, and on a horizon of two and a half years, which is not. *)
Lemma calculateDCF_validates_nothing_witness :
  (exists o : DCFOutputs,
     calculateDCF inverted_rates_inputs = Return o /\
     map scenario (sensitivity o) = [bear; base; bull]) /\
  calculateDCF fractional_horizon_inputs = Throw undefined_fcf.
Proof.
  split.
  - destruct (proj2 (calculateDCF_validates_nothing inverted_rates_inputs
                       ltac:(reflexivity)) 5%Z)
      as (o & Ho & _ & Hs & _).
    + reflexivity.
    + lia.
    + exists o. split; assumption.
  - apply (proj1 (calculateDCF_validates_nothing fractional_horizon_inputs
                    ltac:(reflexivity))).
    left. reflexivity.
Defined.

(* ====================================================================== *)
(** ** Properties of the schema *)
(* ====================================================================== *)

(** C9: the script creates exactly the tables portfolios, holdings,
    transactions, snapshots and stock_scores; holdings is unique on
    (portfolio_id, ticker); the action of a transaction is checked to be
    'BUY' or 'SELL'; snapshots has the single column holdings_data for the
    serialized holdings; and the three percentage columns of portfolios
    default to 0.10, 0.02 and 0.25, decimals between 0 and 1. *)
Theorem schema_tables_and_constraints :
  map table_name (tables SCHEMA_SQL) =
    ["portfolios"; "holdings"; "transactions"; "snapshots"; "stock_scores"]%string /\
  In ["UNIQUE(portfolio_id,"; "ticker)"]%string
     (definitions_of SCHEMA_SQL "holdings") /\
  column_definitions SCHEMA_SQL "transactions" "action" =
    [["action"; "TEXT"; "NOT"; "NULL"; "CHECK"; "(action"; "IN"; "('BUY',";
      "'SELL'))"]%string] /\
  column_definitions SCHEMA_SQL "snapshots" "holdings_data" =
    [["holdings_data"; "TEXT"; "NOT"; "NULL"]%string] /\
  map (column_default SCHEMA_SQL "portfolios") percentage_columns =
    [Some (10 # 100); Some (2 # 100); Some (25 # 100)] /\
  (forall c : string, In c percentage_columns ->
     exists q : Q,
       column_default SCHEMA_SQL "portfolios" c = Some q /\ 0 <= q <= 1).
Proof.
  split; [vm_compute; reflexivity|].
  split; [vm_compute; tauto|].
  split; [vm_compute; reflexivity|].
  split; [vm_compute; reflexivity|].
  split; [vm_compute; reflexivity|].
  intros c Hc. unfold percentage_columns in Hc. simpl in Hc.
  destruct Hc as [<-|[<-|[<-|[]]]].
  - exists (10 # 100). split; [vm_compute; reflexivity|]. lra.
  - exists (2 # 100). split; [vm_compute; reflexivity|]. lra.
  - exists (25 # 100). split; [vm_compute; reflexivity|]. lra.
Qed.

(** The default of max_sector_pct, 0.25, is a decimal between 0 and 1. *)
Lemma schema_tables_and_constraints_witness :
  exists q : Q,
    column_default SCHEMA_SQL "portfolios" "max_sector_pct" = Some q /\
    0 <= q <= 1.
Proof.
  destruct schema_tables_and_constraints as (_ & _ & _ & _ & _ & Hpct).
  apply Hpct. unfold percentage_columns.
  right. right. left. reflexivity.
Defined.

(* ====================================================================== *)
(** ** Properties of the rate limiter *)
(* ====================================================================== *)

Local Open Scope Z_scope.

Section LimiterProperties.

Context {T R W : Type} `{Countable T}.

Variable config : RateLimiterConfig.

Variable fn : T -> @RateLimiter.fetch R W.

Local Abbreviation state := (@RateLimiter.state T R W).
Local Abbreviation event := (@RateLimiter.event T R).
Local Abbreviation fetch := (@RateLimiter.fetch R W).

Lemma throttle_spec (s : state) :
  exists (waits : list event) (s' : state),
    throttle config s = (Return tt, s') /\
    log s' = log s ++ waits /\
    List.filter outside_throttle waits = [] /\
    requestCount s' = requestCount s /\
    errorCount s' = errorCount s /\
    world s' = world s /\
    clock s' =
      clock s + Z.max 0 (minDelayMs config - (clock s - lastRequestTime s)) /\
    lastRequestTime s' = clock s'.
Proof.
  unfold throttle, bind, gets, modify, sleep, ret. cbn.
  destruct (Z.ltb_spec (clock s - lastRequestTime s) (minDelayMs config)).
  - eexists [_], _. cbn. repeat split; try reflexivity. 
  - eexists [], _. cbn. rewrite app_nil_r.
    repeat split; try reflexivity. simpl. lia.
Qed.

Lemma retried_cons (o : completion R) (outcomes : list (completion R)) :
  failed o -> retried outcomes -> retried (o :: outcomes).
Proof. intros Ho Hr. destruct outcomes; cbn; auto. Qed.

Lemma settles_cons (fallback e : thrown) (outcomes : list (completion R))
    (r : completion R) :
  settles (toError e) outcomes r -> settles fallback (Throw e :: outcomes) r.
Proof.
  unfold settles. destruct outcomes as [|o rest].
  - intros Hs. exact Hs.
  - rewrite last_cons_cons.
    destruct (last (o :: rest)) as [[v|e0]|] eqn:E; auto.
    apply last_None in E. discriminate.
Qed.

(** The loop of [execute] when [n] attempts remain from [attempt] on. *)
Lemma execute_loop_spec (request : fetch) (n : nat) :
  forall (attempt : Z) (lastError : option thrown) (s : state),
    n = Z.to_nat (maxRetries config + 1 - attempt) ->
    exists (trace : list event) (outcomes : list (completion R))
           (r : completion R) (s' : state),
      execute_loop config request n attempt lastError s = (r, s') /\
      log s' = log s ++ trace /\
      List.filter outside_throttle trace = retry_trace config attempt outcomes /\
      (length outcomes <= n)%nat /\
      (n <> O -> outcomes <> []) /\
      retried outcomes /\
      settles (default all_retries_failed lastError) outcomes r /\
      (failed r -> length outcomes = n) /\
      requestCount s' = requestCount s + Z.of_nat (length outcomes) /\
      errorCount s' = errorCount s + failures outcomes.
Proof.
  induction n as [|n IH]; intros attempt lastError s Hn.
  - exists [], []. eexists _, _. split; [reflexivity|].
    unfold raise, settles, failures. cbn. rewrite app_nil_r.
    split_and!; try reflexivity; try lia; try congruence.
  - cbn [execute_loop]. unfold bind at 1 2.
    destruct (throttle_spec s)
      as (waits & s1 & Hth & Hlog1 & Hw & Hrc & Hec & Hwd & _).
    rewrite Hth. unfold modify at 1. unfold await.
    destruct (request (world (incr_requestCount s1)))
      as [[outcome elapsed] w] eqn:Hfn.
    destruct outcome as [result|error].
    + exists (waits ++ [Called (Return result)]), [Return result].
      eexists _, _. split; [reflexivity|].
      unfold settles, failures. cbn. rewrite Hlog1, <- app_assoc.
      rewrite List.filter_app, Hw. cbn.
      split_and!; try reflexivity; try lia; try congruence.
    + unfold bind at 1. unfold modify at 1.
      set (s3 := incr_errorCount _).
      assert (Hlog3 : log s3 = log s ++ waits ++ [Called (Throw error)]).
      { subst s3. cbn. rewrite Hlog1, <- app_assoc. reflexivity. }
      assert (Hrc3 : requestCount s3 = requestCount s + 1).
      { subst s3. cbn. lia. }
      assert (Hec3 : errorCount s3 = errorCount s + 1).
      { subst s3. cbn. lia. }
      clearbody s3.
      destruct (Z.ltb_spec attempt (maxRetries config)) as [Hlt|Hge].
      * (* a retry follows, after the backoff, whatever the error is *)
        assert (Hsame :
          (if (isRateLimitError error && true)%bool
           then bind (sleep InBackoff (getBackoffDelay config attempt))
                  (fun _ => execute_loop config request n (attempt + 1)
                              (Some (toError error)))
           else bind (sleep InBackoff (getBackoffDelay config attempt))
                  (fun _ => execute_loop config request n (attempt + 1)
                              (Some (toError error)))) s3
          = execute_loop config request n (attempt + 1) (Some (toError error))
              (advance (getBackoffDelay config attempt)
                 (emit (Slept InBackoff (getBackoffDelay config attempt)) s3))).
        { destruct (isRateLimitError error); reflexivity. }
        rewrite Hsame. clear Hsame.
        set (s4 := advance _ _).
        assert (Hlog4 : log s4 =
          log s3 ++ [Slept InBackoff (getBackoffDelay config attempt)])
          by reflexivity.
        assert (Hrc4 : requestCount s4 = requestCount s3) by reflexivity.
        assert (Hec4 : errorCount s4 = errorCount s3) by reflexivity.
        clearbody s4.
        specialize (IH (attempt + 1) (Some (toError error)) s4 ltac:(lia)).
        destruct IH as (trace' & outcomes' & r & s' & Hrun & IH).
        exists (waits ++ [Called (Throw error)]
                  ++ [Slept InBackoff (getBackoffDelay config attempt)]
                  ++ trace'),
               (Throw error :: outcomes'), r, s'.
        split; [exact Hrun|].
        destruct IH
          as (Hlog & Hfil & Hlen & Hne & Hret & Hset & Hfail & Hrq & Herr).
        assert (Hnz : n <> O) by lia.
        specialize (Hne Hnz).
        split.
        { rewrite Hlog, Hlog4, Hlog3.
          rewrite <- !app_assoc. reflexivity. }
        split.
        { rewrite List.filter_app, Hw. cbn. rewrite Hfil.
          destruct outcomes'; [congruence|reflexivity]. }
        split; [cbn; lia|].
        split; [congruence|].
        split; [apply retried_cons; [exact I|exact Hret]|].
        split; [apply settles_cons; exact Hset|].
        split; [intros Hf; cbn; rewrite (Hfail Hf); reflexivity|].
        split.
        { rewrite Hrq, Hrc4, Hrc3. cbn [length].
          rewrite Nat2Z.inj_succ. lia. }
        { rewrite Herr, Hec4, Hec3.
          unfold failures. cbn. lia. }
      * (* the last attempt: the loop ends and the error is thrown *)
        assert (Hn0 : n = O) by lia. subst n.
        rewrite andb_false_r. cbn [execute_loop raise].
        exists (waits ++ [Called (Throw error)]), [Throw error].
        eexists _, _. split; [reflexivity|].
        split; [exact Hlog3|].
        split; [rewrite List.filter_app, Hw; reflexivity|].
        split; [cbn; lia|].
        split; [congruence|].
        split; [exact I|].
        split; [reflexivity|].
        split; [reflexivity|].
        split; [rewrite Hrc3; cbn; lia|].
        rewrite Hec3. unfold failures. cbn. lia.
Qed.


(** *** Batches *)

Lemma covers_insert (done : list T) (results : gmap T (R + thrown))
    (item : T) (s0 : state) :
  covers config fn done results ->
  covers config fn (done ++ [item])
    (<[item := entry_of (execute config (fn item) s0).1]> results).
Proof.
  intros [Hdom Hent]. split.
  - intros item'. rewrite elem_of_app, list_elem_of_singleton, Hdom.
    destruct (decide (item = item')) as [->|Hne].
    + rewrite lookup_insert_eq. split; [eauto|]. intros _. right. reflexivity.
    + rewrite lookup_insert_ne by exact Hne. split.
      * intros [Hin | ->]; [exact Hin|congruence].
      * intros Hin. left. exact Hin.
  - intros item' entry.
    destruct (decide (item = item')) as [->|Hne].
    + rewrite lookup_insert_eq. intros [= <-]. exists s0. reflexivity.
    + rewrite lookup_insert_ne by exact Hne. apply Hent.
Qed.

(** With [continueOnError] left alone or true, the body of the loop over
    the items stores the item's entry and goes on. *)
Lemma process_item_spec (options : BatchOptions) (total : Z)
    (results : gmap T (R + thrown)) (completed : Z) (item : T) (s : state) :
  continueOnError options <> Some false ->
  exists s' : state,
    process_item config fn options total (results, completed) item s =
      (Return (<[item := entry_of (execute config (fn item) s).1]> results,
               completed + 1), s') /\
    clock s' = clock (execute config (fn item) s).2 /\
    lastRequestTime s' = lastRequestTime (execute config (fn item) s).2.
Proof.
  intros Hcont.
  assert (Hkeep : negb (default true (continueOnError options)) = false).
  { destruct (continueOnError options) as [[|]|]; [reflexivity|congruence|reflexivity]. }
  unfold process_item, try_catch, bind. rewrite Hkeep.
  destruct (execute config (fn item) s) as [[v|e] s1]; cbn [fst snd entry_of].
  - unfold ret. destruct (onProgress options); cbn;
      eexists; split_and!; reflexivity.
  - destruct (onError options), (onProgress options); cbn;
      eexists; split_and!; reflexivity.
Qed.

Lemma process_batch_spec (options : BatchOptions) (total : Z)
    (batch : list T) :
  continueOnError options <> Some false ->
  forall (done : list T) (results : gmap T (R + thrown)) (completed : Z)
         (s : state),
    covers config fn done results ->
    exists (results' : gmap T (R + thrown)) (s' : state),
      process_batch config fn options total (results, completed) batch s =
        (Return (results', completed + Z.of_nat (length batch)), s') /\
      covers config fn (done ++ batch) results'.
Proof.
  intros Hcont. induction batch as [|item rest IH];
    intros done results completed s Hcov.
  - exists results, s. cbn. rewrite Z.add_0_r, app_nil_r. auto.
  - cbn [process_batch]. unfold bind.
    destruct (process_item_spec options total results completed item s Hcont)
      as (s1 & -> & _).
    destruct (IH (done ++ [item]) _ (completed + 1) s1
                (covers_insert done results item s Hcov))
      as (results' & s' & -> & Hcov').
    exists results', s'. split.
    + do 2 f_equal. f_equal. cbn [length]. lia.
    + rewrite <- app_assoc in Hcov'. exact Hcov'.
Qed.

Lemma process_batches_spec (options : BatchOptions) (total : Z)
    (batches : list (list T)) :
  continueOnError options <> Some false ->
  forall (done : list T) (results : gmap T (R + thrown)) (completed : Z)
         (s : state),
    covers config fn done results ->
    exists (results' : gmap T (R + thrown)) (completed' : Z) (s' : state),
      process_batches config fn options total (results, completed) batches s =
        (Return (results', completed'), s') /\
      covers config fn (done ++ concat batches) results'.
Proof.
  intros Hcont. induction batches as [|batch rest IH];
    intros done results completed s Hcov.
  - exists results, completed, s. cbn. rewrite app_nil_r. auto.
  - cbn [process_batches]. unfold bind at 1.
    destruct (process_batch_spec options total batch Hcont done results
                completed s Hcov) as (results1 & s1 & -> & Hcov1).
    unfold bind.
    set (pause := match rest with
                  | [] => ret tt
                  | _ :: _ => sleep BetweenBatches (interBatchDelayMs config)
                  end).
    assert (Hpause : exists s2, pause s1 = (Return tt, s2)).
    { subst pause. destruct rest; eexists; reflexivity. }
    destruct Hpause as (s2 & ->).
    destruct (IH (done ++ batch) results1
                (completed + Z.of_nat (length batch)) s2 Hcov1)
      as (results' & completed' & s' & -> & Hcov').
    exists results', completed', s'. split; [reflexivity|].
    cbn [concat]. rewrite app_assoc. exact Hcov'.
Qed.

(** A positive batch size splits the items from index [i] on, within as
    many iterations as there are items left. *)
Lemma split_batches_spec (items : list T) :
  0 < batchSize config ->
  forall (fuel : nat) (i : Z),
    0 <= i -> Z.of_nat (length items) - i <= Z.of_nat fuel ->
    exists batches : list (list T),
      split_batches config items fuel i = Some batches /\
      concat batches = drop (Z.to_nat i) items.
Proof.
  intros Hbs. induction fuel as [|fuel IH]; intros i Hi Hfuel.
  - cbn [split_batches].
    destruct (Z.ltb_spec i (Z.of_nat (length items))); [lia|].
    exists []. split; [reflexivity|].
    cbn [concat]. symmetry. apply drop_ge. lia.
  - cbn [split_batches].
    destruct (Z.ltb_spec i (Z.of_nat (length items))) as [Hlt|Hge].
    + destruct (IH (i + batchSize config)) as (rest & -> & Hrest); [lia|lia|].
      eexists. split; [reflexivity|].
      cbn [concat]. rewrite Hrest. unfold slice.
      destruct (Z.ltb_spec i 0); [lia|].
      destruct (Z.ltb_spec (i + batchSize config) 0); [lia|].
      rewrite (Z.min_l i) by lia.
      destruct (Z.le_gt_cases (i + batchSize config) (Z.of_nat (length items)))
        as [Hin|Hout].
      * rewrite Z.min_l by lia.
        replace (Z.to_nat (i + batchSize config))
          with (Z.to_nat i + Z.to_nat (i + batchSize config - i))%nat by lia.
        rewrite <- drop_drop. apply take_drop.
      * rewrite Z.min_r by lia.
        rewrite (drop_ge items (Z.to_nat (i + batchSize config))) by lia.
        rewrite app_nil_r. apply take_ge. rewrite length_drop. lia.
    + exists []. split; [reflexivity|].
      cbn [concat]. symmetry. apply drop_ge. lia.
Qed.

(** The loops over the batches are the run of the schedule. *)
Lemma run_steps_app (options : BatchOptions) (total : Z)
    (a b : list (option T)) :
  forall (acc : gmap T (R + thrown) * Z) (s : state),
    run_steps config fn options total acc (a ++ b) s =
      match run_steps config fn options total acc a s with
      | (Return acc', s') => run_steps config fn options total acc' b s'
      | (Throw e, s') => (Throw e, s')
      end.
Proof.
  induction a as [|[item|] a IH]; intros acc s.
  - reflexivity.
  - cbn [app run_steps]. unfold bind.
    destruct (process_item config fn options total acc item s)
      as [[acc1|e] s1]; [apply IH|reflexivity].
  - cbn [app run_steps]. unfold bind.
    destruct (sleep BetweenBatches (interBatchDelayMs config) s)
      as [[[]|e] s1]; [apply IH|reflexivity].
Qed.

Lemma process_batch_steps (options : BatchOptions) (total : Z)
    (batch : list T) :
  forall (acc : gmap T (R + thrown) * Z) (s : state),
    process_batch config fn options total acc batch s =
      run_steps config fn options total acc (Some <$> batch) s.
Proof.
  induction batch as [|item rest IH]; intros acc s; [reflexivity|].
  cbn [process_batch fmap list_fmap run_steps]. unfold bind.
  destruct (process_item config fn options total acc item s)
    as [[acc1|e] s1]; [apply IH|reflexivity].
Qed.

Lemma process_batches_schedule (options : BatchOptions) (total : Z)
    (batches : list (list T)) :
  forall (acc : gmap T (R + thrown) * Z) (s : state),
    process_batches config fn options total acc batches s =
      run_steps config fn options total acc (schedule batches) s.
Proof.
  induction batches as [|batch rest IH]; intros acc s; [reflexivity|].
  cbn [process_batches schedule]. rewrite run_steps_app.
  unfold bind at 1. rewrite process_batch_steps.
  destruct (run_steps config fn options total acc (Some <$> batch) s)
    as [[acc1|e] s1]; [|reflexivity].
  destruct rest as [|batch' rest].
  - reflexivity.
  - cbn [run_steps]. unfold bind.
    destruct (sleep BetweenBatches (interBatchDelayMs config) s1)
      as [[[]|e] s2]; [apply IH|reflexivity].
Qed.

Lemma schedule_items (batches : list (list T)) (item : T) :
  Some item ∈ schedule batches <-> item ∈ concat batches.
Proof.
  induction batches as [|batch rest IH].
  - cbn. rewrite !elem_of_nil. tauto.
  - cbn [schedule concat]. rewrite !elem_of_app, <- IH.
    rewrite list_elem_of_fmap.
    destruct rest as [|batch' rest].
    + cbn. rewrite !elem_of_nil. split.
      * intros [(x & [= <-] & Hx)|[]]. left. exact Hx.
      * intros [Hx|[]]. left. exists item. split; [reflexivity|exact Hx].
    + rewrite elem_of_cons. split.
      * intros [(x & [= <-] & Hx)|[Hn|Hin]];
          [left; exact Hx|discriminate|right; exact Hin].
      * intros [Hx|Hin]; [left; exists item; split; [reflexivity|exact Hx]
                         |right; right; exact Hin].
Qed.

(** The body of the loop when the item's [execute] returns, and when it
    throws while [continueOnError] is false. *)
Lemma process_item_return (options : BatchOptions) (total : Z)
    (results : gmap T (R + thrown)) (completed : Z) (item : T)
    (s s1 : state) (v : R) :
  execute config (fn item) s = (Return v, s1) ->
  process_item config fn options total (results, completed) item s =
    (Return (<[item := inl v]> results, completed + 1),
     if onProgress options
     then emit (ProgressReported (completed + 1) total) s1 else s1).
Proof.
  intros Hrun. unfold process_item, try_catch, bind. rewrite Hrun.
  unfold ret. destruct (onProgress options); reflexivity.
Qed.

Lemma process_item_stop (options : BatchOptions) (total : Z)
    (results : gmap T (R + thrown)) (completed : Z) (item : T)
    (s s2 : state) (e : thrown) :
  continueOnError options = Some false ->
  execute config (fn item) s = (Throw e, s2) ->
  process_item config fn options total (results, completed) item s =
    (Throw (toError e),
     if onError options
     then emit (ErrorReported item (toError e)) s2 else s2).
Proof.
  intros Hstop Hrun. unfold process_item, try_catch, bind.
  rewrite Hrun, Hstop. cbn [default negb].
  destruct (onError options); reflexivity.
Qed.

(** With [continueOnError] left alone or true the run of any steps
    returns; it leaves the entries of the other items alone, and the entry
    of an item is how its [execute] ended in the state in which the run
    reached its last occurrence. *)
Lemma run_steps_continue (options : BatchOptions) (total : Z)
    (steps : list (option T)) :
  continueOnError options <> Some false ->
  forall (acc : gmap T (R + thrown) * Z) (s : state),
    exists (acc' : gmap T (R + thrown) * Z) (s' : state),
      run_steps config fn options total acc steps s = (Return acc', s') /\
      (forall item, Some item ∉ steps -> acc'.1 !! item = acc.1 !! item) /\
      (forall before item after,
         steps = before ++ Some item :: after ->
         exists (acc1 : gmap T (R + thrown) * Z) (s1 : state),
           run_steps config fn options total acc before s
             = (Return acc1, s1) /\
           (Some item ∉ after ->
            acc'.1 !! item =
              Some (entry_of (execute config (fn item) s1).1))).
Proof.
  intros Hcont. induction steps as [|[x|] rest IH]; intros acc s.
  - exists acc, s. split; [reflexivity|]. split; [reflexivity|].
    intros before item after Hsplit.
    destruct before; discriminate.
  - destruct acc as [results completed].
    destruct (process_item_spec options total results completed x s Hcont)
      as (s1 & Hitem & _).
    destruct (IH (<[x := entry_of (execute config (fn x) s).1]> results,
                  completed + 1) s1)
      as (acc' & s' & Hrun & Hother & Hentry).
    exists acc', s'. split.
    { cbn [run_steps]. unfold bind. rewrite Hitem. exact Hrun. }
    split.
    { intros item Hnot. rewrite Hother.
      - cbn [fst]. apply lookup_insert_ne. intros ->.
        apply Hnot. apply list_elem_of_here.
      - intros Hin. apply Hnot. apply list_elem_of_further. exact Hin. }
    intros before item after Hsplit.
    destruct before as [|step before].
    + cbn [app] in Hsplit. injection Hsplit as <- <-.
      exists (results, completed), s. split; [reflexivity|].
      intros Hlast. rewrite (Hother x Hlast). cbn [fst].
      apply lookup_insert_eq.
    + cbn [app] in Hsplit. injection Hsplit as <- ->.
      destruct (Hentry before item after eq_refl) as (acc1 & s1' & Hb & He).
      exists acc1, s1'. split; [|exact He].
      cbn [run_steps]. unfold bind. rewrite Hitem. exact Hb.
  - destruct (IH acc (advance (interBatchDelayMs config)
                        (emit (Slept BetweenBatches
                                 (interBatchDelayMs config)) s)))
      as (acc' & s' & Hrun & Hother & Hentry).
    exists acc', s'. split; [exact Hrun|].
    split.
    { intros item Hnot. apply Hother.
      intros Hin. apply Hnot. apply list_elem_of_further. exact Hin. }
    intros before item after Hsplit.
    destruct before as [|step before]; [discriminate|].
    cbn [app] in Hsplit. injection Hsplit as <- ->.
    destruct (Hentry before item after eq_refl) as (acc1 & s1' & Hb & He).
    exists acc1, s1'. split; [exact Hb|exact He].
Qed.

(** Whatever the options, the run of the steps returns, or there is a
    first item whose [execute] throws. *)
Lemma run_steps_cases (options : BatchOptions) (total : Z)
    (steps : list (option T)) :
  forall (acc : gmap T (R + thrown) * Z) (s : state),
    (exists (acc' : gmap T (R + thrown) * Z) (s' : state),
       run_steps config fn options total acc steps s = (Return acc', s')) \/
    (exists before item after (acc1 : gmap T (R + thrown) * Z)
            (s1 s2 : state) (e : thrown),
       steps = before ++ Some item :: after /\
       run_steps config fn options total acc before s = (Return acc1, s1) /\
       execute config (fn item) s1 = (Throw e, s2)).
Proof.
  induction steps as [|[x|] rest IH]; intros acc s.
  - left. exists acc, s. reflexivity.
  - destruct (execute config (fn x) s) as [[v|e] s1] eqn:Hrun.
    + destruct acc as [results completed].
      pose proof (process_item_return options total results completed x
                    s s1 v Hrun) as Hitem.
      set (s1' := if onProgress options
                  then emit (ProgressReported (completed + 1) total) s1
                  else s1) in *.
      destruct (IH (<[x := inl v]> results, completed + 1) s1')
        as [(acc' & s' & Hrest)
           |(before & item & after & acc1 & s2 & s3 & e & -> & Hb & He)].
      * left. exists acc', s'. cbn [run_steps]. unfold bind.
        rewrite Hitem. exact Hrest.
      * right. exists (Some x :: before), item, after, acc1, s2, s3, e.
        split; [reflexivity|]. split; [|exact He].
        cbn [run_steps]. unfold bind. rewrite Hitem. exact Hb.
    + right. exists [], x, rest, acc, s, s1, e.
      split; [reflexivity|]. split; [reflexivity|exact Hrun].
  - destruct (IH acc (advance (interBatchDelayMs config)
                        (emit (Slept BetweenBatches
                                 (interBatchDelayMs config)) s)))
      as [(acc' & s' & Hrest)
         |(before & item & after & acc1 & s2 & s3 & e & -> & Hb & He)].
    + left. exists acc', s'. exact Hrest.
    + right. exists (None :: before), item, after, acc1, s2, s3, e.
      split; [reflexivity|]. split; [exact Hb|exact He].
Qed.

(** With [continueOnError] false, a run that returns has stored a result
    for each of its items, and no [Error]. *)
Lemma run_steps_stop (options : BatchOptions) (total : Z)
    (steps : list (option T)) :
  continueOnError options = Some false ->
  forall (acc acc' : gmap T (R + thrown) * Z) (s s' : state),
    run_steps config fn options total acc steps s = (Return acc', s') ->
    (forall item,
       is_Some (acc'.1 !! item) <->
       is_Some (acc.1 !! item) \/ Some item ∈ steps) /\
    ((forall item entry, acc.1 !! item = Some entry ->
        exists r : R, entry = inl r) ->
     forall item entry, acc'.1 !! item = Some entry ->
       exists r : R, entry = inl r).
Proof.
  intros Hstop. induction steps as [|[x|] rest IH]; intros acc acc' s s'.
  - cbn [run_steps]. unfold ret. intros [= <- <-]. split.
    + intros item. rewrite elem_of_nil. tauto.
    + auto.
  - destruct acc as [results completed].
    cbn [run_steps]. unfold bind.
    destruct (execute config (fn x) s) as [[v|e] s1] eqn:Hrun.
    + rewrite (process_item_return options total results completed x
                 s s1 v Hrun).
      intros Hrest. apply IH in Hrest. destruct Hrest as [Hdom Hres].
      cbn [fst] in *. split.
      * intros item. rewrite Hdom, elem_of_cons.
        destruct (decide (x = item)) as [->|Hne].
        -- rewrite lookup_insert_eq. split; [auto|].
           intros _. left. eauto.
        -- rewrite lookup_insert_ne by exact Hne. split.
           ++ intros [H1|H1]; [left; exact H1|right; right; exact H1].
           ++ intros [H1|[[= H1]|H1]];
                [left; exact H1|congruence|right; exact H1].
      * intros Hall. apply Hres. intros item entry.
        destruct (decide (x = item)) as [->|Hne].
        -- rewrite lookup_insert_eq. intros [= <-]. eauto.
        -- rewrite lookup_insert_ne by exact Hne. apply Hall.
    + rewrite (process_item_stop options total results completed x
                 s s1 e Hstop Hrun).
      discriminate.
  - cbn [run_steps]. unfold bind. cbn.
    intros Hrest. apply IH in Hrest. destruct Hrest as [Hdom Hres].
    split; [|exact Hres].
    intros item. rewrite Hdom, elem_of_cons. split.
    + intros [H1|H1]; [left; exact H1|right; right; exact H1].
    + intros [H1|[H1|H1]]; [left; exact H1|discriminate|right; exact H1].
Qed.

(** C3 (amended): with a batch size of at least one, [executeBatch] runs
    the schedule of its batches, the items in order with a pause between
    two batches.  With [continueOnError] left alone or true it returns a
    map (it does not throw) that has an entry exactly for the input items;
    the entry of an item is the result of its fetch or an [Error], namely
    how its [execute] ended in the state in which the run reached the
    item (its last occurrence), so a failing item does not stop the
    others.  With [continueOnError] false, the first item whose [execute]
    throws makes [executeBatch] throw that error, in the state in which
    that [execute] ended (after [onError], when given): nothing is
    requested after it; a run without such an item returns the map, with a
    result for every item. *)
Theorem executeBatch_covers_every_item
    (fuel : nat) (items : list T) (options : BatchOptions) (s : state) :
  0 < batchSize config ->
  (length items <= fuel)%nat ->
  exists batches : list (list T),
    split_batches config items fuel 0 = Some batches /\
    concat batches = items /\
    let reach :=
      run_steps config fn options (Z.of_nat (length items)) (∅, 0) in
    (continueOnError options <> Some false ->
     exists (results : gmap T (R + thrown)) (s' : state),
       executeBatch config fuel items fn options s
         = Some (Return results, s') /\
       (exists completed : Z,
          reach (schedule batches) s = (Return (results, completed), s')) /\
       (forall item, item ∈ items <-> is_Some (results !! item)) /\
       (forall item entry, results !! item = Some entry ->
          (exists r : R, entry = inl r) \/
          (exists message : string, entry = inr (ErrorObject message))) /\
       (forall before item after,
          schedule batches = before ++ Some item :: after ->
          exists (acc1 : gmap T (R + thrown) * Z) (s1 : state),
            reach before s = (Return acc1, s1) /\
            (Some item ∉ after ->
             results !! item =
               Some (entry_of (execute config (fn item) s1).1)))) /\
    (continueOnError options = Some false ->
     (forall before item after (acc1 : gmap T (R + thrown) * Z)
             (s1 s2 : state) (e : thrown),
        schedule batches = before ++ Some item :: after ->
        reach before s = (Return acc1, s1) ->
        execute config (fn item) s1 = (Throw e, s2) ->
        executeBatch config fuel items fn options s =
          Some (Throw (toError e),
                if onError options
                then emit (ErrorReported item (toError e)) s2 else s2)) /\
     (forall (acc : gmap T (R + thrown) * Z) (s' : state),
        reach (schedule batches) s = (Return acc, s') ->
        executeBatch config fuel items fn options s
          = Some (Return acc.1, s') /\
        (forall item, item ∈ items <-> is_Some (acc.1 !! item)) /\
        (forall item entry, acc.1 !! item = Some entry ->
           exists r : R, entry = inl r)) /\
     ((exists before item after (acc1 : gmap T (R + thrown) * Z)
              (s1 s2 : state) (e : thrown),
         schedule batches = before ++ Some item :: after /\
         reach before s = (Return acc1, s1) /\
         execute config (fn item) s1 = (Throw e, s2)) \/
      (exists (acc : gmap T (R + thrown) * Z) (s' : state),
         reach (schedule batches) s = (Return acc, s')))).
Proof.
  intros Hbs Hfuel.
  destruct (split_batches_spec items Hbs fuel 0) as (batches & Hsplit & Hcat);
    [lia|lia|].
  cbn in Hcat.
  exists batches. split; [exact Hsplit|]. split; [exact Hcat|].
  cbv zeta. set (total := Z.of_nat (length items)).
  assert (Hexec : executeBatch config fuel items fn options s =
    Some (match run_steps config fn options total (∅, 0)
                  (schedule batches) s with
          | (Return (results, _), s') => (Return results, s')
          | (Throw e, s') => (Throw e, s')
          end)).
  { unfold executeBatch. rewrite Hsplit.
    rewrite process_batches_schedule. reflexivity. }
  split.
  - intros Hcont.
    destruct (run_steps_continue options total (schedule batches) Hcont
                (∅, 0) s) as (acc & s' & Hrun & _ & Hentry).
    assert (Hempty : covers config fn [] (∅ : gmap T (R + thrown))).
    { split.
      - intros item. rewrite lookup_empty. split.
        + intros Hin. apply elem_of_nil in Hin. contradiction.
        + intros [x Hx]. discriminate.
      - intros item entry. rewrite lookup_empty. discriminate. }
    destruct (process_batches_spec options total batches Hcont [] ∅ 0 s
                Hempty)
      as (results & completed & s'' & Hrun' & [Hdom Hent]).
    rewrite process_batches_schedule in Hrun'.
    unfold results_map in *. rewrite Hrun in Hrun'.
    injection Hrun' as -> ->.
    rewrite Hcat in Hdom. cbn in Hdom.
    exists results, s''. split; [rewrite Hexec, Hrun; reflexivity|].
    split; [exists completed; exact Hrun|].
    split; [exact Hdom|].
    split.
    { intros item entry Hitem.
      destruct (Hent item entry Hitem) as (s0 & ->).
      destruct (execute config (fn item) s0).1 as [v|e]; cbn.
      - left. eauto.
      - right. destruct e; cbn; eauto. }
    exact Hentry.
  - intros Hstop. split; [|split].
    + intros before item after acc1 s1 s2 e Hsched Hbefore Hthrow.
      rewrite Hexec, Hsched, run_steps_app, Hbefore.
      cbn [run_steps]. unfold bind. destruct acc1 as [results completed].
      rewrite (process_item_stop options total results completed item
                 s1 s2 e Hstop Hthrow).
      reflexivity.
    + intros acc s' Hrun.
      destruct (run_steps_stop options total (schedule batches) Hstop
                  _ _ _ _ Hrun) as [Hdom Hres].
      split; [rewrite Hexec, Hrun; destruct acc; reflexivity|].
      split.
      * intros item. rewrite Hdom. cbn [fst]. rewrite lookup_empty.
        rewrite schedule_items, Hcat. split; [auto|].
        intros [[x Hx]|Hin]; [discriminate|exact Hin].
      * apply Hres. cbn [fst]. intros item entry.
        rewrite lookup_empty. discriminate.
    + destruct (run_steps_cases options total (schedule batches) (∅, 0) s)
        as [Hreturns|Hthrows]; [right; exact Hreturns|left; exact Hthrows].
Qed.

(** *** Elapsed time *)

Lemma execute_instant (item : T) (s : state) :
  instant fn -> 0 <= maxRetries config ->
  exists (r : R) (s' : state),
    execute config (fn item) s = (Return r, s') /\
    clock s' = clock s + throttle_wait config s /\
    lastRequestTime s' = clock s'.
Proof.
  intros Hinst Hmr. unfold execute.
  destruct (Z.to_nat (maxRetries config + 1)) as [|n] eqn:En; [lia|].
  cbn [execute_loop]. unfold bind at 1 2.
  destruct (throttle_spec s)
    as (waits & s1 & -> & _ & _ & _ & _ & Hwd & Hclock & Hlast).
  unfold modify at 1. unfold await.
  destruct (Hinst item (world (incr_requestCount s1))) as (r & w' & ->).
  exists r. eexists. split; [reflexivity|].
  cbn. rewrite Hlast, Hclock. unfold throttle_wait. lia.
Qed.

Lemma process_item_instant (options : BatchOptions) (total : Z)
    (acc : gmap T (R + thrown) * Z) (item : T) (s : state) :
  instant fn -> 0 <= maxRetries config ->
  exists (acc' : gmap T (R + thrown) * Z) (s' : state),
    process_item config fn options total acc item s = (Return acc', s') /\
    clock s' = clock s + throttle_wait config s /\
    lastRequestTime s' = clock s'.
Proof.
  intros Hinst Hmr. destruct acc as [results completed].
  unfold process_item, try_catch, bind.
  destruct (execute_instant item s Hinst Hmr) as (r & s1 & -> & Hc & Hl).
  unfold ret. destruct (onProgress options); cbn;
    eexists _, _; split_and!; try reflexivity; assumption.
Qed.

(** A batch of instant fetches takes the wait of the throttle before its
    first item and [minDelayMs] before each of the others. *)
Lemma process_batch_instant (options : BatchOptions) (total : Z)
    (batch : list T) :
  instant fn -> 0 <= maxRetries config -> 0 <= minDelayMs config ->
  forall (acc : gmap T (R + thrown) * Z) (s : state),
    exists (acc' : gmap T (R + thrown) * Z) (s' : state),
      process_batch config fn options total acc batch s = (Return acc', s') /\
      match batch with
      | [] => s' = s
      | _ :: rest =>
          clock s' =
            clock s + throttle_wait config s
            + Z.of_nat (length rest) * minDelayMs config /\
          lastRequestTime s' = clock s'
      end.
Proof.
  intros Hinst Hmr Hmin. induction batch as [|item rest IH]; intros acc s.
  - exists acc, s. split; reflexivity.
  - cbn [process_batch]. unfold bind.
    destruct (process_item_instant options total acc item s Hinst Hmr)
      as (acc1 & s1 & -> & Hc1 & Hl1).
    destruct (IH acc1 s1) as (acc' & s' & -> & Hrest).
    exists acc', s'. split; [reflexivity|].
    destruct rest as [|item' rest'].
    + subst s'. cbn [length]. split; [lia|exact Hl1].
    + destruct Hrest as [Hc Hl]. split; [|exact Hl].
      rewrite Hc, Hc1. unfold throttle_wait at 2. rewrite Hl1.
      cbn [length]. lia.
Qed.

(** C5 (amended): with [minDelayMs = 500], [batchSize = 10] and
    [interBatchDelayMs = 2000], a run over 23 items whose fetches all
    succeed at once takes 14000 ms, that is [(23 - 3) * 500 + 2 * 2000],
    plus the wait of the throttle before the very first request: the first
    request of a later batch waits no more, because the pause between the
    batches already exceeds [minDelayMs].  The total is at least 14000 ms,
    and exactly 14000 ms when the limiter has been idle for 500 ms, less
    than the 15500 ms (16 s) that [estimateTime] announces. *)
Theorem executeBatch_elapsed_time
    (items : list T) (options : BatchOptions) (s : state) :
  minDelayMs config = 500 ->
  batchSize config = 10 ->
  interBatchDelayMs config = 2000 ->
  0 <= maxRetries config ->
  instant fn ->
  length items = 23%nat ->
  exists (results : gmap T (R + thrown)) (s' : state),
    executeBatch config 23 items fn options s = Some (Return results, s') /\
    clock s' - clock s =
      (23 - 3) * 500 + 2 * 2000
      + Z.max 0 (500 - (clock s - lastRequestTime s)) /\
    14000 <= clock s' - clock s /\
    (500 <= clock s - lastRequestTime s -> clock s' - clock s = 14000) /\
    estimateTime config 23 = (23 * 500 + 2 * 2000, 16, 1).
Proof.
  intros Hmin Hbs Hgap Hmr Hinst Hlen.
  do 23 (destruct items as [|? items]; [discriminate|]).
  destruct items; [|discriminate]. clear Hlen.
  unfold executeBatch.
  assert (Hsplit : split_batches config
            [t; t0; t1; t2; t3; t4; t5; t6; t7; t8; t9; t10; t11; t12; t13;
             t14; t15; t16; t17; t18; t19; t20; t21] 23 0 =
          Some [[t; t0; t1; t2; t3; t4; t5; t6; t7; t8];
                [t9; t10; t11; t12; t13; t14; t15; t16; t17; t18];
                [t19; t20; t21]]).
  { destruct config as [md mr bb bs gap]. cbn in Hbs. subst bs.
    reflexivity. }
  rewrite Hsplit. clear Hsplit.
  cbn [process_batches]. unfold bind.
  set (acc0 := (∅, 0)).
  destruct (process_batch_instant options
              (Z.of_nat (length
                 [t; t0; t1; t2; t3; t4; t5; t6; t7; t8; t9; t10; t11; t12;
                  t13; t14; t15; t16; t17; t18; t19; t20; t21]))
              [t; t0; t1; t2; t3; t4; t5; t6; t7; t8] Hinst Hmr
              ltac:(lia) acc0 s)
    as (acc1 & s1 & -> & Hc1 & Hl1).
  unfold sleep at 1, modify at 1.
  set (s1' := advance _ (emit _ s1)).
  assert (Hc1' : clock s1' = clock s1 + 2000).
  { subst s1'. cbn. rewrite Hgap. lia. }
  assert (Hl1' : lastRequestTime s1' = lastRequestTime s1) by reflexivity.
  clearbody s1'.
  destruct (process_batch_instant options
              (Z.of_nat (length
                 [t; t0; t1; t2; t3; t4; t5; t6; t7; t8; t9; t10; t11; t12;
                  t13; t14; t15; t16; t17; t18; t19; t20; t21]))
              [t9; t10; t11; t12; t13; t14; t15; t16; t17; t18] Hinst Hmr
              ltac:(lia) acc1 s1')
    as (acc2 & s2 & -> & Hc2 & Hl2).
  unfold sleep at 1, modify at 1.
  set (s2' := advance _ (emit _ s2)).
  assert (Hc2' : clock s2' = clock s2 + 2000).
  { subst s2'. cbn. rewrite Hgap. lia. }
  assert (Hl2' : lastRequestTime s2' = lastRequestTime s2) by reflexivity.
  clearbody s2'.
  destruct (process_batch_instant options
              (Z.of_nat (length
                 [t; t0; t1; t2; t3; t4; t5; t6; t7; t8; t9; t10; t11; t12;
                  t13; t14; t15; t16; t17; t18; t19; t20; t21]))
              [t19; t20; t21] Hinst Hmr ltac:(lia) acc2 s2')
    as ([results completed] & s3 & -> & Hc3 & Hl3).
  unfold ret. exists results, s3. split; [reflexivity|].
  unfold throttle_wait in *. cbn [length] in *.
  rewrite Hmin in *.
  assert (Helapsed : clock s3 - clock s =
            (23 - 3) * 500 + 2 * 2000
            + Z.max 0 (500 - (clock s - lastRequestTime s))) by lia.
  split; [exact Helapsed|].
  split; [lia|].
  split; [lia|].
  unfold estimateTime, ceil_div. rewrite Hmin, Hbs, Hgap. reflexivity.
Qed.

End LimiterProperties.

(** *** The limiter on concrete tickers *)

(** Two runs of [execute] that fail on every attempt, one with a
    rate-limit message and one without: the same sleeps, 1000, 2000 and
    4000 ms, and the error of the last attempt is thrown. *)
Example execute_backoff_examples :
  let run message :=
    execute DEFAULT_CONFIG (failing_fetch message "MSFT") fresh_limiter in
  let sleeps (s : @RateLimiter.state string Z unit) :=
    omap (fun e => match e with
                   | Slept InBackoff ms => Some ms
                   | _ => None
                   end) (log s) in
  isRateLimitError (ErrorObject "HTTP 429 Too Many Requests") = true /\
  isRateLimitError (ErrorObject "Not Found") = false /\
  (run "HTTP 429 Too Many Requests"%string).1 =
    Throw (ErrorObject "HTTP 429 Too Many Requests") /\
  (run "Not Found"%string).1 = Throw (ErrorObject "Not Found") /\
  sleeps (run "HTTP 429 Too Many Requests"%string).2 = [1000; 2000; 4000] /\
  sleeps (run "Not Found"%string).2 = [1000; 2000; 4000] /\
  requestCount (run "Not Found"%string).2 = 4.
Proof. cbv zeta. split_and!; vm_compute; reflexivity. Qed.

(** C3 as stated fails: when [continueOnError] is false, the failure of
    MSFT (after its four attempts) makes [executeBatch] throw; no map is
    returned and GOOG is never requested.  With a batch size of zero the
    loop that splits the items never ends. *)
Lemma executeBatch_can_abort :
  (exists s' : @RateLimiter.state string Z unit,
     executeBatch DEFAULT_CONFIG 3 three_tickers (failing_fetch "Not Found")
       stop_on_error fresh_limiter
     = Some (Throw (ErrorObject "Not Found"), s') /\
     requestCount s' = 5 /\ errorCount s' = 4) /\
  (forall fuel : nat,
     executeBatch zero_batch_config fuel three_tickers instant_fetch
       no_options fresh_limiter = None).
Proof.
  split.
  - eexists. split; [vm_compute; reflexivity|]. split; reflexivity.
  - intros fuel. unfold executeBatch.
    replace (split_batches zero_batch_config three_tickers fuel 0)
      with (@None (list (list string))); [reflexivity|].
    induction fuel as [|fuel IH]; [reflexivity|].
    cbn [split_batches]. cbn [zero_batch_config batchSize].
    rewrite Z.add_0_r, <- IH. reflexivity.
Qed.

(** The amended theorem on the runs in which MSFT fails: by default the
    map is returned and GOOG has its entry; with [continueOnError] false
    the error of MSFT is thrown. *)
Lemma executeBatch_covers_every_item_witness :
  (exists (results : gmap string (Z + thrown))
          (s' : @RateLimiter.state string Z unit),
     executeBatch DEFAULT_CONFIG 3 three_tickers (failing_fetch "Not Found")
       no_options fresh_limiter = Some (Return results, s') /\
     is_Some (results !! "GOOG"%string)) /\
  (exists s' : @RateLimiter.state string Z unit,
     executeBatch DEFAULT_CONFIG 3 three_tickers (failing_fetch "Not Found")
       stop_on_error fresh_limiter
     = Some (Throw (ErrorObject "Not Found"), s')).
Proof.
  split.
  - destruct (executeBatch_covers_every_item DEFAULT_CONFIG
                (failing_fetch "Not Found") 3 three_tickers no_options
                fresh_limiter)
      as (batches & _ & _ & Hcont & _).
    + reflexivity.
    + cbn. lia.
    + destruct Hcont as (results & s' & Hrun & _ & Hdom & _); [discriminate|].
      exists results, s'. split; [exact Hrun|].
      apply Hdom. unfold three_tickers.
      do 2 apply list_elem_of_further. apply list_elem_of_here.
  - destruct (executeBatch_covers_every_item DEFAULT_CONFIG
                (failing_fetch "Not Found") 3 three_tickers stop_on_error
                fresh_limiter)
      as (batches & Hsplit & _ & _ & Hstop).
    + reflexivity.
    + cbn. lia.
    + vm_compute in Hsplit. injection Hsplit as <-.
      destruct Hstop as (Hfirst & _); [reflexivity|].
      eexists.
      eapply Hfirst with (before := [Some "AAPL"%string])
                         (item := "MSFT"%string)
                         (after := [Some "GOOG"%string])
                         (e := ErrorObject "Not Found").
      * reflexivity.
      * vm_compute. reflexivity.
      * vm_compute. reflexivity.
Defined.

(** C5 as stated fails: the run over 23 tickers, all fetched at once by a
    fresh limiter, takes 14000 ms, less than [23 * 500 + 2 * 2000]. *)
Lemma executeBatch_faster_than_estimate :
  exists (results : gmap string (Z + thrown))
         (s' : @RateLimiter.state string Z unit),
    executeBatch DEFAULT_CONFIG 23 tickers23 instant_fetch no_options
      fresh_limiter = Some (Return results, s') /\
    size results = 23%nat /\
    requestCount s' = 23 /\
    errorCount s' = 0 /\
    clock s' - clock fresh_limiter = 14000 /\
    clock s' - clock fresh_limiter < 23 * 500 + 2 * 2000.
Proof.
  eexists _, _. split; [vm_compute; reflexivity|].
  split_and!; vm_compute; reflexivity.
Qed.

(** The amended theorem on the same run. *)
Lemma executeBatch_elapsed_time_witness :
  exists (results : gmap string (Z + thrown))
         (s' : @RateLimiter.state string Z unit),
    executeBatch DEFAULT_CONFIG 23 tickers23 instant_fetch no_options
      fresh_limiter = Some (Return results, s') /\
    14000 <= clock s' - clock fresh_limiter.
Proof.
  destruct (executeBatch_elapsed_time DEFAULT_CONFIG instant_fetch
              tickers23 no_options fresh_limiter)
    as (results & s' & Hrun & _ & Hlow & _).
  - reflexivity.
  - reflexivity.
  - reflexivity.
  - cbn. lia.
  - intros item w. exists 100, w. reflexivity.
  - reflexivity.
  - exists results, s'. split; assumption.
Defined.

(* ====================================================================== *)
(** ** Further properties of the rate limiter *)
(* ====================================================================== *)

Local Open Scope Z_scope.

Section LimiterFurther.

Context {T R W : Type} `{Countable T}.

Variable config : RateLimiterConfig.

Variable fn : T -> @RateLimiter.fetch R W.

Local Abbreviation state := (@RateLimiter.state T R W).
Local Abbreviation event := (@RateLimiter.event T R).
Local Abbreviation fetch := (@RateLimiter.fetch R W).
Local Abbreviation M := (@RateLimiter.M T R W).

Lemma paced_refl (s : state) : paced config s s.
Proof. unfold paced. lia. Qed.

Lemma paced_trans (s1 s2 s3 : state) :
  paced config s1 s2 -> paced config s2 s3 -> paced config s1 s3.
Proof. unfold paced. intros (? & ? & ?) (? & ? & ?). split_and!; nia. Qed.

(** X1: the throttle moves the time of the last request on by at least
    [minDelayMs], to the time at which it returns; it does not sleep when
    that much time has passed already, and otherwise sleeps exactly the
    remainder. *)
Theorem throttle_spacing (s : state) :
  exists s' : state,
    throttle config s = (Return tt, s') /\
    lastRequestTime s' = clock s' /\
    lastRequestTime s + minDelayMs config <= lastRequestTime s' /\
    clock s <= clock s' /\
    (minDelayMs config <= clock s - lastRequestTime s ->
       clock s' = clock s /\ log s' = log s) /\
    (0 <= clock s - lastRequestTime s < minDelayMs config ->
       clock s' = lastRequestTime s + minDelayMs config /\
       log s' =
         log s ++ [Slept InThrottle
                     (minDelayMs config - (clock s - lastRequestTime s))]).
Proof.
  unfold throttle, bind, gets, modify, sleep, ret. cbn.
  destruct (Z.ltb_spec (clock s - lastRequestTime s) (minDelayMs config)).
  - eexists. split; [reflexivity|]. cbn. split_and!; try lia.
    intros _. split; [lia|reflexivity].
  - eexists. split; [reflexivity|]. cbn. split_and!; try lia.
    intros _. split; reflexivity.
Qed.

Lemma execute_loop_paced (request : fetch) (n : nat) :
  forall (attempt : Z) (lastError : option thrown) (s : state),
    paced config s (execute_loop config request n attempt lastError s).2.
Proof.
  induction n as [|n IH]; intros attempt lastError s.
  - cbn. apply paced_refl.
  - cbn [execute_loop]. unfold bind at 1 2.
    destruct (throttle_spec config s)
      as (waits & s1 & -> & _ & _ & Hrc & Hec & _ & Hclock & Hlast).
    unfold modify at 1. unfold await.
    destruct (request (world (incr_requestCount s1)))
      as [[outcome elapsed] w].
    destruct outcome as [result|error].
    + unfold paced. cbn. lia.
    + unfold bind at 1. unfold modify at 1.
      set (s3 := incr_errorCount _).
      assert (H3 : paced config s s3).
      { subst s3. unfold paced. cbn. lia. }
      clearbody s3.
      destruct (isRateLimitError error && (attempt <? maxRetries config))%bool;
        [|destruct (attempt <? maxRetries config)];
        unfold bind, sleep, modify;
        (eapply paced_trans; [|apply IH]);
        (eapply paced_trans; [exact H3|]);
        unfold paced; cbn; lia.
Qed.

(** X2: whatever the fetch does, a run of [execute] counts at most as many
    errors as requests, never sets the clock back, and moves the time of
    the last request on by at least [minDelayMs] for every request it
    issues: the requests of one limiter are at least [minDelayMs] apart. *)
Theorem execute_paced (request : fetch) (s : state) :
  let s' := (execute config request s).2 in
  clock s <= clock s' /\
  0 <= errorCount s' - errorCount s <= requestCount s' - requestCount s /\
  requestCount s' - requestCount s <= Z.max 0 (maxRetries config + 1) /\
  lastRequestTime s + (requestCount s' - requestCount s) * minDelayMs config
    <= lastRequestTime s'.
Proof.
  cbv zeta.
  pose proof (execute_loop_paced request (Z.to_nat (maxRetries config + 1))
                0 None s) as (Hc & He & Hl).
  fold (execute config request s) in Hc, He, Hl.
  destruct (execute_loop_spec config request
              (Z.to_nat (maxRetries config + 1)) 0 None s)
    as (trace & outcomes & r & s' & Hrun & _ & _ & Hlen & _ & _ & _ & _
        & Hrq & _).
  { f_equal. lia. }
  fold (execute config request s) in Hrun.
  rewrite Hrun in *. cbn [snd] in *.
  split_and!; lia.
Qed.

Lemma process_item_paced (options : BatchOptions) (total : Z)
    (acc : gmap T (R + thrown) * Z) (item : T) (s : state) :
  paced config s (process_item config fn options total acc item s).2.
Proof.
  destruct acc as [results completed].
  unfold process_item, try_catch, bind.
  pose proof (execute_loop_paced (fn item)
                (Z.to_nat (maxRetries config + 1)) 0 None s) as Hex.
  fold (execute config (fn item) s) in Hex.
  destruct (execute config (fn item) s) as [[v|e] s1]; cbn [snd] in Hex.
  - unfold ret. destruct (onProgress options); cbn;
      unfold paced in *; cbn; lia.
  - destruct (onError options), (continueOnError options) as [[|]|],
      (onProgress options); cbn; unfold paced in *; cbn; lia.
Qed.

Lemma process_batch_paced (options : BatchOptions) (total : Z)
    (batch : list T) :
  forall (acc : gmap T (R + thrown) * Z) (s : state),
    paced config s (process_batch config fn options total acc batch s).2.
Proof.
  induction batch as [|item rest IH]; intros acc s.
  - apply paced_refl.
  - cbn [process_batch]. unfold bind.
    pose proof (process_item_paced options total acc item s) as Hitem.
    destruct (process_item config fn options total acc item s)
      as [[acc1|e] s1]; cbn [snd] in *.
    + eapply paced_trans; [exact Hitem|apply IH].
    + exact Hitem.
Qed.

Lemma process_batches_paced (options : BatchOptions) (total : Z)
    (batches : list (list T)) :
  forall (acc : gmap T (R + thrown) * Z) (s : state),
    paced config s (process_batches config fn options total acc batches s).2.
Proof.
  induction batches as [|batch rest IH]; intros acc s.
  - apply paced_refl.
  - cbn [process_batches]. unfold bind at 1.
    pose proof (process_batch_paced options total batch acc s) as Hb.
    destruct (process_batch config fn options total acc batch s)
      as [[acc1|e] s1]; cbn [snd] in *; [|exact Hb].
    unfold bind.
    assert (Hpause : exists s2,
      (match rest with
       | [] => ret tt
       | _ :: _ => sleep BetweenBatches (interBatchDelayMs config)
       end) s1 = (Return tt, s2) /\ paced config s1 s2).
    { destruct rest; eexists; (split; [reflexivity|]);
        unfold paced; cbn; lia. }
    destruct Hpause as (s2 & -> & H12).
    eapply paced_trans; [exact Hb|].
    eapply paced_trans; [exact H12|apply IH].
Qed.

Lemma executeBatch_paced_aux (fuel : nat) (items : list T)
    (options : BatchOptions) (s s' : state)
    (r : completion (gmap T (R + thrown))) :
  executeBatch config fuel items fn options s = Some (r, s') ->
  clock s <= clock s' /\
  0 <= errorCount s' - errorCount s <= requestCount s' - requestCount s /\
  lastRequestTime s + (requestCount s' - requestCount s) * minDelayMs config
    <= lastRequestTime s'.
Proof.
  unfold executeBatch.
  destruct (split_batches config items fuel 0) as [batches|]; [|discriminate].
  match goal with
  | |- context [process_batches ?c ?f ?o ?t ?a ?b ?s0] =>
      pose proof (process_batches_paced o t b a s0) as Hp;
      destruct (process_batches c f o t a b s0)
        as [[[results completed]|e] s1]
  end; cbn [snd] in Hp; intros [= <- <-]; exact Hp.
Qed.

(** X3: over a whole run of [executeBatch], with any options and whether it
    returns the map or throws, the limiter counts at most as many errors as
    requests, and the time of the last request moves on by at least
    [minDelayMs] for every request issued. *)
Theorem executeBatch_paced (fuel : nat) (items : list T)
    (options : BatchOptions) (s s' : state)
    (r : completion (gmap T (R + thrown))) :
  executeBatch config fuel items fn options s = Some (r, s') ->
  clock s <= clock s' /\
  0 <= errorCount s' - errorCount s <= requestCount s' - requestCount s /\
  lastRequestTime s + (requestCount s' - requestCount s) * minDelayMs config
    <= lastRequestTime s'.
Proof. apply executeBatch_paced_aux. Qed.

(** X4: [resetStats] sets both counters to 0 and leaves the rest of the
    limiter alone; from counters with [0 <= errorCount <= requestCount] a
    run of [executeBatch] leads to such counters again, and the success
    rate of [getStats] is then a number between 0 and 1, equal to 1 exactly
    when no error is counted. *)
Theorem getStats_successRate_bounds (fuel : nat) (items : list T)
    (options : BatchOptions) (s s' : state)
    (r : completion (gmap T (R + thrown))) :
  0 <= errorCount s <= requestCount s ->
  executeBatch config fuel items fn options s = Some (r, s') ->
  0 <= errorCount s' <= requestCount s' /\
  (exists rate : Q,
     getStats s' = (requestCount s', errorCount s', Fin rate) /\
     (0 <= rate <= 1)%Q /\
     ((rate == 1)%Q <-> errorCount s' = 0)) /\
  (exists s0 : state,
     resetStats s = (Return tt, s0) /\
     requestCount s0 = 0 /\ errorCount s0 = 0 /\
     clock s0 = clock s /\ lastRequestTime s0 = lastRequestTime s /\
     world s0 = world s /\ log s0 = log s /\
     getStats s0 = (0, 0, int 1)).
Proof.
  intros Hcount Hrun.
  destruct (executeBatch_paced_aux fuel items options s s' r Hrun)
    as (_ & Herr & _).
  assert (Hcount' : 0 <= errorCount s' <= requestCount s') by lia.
  split; [exact Hcount'|].
  split.
  - unfold getStats.
    destruct (Z.ltb_spec 0 (requestCount s')) as [Hpos|Hzero].
    + exists (inject_Z (requestCount s' - errorCount s')
              / inject_Z (requestCount s'))%Q.
      assert (Hrc : (0 < inject_Z (requestCount s'))%Q).
      { change 0%Q with (inject_Z 0). rewrite <- Zlt_Qlt. exact Hpos. }
      split.
      { unfold int. rewrite div_fin by lra. reflexivity. }
      assert (Hsub : (inject_Z (requestCount s' - errorCount s')
                      == inject_Z (requestCount s') - inject_Z (errorCount s'))%Q).
      { unfold Z.sub. rewrite inject_Z_plus, inject_Z_opp. reflexivity. }
      assert (Hec : (0 <= inject_Z (errorCount s'))%Q).
      { change 0%Q with (inject_Z 0). rewrite <- Zle_Qle. lia. }
      assert (Hle : (inject_Z (errorCount s') <= inject_Z (requestCount s'))%Q).
      { rewrite <- Zle_Qle. lia. }
      rewrite Hsub.
      split; [split|].
      * apply Qle_shift_div_l; lra.
      * apply Qle_shift_div_r; lra.
      * split.
        -- intros Hone.
           assert (Hmul : (inject_Z (requestCount s') - inject_Z (errorCount s')
                           == inject_Z (requestCount s'))%Q).
           { rewrite <- (Qmult_div_r (inject_Z (requestCount s')
                                      - inject_Z (errorCount s'))
                           (inject_Z (requestCount s'))) by lra.
             unfold Qdiv in Hone. rewrite Hone. ring. }
           assert (Hz : (inject_Z (errorCount s') <= inject_Z 0)%Q)
             by (unfold inject_Z at 2; lra).
           rewrite <- Zle_Qle in Hz. lia.
        -- intros ->. change (inject_Z 0) with 0%Q. field. lra.
    + exists 1%Q. split; [reflexivity|]. split; [lra|].
      split; [intros _; lia|reflexivity].
  - eexists. split; [reflexivity|]. cbn. split_and!; reflexivity.
Qed.

Lemma backoff_total_app (a b : list event) :
  backoff_total (a ++ b) = backoff_total a + backoff_total b.
Proof.
  induction a as [|e a IH]; [reflexivity|].
  cbn. destruct e as [[] ms| | |]; rewrite ?IH; lia.
Qed.





End LimiterFurther.

(** *** Rate-limit messages *)

Lemma prefix_spec (a s : string) :
  String.prefix a s = true <-> exists post : string, s = (a ++ post)%string.
Proof.
  revert s. induction a as [|c a IH]; intros s.
  - split; [intros _; exists s; reflexivity|].
    intros _. destruct s; reflexivity.
  - destruct s as [|c' s]; cbn.
    + split; [discriminate|]. intros [post Hpost]. discriminate.
    + destruct (Ascii.ascii_dec c c') as [->|Hne].
      * rewrite IH. split; intros [post Hpost]; exists post.
        -- rewrite Hpost. reflexivity.
        -- cbn in Hpost. injection Hpost as ->. reflexivity.
      * split; [discriminate|]. intros [post Hpost].
        cbn in Hpost. injection Hpost as Hc _. congruence.
Qed.

Lemma includes_spec (needle s : string) :
  includes needle s = true <-> occurs_in needle s.
Proof.
  unfold occurs_in. induction s as [|c s IH].
  - cbn [includes]. destruct (String.prefix needle "") eqn:E.
    + apply prefix_spec in E as [post Hpost].
      split; [|reflexivity]. intros _. exists ""%string, post. exact Hpost.
    + split; [discriminate|]. intros (pre & post & Heq).
      destruct pre; [|discriminate]. cbn in Heq.
      assert (String.prefix needle "" = true)
        by (apply prefix_spec; exists post; exact Heq).
      congruence.
  - cbn [includes]. destruct (String.prefix needle (String c s)) eqn:E.
    + apply prefix_spec in E as [post Hpost].
      split; [|reflexivity]. intros _. exists ""%string, post. exact Hpost.
    + rewrite IH. split.
      * intros (pre & post & ->). exists (String c pre), post. reflexivity.
      * intros (pre & post & Heq). destruct pre as [|c' pre].
        -- cbn in Heq.
           assert (String.prefix needle (String c s) = true)
             by (apply prefix_spec; exists post; exact Heq).
           congruence.
        -- injection Heq as _ ->. exists pre, post. reflexivity.
Qed.

Lemma lower_ascii_idempotent (c : ascii) :
  lower_ascii (lower_ascii c) = lower_ascii c.
Proof. destruct c as [[] [] [] [] [] [] [] []]; reflexivity. Qed.

Lemma toLowerCase_idempotent (s : string) :
  toLowerCase (toLowerCase s) = toLowerCase s.
Proof.
  induction s as [|c s IH]; [reflexivity|].
  cbn. rewrite lower_ascii_idempotent, IH. reflexivity.
Qed.

(** X6: a thrown value is a rate-limit error exactly when it is an [Error]
    whose message, in lower case, contains one of "rate limit", "too many
    requests", "429" and "throttl"; the letter case of the message does not
    matter, and a thrown value that is not an [Error] never is one. *)
Theorem isRateLimitError_spec :
  (forall e : thrown,
      isRateLimitError e = true <->
      exists message keyword : string,
        e = ErrorObject message /\
        In keyword rate_limit_keywords /\
        occurs_in keyword (toLowerCase message)) /\
  (forall message : string,
      isRateLimitError (ErrorObject (toLowerCase message)) =
        isRateLimitError (ErrorObject message)) /\
  (forall text : string, isRateLimitError (OtherValue text) = false).
Proof.
  split; [|split].
  - intros [message|text]; cbn [isRateLimitError].
    + rewrite !orb_true_iff, !includes_spec. unfold rate_limit_keywords.
      split.
      * intros [[[Hk|Hk]|Hk]|Hk]; eexists message, _;
          (split; [reflexivity|]); (split; [|exact Hk]); cbn; tauto.
      * intros (m & keyword & [= <-] & Hin & Hocc). cbn in Hin.
        destruct Hin as [<-|[<-|[<-|[<-|[]]]]]; tauto.
    + split; [discriminate|]. intros (m & k & Heq & _). discriminate.
  - intros message. cbn [isRateLimitError].
    rewrite toLowerCase_idempotent. reflexivity.
  - reflexivity.
Qed.

(** *** The successful results of a batch *)

Section LimiterFiltered.

Context {T R W : Type} `{Countable T}.

Variable config : RateLimiterConfig.

Variable fn : T -> @RateLimiter.fetch R W.

Local Abbreviation state := (@RateLimiter.state T R W).
Local Abbreviation entries := (list (T * (R + thrown))).

Lemma list_to_map_map_set (item : T) (value : R + thrown) (m : entries) :
  (list_to_map (map_set item value m) : gmap T (R + thrown)) =
    <[item := value]> (list_to_map m).
Proof.
  induction m as [|[k v] m IH]; [reflexivity|].
  cbn [map_set]. destruct (decide (item = k)) as [->|Hne].
  - cbn [list_to_map foldr uncurry fst snd].
    rewrite insert_insert_eq. reflexivity.
  - cbn [list_to_map foldr uncurry fst snd].
    change (foldr _ _ (map_set item value m))
      with (list_to_map (map_set item value m) : gmap T (R + thrown)).
    rewrite IH. apply insert_insert_ne. congruence.
Qed.

Lemma map_set_keys (item : T) (value : R + thrown) (m : entries) :
  (map_set item value m).*1 =
    if decide (item ∈ m.*1) then m.*1 else m.*1 ++ [item].
Proof.
  induction m as [|[k v] m IH].
  - cbn. destruct (decide (item ∈ [])) as [Hin|_]; [|reflexivity].
    apply elem_of_nil in Hin. contradiction.
  - cbn [map_set]. destruct (decide (item = k)) as [->|Hne].
    + cbn. destruct (decide (k ∈ k :: m.*1)) as [_|Hnot]; [reflexivity|].
      exfalso. apply Hnot. apply list_elem_of_here.
    + cbn [fmap list_fmap fst]. cbn. fold (fmap fst m). fold (fmap fst (map_set item value m)).
      rewrite IH.
      destruct (decide (item ∈ m.*1)) as [Hin|Hnot];
        destruct (decide (item ∈ k :: m.*1)) as [Hin'|Hnot']; try reflexivity.
      * exfalso. apply Hnot'. apply list_elem_of_further. exact Hin.
      * exfalso. apply elem_of_cons in Hin' as [->|Hin']; contradiction.
Qed.

Lemma map_set_NoDup (item : T) (value : R + thrown) (m : entries) :
  NoDup m.*1 -> NoDup (map_set item value m).*1.
Proof.
  intros Hnd. rewrite map_set_keys.
  destruct (decide (item ∈ m.*1)) as [Hin|Hnot]; [exact Hnd|].
  apply NoDup_app. split; [exact Hnd|]. split.
  - intros x Hx Hx'. apply list_elem_of_singleton in Hx'. subst x. contradiction.
  - apply NoDup_singleton.
Qed.

(** With [continueOnError] left alone or true, the two forms of the loop
    body store the same entry and end in the same state. *)
Lemma process_item_both (options : BatchOptions) (total : Z)
    (g : gmap T (R + thrown)) (l : entries) (completed : Z) (item : T)
    (s : state) :
  continueOnError options <> Some false ->
  exists s' : state,
    process_item config fn options total (g, completed) item s =
      (Return (<[item := entry_of (execute config (fn item) s).1]> g,
               completed + 1), s') /\
    process_item_entries config fn options total (l, completed) item s =
      (Return (map_set item (entry_of (execute config (fn item) s).1) l,
               completed + 1), s').
Proof.
  intros Hcont.
  assert (Hkeep : negb (default true (continueOnError options)) = false).
  { destruct (continueOnError options) as [[|]|];
      [reflexivity|congruence|reflexivity]. }
  unfold process_item, process_item_entries, try_catch, bind. rewrite Hkeep.
  destruct (execute config (fn item) s) as [[v|e] s1]; cbn [fst snd entry_of].
  - unfold ret. destruct (onProgress options); cbn;
      eexists; split; reflexivity.
  - destruct (onError options), (onProgress options); cbn;
      eexists; split; reflexivity.
Qed.

Lemma process_batch_both (options : BatchOptions) (total : Z)
    (batch : list T) :
  continueOnError options <> Some false ->
  forall (g : gmap T (R + thrown)) (l : entries) (completed : Z) (s : state),
    list_to_map l = g -> NoDup l.*1 ->
    exists (g' : gmap T (R + thrown)) (l' : entries) (completed' : Z)
           (s' : state),
      process_batch config fn options total (g, completed) batch s =
        (Return (g', completed'), s') /\
      process_batch_entries config fn options total (l, completed) batch s =
        (Return (l', completed'), s') /\
      list_to_map l' = g' /\ NoDup l'.*1 /\
      l'.*1 = foldl key_step l.*1 batch.
Proof.
  intros Hcont. induction batch as [|item rest IH];
    intros g l completed s Hmap Hnd.
  - exists g, l, completed, s. split_and!; try reflexivity; assumption.
  - cbn [process_batch process_batch_entries]. unfold bind.
    destruct (process_item_both options total g l completed item s Hcont)
      as (s1 & -> & ->).
    set (entry := entry_of (execute config (fn item) s).1).
    destruct (IH (<[item := entry]> g) (map_set item entry l)
                (completed + 1) s1)
      as (g' & l' & completed' & s' & Hg & Hl & Hmap' & Hnd' & Hkeys).
    { rewrite list_to_map_map_set, Hmap. reflexivity. }
    { apply map_set_NoDup. exact Hnd. }
    exists g', l', completed', s'.
    split_and!; try assumption.
    rewrite Hkeys, map_set_keys. reflexivity.
Qed.

Lemma process_batches_both (options : BatchOptions) (total : Z)
    (batches : list (list T)) :
  continueOnError options <> Some false ->
  forall (g : gmap T (R + thrown)) (l : entries) (completed : Z) (s : state),
    list_to_map l = g -> NoDup l.*1 ->
    exists (g' : gmap T (R + thrown)) (l' : entries) (completed' : Z)
           (s' : state),
      process_batches config fn options total (g, completed) batches s =
        (Return (g', completed'), s') /\
      process_batches_entries config fn options total (l, completed)
        batches s = (Return (l', completed'), s') /\
      list_to_map l' = g' /\ NoDup l'.*1 /\
      l'.*1 = foldl key_step l.*1 (concat batches).
Proof.
  intros Hcont. induction batches as [|batch rest IH];
    intros g l completed s Hmap Hnd.
  - exists g, l, completed, s. split_and!; try reflexivity; assumption.
  - cbn [process_batches process_batches_entries]. unfold bind at 1 3.
    destruct (process_batch_both options total batch Hcont g l completed s
                Hmap Hnd)
      as (g1 & l1 & c1 & s1 & -> & -> & Hmap1 & Hnd1 & Hkeys1).
    unfold bind.
    set (pause := match rest with
                  | [] => ret tt
                  | _ :: _ => sleep BetweenBatches (interBatchDelayMs config)
                  end).
    assert (Hpause : exists s2, pause s1 = (Return tt, s2)).
    { subst pause. destruct rest; eexists; reflexivity. }
    destruct Hpause as (s2 & ->).
    destruct (IH g1 l1 c1 s2 Hmap1 Hnd1)
      as (g' & l' & c' & s' & Hg & Hl & Hmap' & Hnd' & Hkeys').
    exists g', l', c', s'.
    split_and!; try assumption.
    cbn [concat]. rewrite foldl_app, <- Hkeys1. exact Hkeys'.
Qed.

Lemma process_batches_both_init (options : BatchOptions) (total : Z)
    (batches : list (list T)) (s : state) :
  continueOnError options <> Some false ->
  exists (g' : gmap T (R + thrown)) (l' : entries) (completed' : Z)
         (s' : state),
    process_batches config fn options total (∅, 0) batches s =
      (Return (g', completed'), s') /\
    process_batches_entries config fn options total ([], 0) batches s =
      (Return (l', completed'), s') /\
    list_to_map l' = g' /\ NoDup l'.*1 /\
    l'.*1 = foldl key_step [] (concat batches).
Proof.
  intros Hcont.
  exact (process_batches_both options total batches Hcont ∅ [] 0 s
           eq_refl (NoDup_nil_2)).
Qed.

(** The selection of [executeBatchFiltered] on the entries of a map. *)
Lemma successes_spec (l : entries) :
  NoDup l.*1 ->
  let successes :=
    omap (fun entry : T * (R + thrown) =>
            match entry.2 with
            | inl result => Some (entry.1, result)
            | inr _ => None
            end) l in
  (forall item r, (item, r) ∈ successes <->
     (list_to_map l : gmap T (R + thrown)) !! item = Some (inl r)) /\
  successes.*1 =
    List.filter
      (fun k => is_result ((list_to_map l : gmap T (R + thrown)) !! k)) l.*1.
Proof.
  intros Hnd. cbv zeta. split.
  - intros item r. rewrite list_elem_of_omap.
    rewrite <- (elem_of_list_to_map (M := gmap T)) by exact Hnd.
    split.
    + intros ([k [v|e]] & Hin & Heq); cbn in Heq; [|discriminate].
      injection Heq as -> ->. exact Hin.
    + intros Hin. exists (item, inl r). split; [exact Hin|reflexivity].
  - induction l as [|[k v] l IH]; [reflexivity|].
    cbn [fmap list_fmap fst] in Hnd. apply NoDup_cons in Hnd as [Hk Hnd].
    specialize (IH Hnd).
    assert (Htail :
      List.filter
        (fun k' => is_result
           ((list_to_map ((k, v) :: l) : gmap T (R + thrown)) !! k')) l.*1
      = List.filter
          (fun k' => is_result
             ((list_to_map l : gmap T (R + thrown)) !! k')) l.*1).
    { apply List.filter_ext_in. intros k' Hk'.
      cbn [list_to_map foldr uncurry fst snd].
      rewrite lookup_insert_ne; [reflexivity|].
      intros ->. apply Hk. apply list_elem_of_In. exact Hk'. }
    cbn [fmap list_fmap omap list_omap fst snd List.filter].
    change (list_fmap _ _ fst l) with (l.*1).
    rewrite Htail, <- IH.
    assert (Hhead :
      (list_to_map ((k, v) :: l) : gmap T (R + thrown)) !! k = Some v)
      by apply lookup_insert_eq.
    rewrite Hhead.
    destruct v as [r|e]; reflexivity.
Qed.

Lemma insertion_order_NoDup (items : list T) :
  forall keys : list T,
    NoDup (keys ++ items) -> foldl key_step keys items = keys ++ items.
Proof.
  induction items as [|item rest IH]; intros keys Hnd.
  - cbn. rewrite app_nil_r. reflexivity.
  - cbn [foldl]. unfold key_step at 2.
    destruct (decide (item ∈ keys)) as [Hin|Hnot].
    + exfalso. apply NoDup_app in Hnd as (_ & Hdisj & _).
      apply (Hdisj item Hin). apply list_elem_of_here.
    + rewrite IH; rewrite <- app_assoc; [reflexivity|exact Hnd].
Qed.

(** X7: with a batch size of at least one, [executeBatchFiltered] never
    throws, whatever [continueOnError] says in its options.  It ends in the
    state in which [executeBatch] with [continueOnError: true] ends, and
    returns exactly the entries of that map that are results, not errors:
    each such item once, in the order in which the items first occur (for
    a ticker listed twice, the fetch of its last occurrence decides). *)
Theorem executeBatchFiltered_spec
    (fuel : nat) (items : list T) (options : BatchOptions) (s : state) :
  0 < batchSize config ->
  (length items <= fuel)%nat ->
  let continuing :=
    {| onProgress := onProgress options; onError := onError options;
       continueOnError := Some true |} in
  exists (successes : list (T * R)) (results : gmap T (R + thrown))
         (s' : state),
    executeBatchFiltered config fuel items fn options s =
      Some (Return successes, s') /\
    executeBatch config fuel items fn continuing s =
      Some (Return results, s') /\
    (forall item r, (item, r) ∈ successes <->
       results !! item = Some (inl r)) /\
    NoDup successes.*1 /\
    successes.*1 =
      List.filter (fun k => is_result (results !! k)) (insertion_order items) /\
    (NoDup items -> insertion_order items = items).
Proof.
  intros Hbs Hfuel continuing.
  destruct (split_batches_spec config items Hbs fuel 0)
    as (batches & Hsplit & Hcat); [lia|lia|].
  rewrite drop_0 in Hcat.
  destruct (process_batches_both_init continuing (Z.of_nat (length items))
              batches s ltac:(discriminate))
    as (g & l & c & s' & Hg & Hl & Hmap & Hnd & Hkeys).
  destruct (successes_spec l Hnd) as [Hmem Hord].
  rewrite Hmap in Hmem, Hord.
  eexists _, g, s'.
  split.
  { unfold executeBatchFiltered, executeBatch_entries. fold continuing.
    rewrite Hsplit. unfold RateLimiter.entries. rewrite Hl. reflexivity. }
  split.
  { unfold executeBatch. rewrite Hsplit. unfold results_map in *.
    rewrite Hg. reflexivity. }
  split; [exact Hmem|].
  split.
  { rewrite Hord. apply NoDup_ListNoDup, List.NoDup_filter.
    apply NoDup_ListNoDup. exact Hnd. }
  split.
  { rewrite Hord, Hkeys, Hcat. reflexivity. }
  intros Hitems. apply (insertion_order_NoDup items []). exact Hitems.
Qed.

End LimiterFiltered.

(** *** Batches and the estimate *)

Section LimiterTiming.

Context {T R W : Type} `{Countable T}.

Variable config : RateLimiterConfig.

Variable fn : T -> @RateLimiter.fetch R W.

Local Abbreviation state := (@RateLimiter.state T R W).

Lemma ceil_div_step (a b : Z) :
  0 < b -> ceil_div a b = ceil_div (a - b) b + 1.
Proof.
  intros Hb. unfold ceil_div.
  replace (- (a - b)) with (- a + 1 * b) by lia.
  rewrite Z.div_add by lia. lia.
Qed.

Lemma ceil_div_nonpos (a b : Z) : 0 < b -> a <= 0 -> ceil_div a b <= 0.
Proof.
  intros Hb Ha. unfold ceil_div.
  assert (0 <= - a / b) by (apply Z.div_pos; lia). lia.
Qed.

Lemma ceil_div_pos (a b : Z) : 0 < b -> 0 < a -> 0 < ceil_div a b.
Proof.
  intros Hb Ha. unfold ceil_div.
  assert (- a / b < 0) by (apply Z.div_lt_upper_bound; lia). lia.
Qed.

(** The shape of the batches from index [i] on. *)
Lemma split_batches_shape (items : list T) :
  0 < batchSize config ->
  forall (fuel : nat) (i : Z),
    0 <= i -> Z.of_nat (length items) - i <= Z.of_nat fuel ->
    exists batches : list (list T),
      split_batches config items fuel i = Some batches /\
      concat batches = drop (Z.to_nat i) items /\
      Forall (fun b => 0 < Z.of_nat (length b) <= batchSize config) batches /\
      Z.of_nat (length batches) =
        Z.max 0 (ceil_div (Z.of_nat (length items) - i) (batchSize config)) /\
      (forall (k : nat) (b : list T),
         batches !! k = Some b -> (S k < length batches)%nat ->
         Z.of_nat (length b) = batchSize config).
Proof.
  intros Hbs. induction fuel as [|fuel IH]; intros i Hi Hfuel.
  - cbn [split_batches].
    destruct (Z.ltb_spec i (Z.of_nat (length items))); [lia|].
    exists []. split; [reflexivity|].
    split; [cbn [concat]; symmetry; apply drop_ge; lia|].
    split; [constructor|].
    split.
    { pose proof (ceil_div_nonpos (Z.of_nat (length items) - i)
                    (batchSize config) Hbs ltac:(lia)). cbn [length]. lia. }
    intros k b Hk. discriminate.
  - cbn [split_batches].
    destruct (Z.ltb_spec i (Z.of_nat (length items))) as [Hlt|Hge].
    + destruct (IH (i + batchSize config))
        as (rest & -> & Hrest & Hall & Hcount & Hfull); [lia|lia|].
      eexists. split; [reflexivity|].
      assert (Hslice : slice items i (i + batchSize config) =
                take (Z.to_nat (Z.min (i + batchSize config)
                                  (Z.of_nat (length items)) - i))
                     (drop (Z.to_nat i) items)).
      { unfold slice.
        destruct (Z.ltb_spec i 0); [lia|].
        destruct (Z.ltb_spec (i + batchSize config) 0); [lia|].
        rewrite (Z.min_l i) by lia. reflexivity. }
      assert (Hlen : Z.of_nat (length (slice items i (i + batchSize config)))
                = Z.min (batchSize config) (Z.of_nat (length items) - i)).
      { rewrite Hslice, length_take, length_drop. lia. }
      split.
      { cbn [concat]. rewrite Hrest, Hslice.
        destruct (Z.le_gt_cases (i + batchSize config)
                    (Z.of_nat (length items))) as [Hin|Hout].
        - rewrite Z.min_l by lia.
          replace (Z.to_nat (i + batchSize config))
            with (Z.to_nat i + Z.to_nat (i + batchSize config - i))%nat by lia.
          rewrite <- drop_drop. apply take_drop.
        - rewrite Z.min_r by lia.
          rewrite (drop_ge items (Z.to_nat (i + batchSize config))) by lia.
          rewrite app_nil_r. apply take_ge. rewrite length_drop. lia. }
      split.
      { constructor; [lia|exact Hall]. }
      split.
      { cbn [length]. rewrite Nat2Z.inj_succ, Hcount.
        rewrite (ceil_div_step (Z.of_nat (length items) - i)
                   (batchSize config) Hbs).
        replace (Z.of_nat (length items) - i - batchSize config)
          with (Z.of_nat (length items) - (i + batchSize config)) by lia.
        pose proof (ceil_div_pos (Z.of_nat (length items) - i)
                      (batchSize config) Hbs ltac:(lia)) as Hpos.
        rewrite (ceil_div_step (Z.of_nat (length items) - i)
                   (batchSize config) Hbs) in Hpos.
        replace (Z.of_nat (length items) - i - batchSize config)
          with (Z.of_nat (length items) - (i + batchSize config)) in Hpos
          by lia.
        lia. }
      intros k b Hk Hlast. destruct k as [|k].
      * cbn in Hk. injection Hk as <-. rewrite Hlen.
        cbn [length] in Hlast.
        destruct (Z.le_gt_cases (i + batchSize config)
                    (Z.of_nat (length items))) as [Hin|Hout]; [lia|].
        exfalso.
        pose proof (ceil_div_nonpos
                      (Z.of_nat (length items) - (i + batchSize config))
                      (batchSize config) Hbs ltac:(lia)).
        lia.
      * cbn in Hk. apply (Hfull k b Hk). cbn [length] in Hlast. lia.
    + exists []. split; [reflexivity|].
      split; [cbn [concat]; symmetry; apply drop_ge; lia|].
      split; [constructor|].
      split.
      { pose proof (ceil_div_nonpos (Z.of_nat (length items) - i)
                      (batchSize config) Hbs ltac:(lia)). cbn [length]. lia. }
      intros k b Hk. discriminate.
Qed.

(** X8: for a positive batch size, the loop of [executeBatch] splits the
    items, in order and within [length items] iterations, into
    [ceil(length items / batchSize)] batches: none is empty, every batch
    but the last has exactly [batchSize] items, and together they are the
    items. *)
Theorem split_batches_partition (items : list T) (fuel : nat) :
  0 < batchSize config ->
  (length items <= fuel)%nat ->
  exists batches : list (list T),
    split_batches config items fuel 0 = Some batches /\
    concat batches = items /\
    Forall (fun b => 0 < Z.of_nat (length b) <= batchSize config) batches /\
    Z.of_nat (length batches) =
      ceil_div (Z.of_nat (length items)) (batchSize config) /\
    (forall (k : nat) (b : list T),
       batches !! k = Some b -> (S k < length batches)%nat ->
       Z.of_nat (length b) = batchSize config).
Proof.
  intros Hbs Hfuel.
  destruct (split_batches_shape items Hbs fuel 0)
    as (batches & Hsplit & Hcat & Hall & Hcount & Hfull); [lia|lia|].
  exists batches. rewrite drop_0 in Hcat. rewrite Z.sub_0_r in Hcount.
  split_and!; try assumption.
  rewrite Hcount. apply Z.max_r.
  destruct (Z.eq_dec (Z.of_nat (length items)) 0) as [->|Hnz];
    [reflexivity|].
  pose proof (ceil_div_pos (Z.of_nat (length items)) (batchSize config)
                Hbs ltac:(lia)). lia.
Qed.

(** The time a run over non-empty batches of instant fetches takes. *)
Lemma process_batches_instant (options : BatchOptions) (total : Z)
    (batches : list (list T)) :
  instant fn -> 0 <= maxRetries config ->
  0 <= minDelayMs config <= interBatchDelayMs config ->
  Forall (fun b => 0 < Z.of_nat (length b) <= batchSize config) batches ->
  forall (acc : gmap T (R + thrown) * Z) (s : state),
    exists (acc' : gmap T (R + thrown) * Z) (s' : state),
      process_batches config fn options total acc batches s
        = (Return acc', s') /\
      match batches with
      | [] => s' = s
      | _ :: _ =>
          clock s' =
            clock s + throttle_wait config s
            + (Z.of_nat (length (concat batches))
               - Z.of_nat (length batches)) * minDelayMs config
            + (Z.of_nat (length batches) - 1) * interBatchDelayMs config
      end.
Proof.
  intros Hinst Hmr Hdelays Hall.
  induction Hall as [|batch rest Hbatch Hrest IH]; intros acc s.
  - exists acc, s. split; reflexivity.
  - cbn [process_batches]. unfold bind at 1.
    destruct (process_batch_instant config fn options total batch Hinst Hmr
                ltac:(lia) acc s) as (acc1 & s1 & -> & Hb).
    destruct batch as [|item batch']; [cbn in Hbatch; lia|].
    destruct Hb as [Hc1 Hl1].
    unfold bind.
    destruct rest as [|batch2 rest'].
    + unfold ret. exists acc1, s1. split; [reflexivity|].
      rewrite Hc1. cbn [concat length].
      rewrite app_nil_r. cbn [length]. lia.
    + unfold sleep at 1, modify at 1.
      set (s2 := advance _ (emit _ s1)).
      assert (Hc2 : clock s2 = clock s1 + interBatchDelayMs config).
      { subst s2. cbn. lia. }
      assert (Hl2 : lastRequestTime s2 = lastRequestTime s1) by reflexivity.
      clearbody s2.
      destruct (IH acc1 s2) as (acc' & s' & -> & Hc').
      exists acc', s'. split; [reflexivity|].
      assert (Hwait2 : throttle_wait config s2 = 0).
      { unfold throttle_wait. rewrite Hc2, Hl2, Hl1. lia. }
      rewrite Hc', Hwait2, Hc2, Hc1.
      cbn [concat]. rewrite !length_app. cbn [length].
      rewrite !Nat2Z.inj_add, !Nat2Z.inj_succ. ring.
Qed.

(** X9: with [0 <= minDelayMs <= interBatchDelayMs] and a positive batch
    size, a run of [executeBatch] over [n >= 1] items whose fetches all
    succeed at once takes the wait of the throttle before the first
    request, [minDelayMs] for every item but the first of each batch, and
    [interBatchDelayMs] between the batches.  The total of [estimateTime]
    exceeds this by [minDelayMs] for each batch, less that first wait: for
    a limiter whose last request is not in the future the estimate is an
    upper bound. *)
Theorem estimateTime_overestimates
    (fuel : nat) (items : list T) (options : BatchOptions) (s : state) :
  0 < batchSize config ->
  0 <= minDelayMs config <= interBatchDelayMs config ->
  0 <= maxRetries config ->
  instant fn ->
  items <> [] ->
  (length items <= fuel)%nat ->
  let n := Z.of_nat (length items) in
  let batches := ceil_div n (batchSize config) in
  exists (results : gmap T (R + thrown)) (s' : state),
    executeBatch config fuel items fn options s = Some (Return results, s') /\
    clock s' - clock s =
      throttle_wait config s
      + (n - batches) * minDelayMs config
      + (batches - 1) * interBatchDelayMs config /\
    (estimateTime config n).1.1 =
      clock s' - clock s + batches * minDelayMs config
      - throttle_wait config s /\
    (lastRequestTime s <= clock s ->
     clock s' - clock s <= (estimateTime config n).1.1).
Proof.
  intros Hbs Hdelays Hmr Hinst Hne Hfuel n batches.
  destruct (split_batches_shape items Hbs fuel 0)
    as (bs & Hsplit & Hcat & Hall & Hcount & _); [lia|lia|].
  rewrite drop_0 in Hcat. rewrite Z.sub_0_r in Hcount.
  fold n in Hcount. fold batches in Hcount.
  assert (Hn : 0 < n).
  { subst n. destruct items; [congruence|cbn [length]; lia]. }
  pose proof (ceil_div_pos n (batchSize config) Hbs Hn) as Hpos.
  fold batches in Hpos.
  destruct (process_batches_instant options n bs Hinst Hmr Hdelays Hall
              (∅, 0) s) as ([results completed] & s' & Hrun & Hclock).
  exists results, s'.
  assert (Helapsed : clock s' - clock s =
            throttle_wait config s
            + (n - batches) * minDelayMs config
            + (batches - 1) * interBatchDelayMs config).
  { destruct bs as [|b bs']; [cbn [length] in Hcount; lia|].
    rewrite Hcat in Hclock. fold n in Hclock. lia. }
  split.
  { unfold executeBatch. rewrite Hsplit. fold n.
    unfold results_map in *. rewrite Hrun. reflexivity. }
  split; [exact Helapsed|].
  assert (Hest : (estimateTime config n).1.1 =
            n * minDelayMs config + (batches - 1) * interBatchDelayMs config)
    by reflexivity.
  split; [rewrite Hest, Helapsed; lia|].
  intros Hpast. rewrite Hest, Helapsed. unfold throttle_wait. nia.
Qed.

(** X10: for no items, [executeBatch] and [executeBatchFiltered] return an
    empty map and an empty list without a request or a sleep, whatever the
    configuration, while [estimateTime(0)] announces minus one pause
    between batches. *)
Theorem executeBatch_no_items
    (fuel : nat) (options : BatchOptions) (s : state) :
  executeBatch config fuel [] fn options s = Some (Return ∅, s) /\
  executeBatchFiltered config fuel [] fn options s = Some (Return [], s) /\
  (0 < batchSize config ->
   (estimateTime config 0).1.1 = - interBatchDelayMs config).
Proof.
  split; [|split].
  - unfold executeBatch. destruct fuel; reflexivity.
  - unfold executeBatchFiltered, executeBatch_entries.
    destruct fuel; reflexivity.
  - intros Hbs. unfold estimateTime, ceil_div. cbn [fst].
    rewrite Z.div_0_l by lia. lia.
Qed.

End LimiterTiming.

(** *** Progress reports *)

Section LimiterReports.

Context {T R W : Type} `{Countable T}.

Variable config : RateLimiterConfig.

Variable fn : T -> @RateLimiter.fetch R W.

Local Abbreviation state := (@RateLimiter.state T R W).
Local Abbreviation event := (@RateLimiter.event T R).

Lemma progress_reports_app (a b : list event) :
  progress_reports (a ++ b) = progress_reports a ++ progress_reports b.
Proof. unfold progress_reports. apply omap_app. Qed.

Lemma progress_reports_filter (trace : list event) :
  progress_reports (List.filter outside_throttle trace)
  = progress_reports trace.
Proof.
  unfold progress_reports.
  induction trace as [|e trace IH]; [reflexivity|].
  destruct e as [[] ms| | |]; cbn; rewrite ?IH; reflexivity.
Qed.

Lemma progress_reports_retry_trace (outcomes : list (completion R)) :
  forall attempt : Z,
    progress_reports (retry_trace config attempt outcomes : list event) = [].
Proof.
  induction outcomes as [|o rest IH]; intros attempt; [reflexivity|].
  destruct rest as [|o' rest']; [reflexivity|].
  change (retry_trace config attempt (o :: o' :: rest') : list event)
    with (Called o :: Slept InBackoff (getBackoffDelay config attempt)
            :: retry_trace config (attempt + 1) (o' :: rest') : list event).
  cbn. apply IH.
Qed.

(** A run of [execute] reports no progress. *)
Lemma execute_reports (item : T) (s : state) :
  exists trace : list event,
    log (execute config (fn item) s).2 = log s ++ trace /\
    progress_reports trace = [].
Proof.
  destruct (execute_loop_spec config (fn item)
              (Z.to_nat (maxRetries config + 1)) 0 None s)
    as (trace & outcomes & r & s' & Hrun & Hlog & Hfil & _).
  { f_equal. lia. }
  fold (execute config (fn item) s) in Hrun. rewrite Hrun.
  exists trace. split; [exact Hlog|].
  rewrite <- progress_reports_filter, Hfil.
  apply progress_reports_retry_trace.
Qed.

Lemma process_item_reports (options : BatchOptions) (total : Z)
    (results : gmap T (R + thrown)) (completed : Z) (item : T) (s : state) :
  continueOnError options <> Some false ->
  exists (acc' : gmap T (R + thrown)) (trace : list event) (s' : state),
    process_item config fn options total (results, completed) item s =
      (Return (acc', completed + 1), s') /\
    log s' = log s ++ trace /\
    progress_reports trace = expected_reports options total completed 1.
Proof.
  intros Hcont.
  assert (Hkeep : negb (default true (continueOnError options)) = false).
  { destruct (continueOnError options) as [[|]|];
      [reflexivity|congruence|reflexivity]. }
  unfold process_item, try_catch, bind, expected_reports. rewrite Hkeep.
  destruct (execute_reports item s) as (trace & Hlog & Hnone).
  destruct (execute config (fn item) s) as [[v|e] s1]; cbn [snd] in Hlog.
  - unfold ret. destruct (onProgress options); cbn.
    + eexists _, (trace ++ [ProgressReported (completed + 1) total]), _.
      split; [reflexivity|]. cbn. rewrite Hlog, <- app_assoc.
      split; [reflexivity|].
      rewrite progress_reports_app, Hnone. reflexivity.
    + eexists _, trace, _. split; [reflexivity|].
      split; [exact Hlog|exact Hnone].
  - destruct (onError options), (onProgress options); cbn.
    + eexists _, (trace ++ [ErrorReported item (toError e)]
                    ++ [ProgressReported (completed + 1) total]), _.
      split; [reflexivity|]. cbn. rewrite Hlog, <- !app_assoc.
      split; [reflexivity|].
      rewrite progress_reports_app, Hnone. reflexivity.
    + eexists _, (trace ++ [ErrorReported item (toError e)]), _.
      split; [reflexivity|]. cbn. rewrite Hlog, <- !app_assoc.
      split; [reflexivity|].
      rewrite progress_reports_app, Hnone. reflexivity.
    + eexists _, (trace ++ [ProgressReported (completed + 1) total]), _.
      split; [reflexivity|]. cbn. rewrite Hlog, <- !app_assoc.
      split; [reflexivity|].
      rewrite progress_reports_app, Hnone. reflexivity.
    + eexists _, trace, _. split; [reflexivity|].
      split; [exact Hlog|exact Hnone].
Qed.

Lemma expected_reports_add (options : BatchOptions) (total completed : Z)
    (n m : nat) :
  expected_reports options total completed (n + m) =
    expected_reports options total completed n
    ++ expected_reports options total (completed + Z.of_nat n) m.
Proof.
  unfold expected_reports. destruct (onProgress options); [|reflexivity].
  rewrite Nat2Z.inj_add, seqZ_app by lia. rewrite fmap_app.
  do 3 f_equal. lia.
Qed.

Lemma process_batch_reports (options : BatchOptions) (total : Z)
    (batch : list T) :
  continueOnError options <> Some false ->
  forall (results : gmap T (R + thrown)) (completed : Z) (s : state),
    exists (acc' : gmap T (R + thrown)) (trace : list event) (s' : state),
      process_batch config fn options total (results, completed) batch s =
        (Return (acc', completed + Z.of_nat (length batch)), s') /\
      log s' = log s ++ trace /\
      progress_reports trace =
        expected_reports options total completed (length batch).
Proof.
  intros Hcont. induction batch as [|item rest IH];
    intros results completed s.
  - exists results, [], s. cbn. rewrite Z.add_0_r, app_nil_r.
    split_and!; try reflexivity.
    unfold expected_reports. destruct (onProgress options); reflexivity.
  - cbn [process_batch]. unfold bind.
    destruct (process_item_reports options total results completed item s
                Hcont) as (acc1 & trace1 & s1 & -> & Hlog1 & Hrep1).
    destruct (IH acc1 (completed + 1) s1)
      as (acc' & trace' & s' & Hrun & Hlog' & Hrep').
    exists acc', (trace1 ++ trace'), s'.
    split.
    { rewrite Hrun. do 3 f_equal. cbn [length]. lia. }
    split.
    { rewrite Hlog', Hlog1, app_assoc. reflexivity. }
    rewrite progress_reports_app, Hrep1, Hrep'.
    change (length (item :: rest)) with (1 + length rest)%nat.
    rewrite expected_reports_add. reflexivity.
Qed.

Lemma process_batches_reports (options : BatchOptions) (total : Z)
    (batches : list (list T)) :
  continueOnError options <> Some false ->
  forall (results : gmap T (R + thrown)) (completed : Z) (s : state),
    exists (acc' : gmap T (R + thrown) * Z) (trace : list event)
           (s' : state),
      process_batches config fn options total (results, completed) batches s
        = (Return acc', s') /\
      log s' = log s ++ trace /\
      progress_reports trace =
        expected_reports options total completed (length (concat batches)).
Proof.
  intros Hcont. induction batches as [|batch rest IH];
    intros results completed s.
  - exists (results, completed), [], s. cbn. rewrite app_nil_r.
    split_and!; try reflexivity.
    unfold expected_reports. destruct (onProgress options); reflexivity.
  - cbn [process_batches]. unfold bind at 1.
    destruct (process_batch_reports options total batch Hcont results
                completed s) as (acc1 & trace1 & s1 & -> & Hlog1 & Hrep1).
    unfold bind.
    set (pause := match rest with
                  | [] => ret tt
                  | _ :: _ => sleep BetweenBatches (interBatchDelayMs config)
                  end).
    assert (Hpause : exists pauses s2,
      pause s1 = (Return tt, s2) /\ log s2 = log s1 ++ pauses /\
      progress_reports pauses = []).
    { subst pause. destruct rest.
      - exists [], s1. rewrite app_nil_r. split_and!; reflexivity.
      - eexists [_], _. split_and!; reflexivity. }
    destruct Hpause as (pauses & s2 & -> & Hlog2 & Hrep2).
    destruct (IH acc1 (completed + Z.of_nat (length batch)) s2)
      as (acc' & trace' & s' & Hrun & Hlog' & Hrep').
    exists acc', (trace1 ++ pauses ++ trace'), s'.
    split; [exact Hrun|].
    split.
    { rewrite Hlog', Hlog2, Hlog1, <- !app_assoc. reflexivity. }
    rewrite !progress_reports_app, Hrep1, Hrep2, Hrep'.
    cbn [concat app]. rewrite length_app, expected_reports_add.
    reflexivity.
Qed.

(** X11: with [continueOnError] left alone or true and a positive batch
    size, [executeBatch] calls [onProgress], when it is given, once per
    item, in order, with the counts [1, 2, ..., n] and the total [n], also
    for the items that failed; without [onProgress] nothing is reported. *)
Theorem executeBatch_progress_reports
    (fuel : nat) (items : list T) (options : BatchOptions) (s : state) :
  0 < batchSize config ->
  continueOnError options <> Some false ->
  (length items <= fuel)%nat ->
  let n := Z.of_nat (length items) in
  exists (results : gmap T (R + thrown)) (trace : list event) (s' : state),
    executeBatch config fuel items fn options s = Some (Return results, s') /\
    log s' = log s ++ trace /\
    progress_reports trace =
      if onProgress options
      then (fun k => (k, n)) <$> seqZ 1 n
      else [].
Proof.
  intros Hbs Hcont Hfuel n.
  destruct (split_batches_spec config items Hbs fuel 0)
    as (batches & Hsplit & Hcat); [lia|lia|].
  rewrite drop_0 in Hcat.
  destruct (process_batches_reports options n batches Hcont ∅ 0 s)
    as ([results completed] & trace & s' & Hrun & Hlog & Hrep).
  exists results, trace, s'.
  split.
  { unfold executeBatch. rewrite Hsplit. fold n.
    unfold results_map in *. rewrite Hrun. reflexivity. }
  split; [exact Hlog|].
  rewrite Hrep, Hcat. reflexivity.
Qed.

End LimiterReports.

(* ====================================================================== *)
(** ** Further properties of the DCF calculator *)
(* ====================================================================== *)

Local Open Scope Q_scope.

(** X12: whenever [calculateDCF] returns, the base scenario of its
    sensitivity carries the discount rate and the growth rate of the
    assumptions, and its intrinsic value is the headline intrinsic value:
    the two computations of the value agree on every input. *)
Theorem base_scenario_is_headline (inputs : DCFInputs) (o : DCFOutputs) :
  calculateDCF inputs = Return o ->
  exists rbear rbase rbull : SensitivityRow,
    sensitivity o = [rbear; rbase; rbull] /\
    scenario rbear = bear /\ scenario rbase = base /\ scenario rbull = bull /\
    s_discountRate rbase = a_discountRate (assumptions o) /\
    growthRate rbase = a_fcfGrowthRate (assumptions o) /\
    s_intrinsicValue rbase = intrinsicValue o.
Proof.
  intros Ho.
  destruct (calculateDCF_returns inputs o Ho)
    as (py & _ & _ & Ha & _ & _ & _ & _ & Hv & Hs).
  cbv zeta in *. rewrite Hs, Hv, Ha. unfold calculateSensitivity.
  eexists _, _, _. split; [reflexivity|]. split_and!; reflexivity.
Qed.

(** X13: whenever [calculateDCF] returns, the horizon among its assumptions
    is a whole number of at least 1 (5 when the input gives none, 0 or
    NaN; the number given otherwise), the table has one row per year
    [1 .. horizon] in order, and the terminal growth rate is neither 0 nor
    NaN (3 when the input gives none, 0 or NaN); an override of the
    discount rate is taken as it is, 0 included. *)
Theorem calculateDCF_output_shape (inputs : DCFInputs) (o : DCFOutputs) :
  calculateDCF inputs = Return o ->
  let years := a_projectionYears (assumptions o) in
  (1 <= years)%Z /\
  (DCF.projectionYears inputs = None \/
   DCF.projectionYears inputs = Some (int 0) \/
   DCF.projectionYears inputs = Some NaN ->
   years = 5%Z) /\
  (forall x, DCF.projectionYears inputs = Some x -> truthy x = true ->
     whole x = Some years) /\
  map year (projectedCashFlows o) = seqZ 1 years /\
  truthy (a_terminalGrowthRate (assumptions o)) = true /\
  (forall x, DCF.terminalGrowthRate inputs = Some x -> truthy x = false ->
     a_terminalGrowthRate (assumptions o) = int 3) /\
  (DCF.terminalGrowthRate inputs = None ->
     a_terminalGrowthRate (assumptions o) = int 3) /\
  (forall x, DCF.discountRate inputs = Some x ->
     a_discountRate (assumptions o) = x).
Proof.
  intros Ho.
  destruct (calculateDCF_returns inputs o Ho)
    as (py & Hh & Hpy & Ha & Hrows & _).
  cbv zeta in *. rewrite Ha, Hrows. cbn [a_projectionYears
    a_terminalGrowthRate a_discountRate].
  split; [lia|].
  split.
  { intros Hdefault.
    assert (Hfive : horizon inputs = int 5).
    { unfold horizon. destruct Hdefault as [-> | [-> | ->]]; reflexivity. }
    rewrite Hfive in Hh. vm_compute in Hh. congruence. }
  split.
  { intros x Hx Htruthy. unfold horizon, or_default in Hh.
    rewrite Hx, Htruthy in Hh. exact Hh. }
  split.
  { clear. generalize 1%Z as y.
    intros y.
    destruct (Z.le_gt_cases py 0) as [Hle|Hgt].
    - rewrite Z2Nat.nonpos by exact Hle.
      unfold seqZ. rewrite Z2Nat.nonpos by exact Hle. reflexivity.
    - rewrite <- (Z2Nat.id py) at 2 by lia.
      generalize (Z.to_nat py) as n. clear. intros n. revert y.
      induction n as [|n IH]; intros y; [reflexivity|].
      cbn [project_loop map year project_year].
      rewrite IH, Nat2Z.inj_succ.
      rewrite (seqZ_cons y (Z.succ (Z.of_nat n))) by lia.
      rewrite Z.pred_succ. reflexivity. }
  split.
  { unfold or_default.
    destruct (DCF.terminalGrowthRate inputs) as [x|]; [|reflexivity].
    destruct (truthy x) eqn:E; [exact E|reflexivity]. }
  split.
  { intros x -> Hx. unfold or_default. rewrite Hx. reflexivity. }
  split.
  { intros ->. reflexivity. }
  intros x ->. reflexivity.
Qed.

Lemma sumQ_nonneg (f g d : Q) (n : nat) :
  0 <= f -> 0 <= gfQ g -> 0 < gfQ d ->
  forall (y : Z) (acc : Q), acc <= sumQ f g d n y acc.
Proof.
  intros Hf Hg Hd. induction n as [|n IH]; intros y acc.
  - cbn. lra.
  - cbn [sumQ].
    assert (0 <= f * gfQ g ^ y / gfQ d ^ y).
    { apply Qdiv_nonneg; [|apply Qpower_0_lt; exact Hd].
      apply Qmult_le_0_compat; [exact Hf|apply Qpower_0_le; exact Hg]. }
    specialize (IH (y + 1)%Z (acc + f * gfQ g ^ y / gfQ d ^ y)). lra.
Qed.

Lemma estimateFCFGrowthRate_finite (rg : option number) (t : Q) :
  rg <> Some NaN -> -100 < t ->
  exists g : Q, estimateFCFGrowthRate rg (Fin t) = Fin g /\ -100 < g.
Proof.
  intros Hrg Ht. unfold estimateFCFGrowthRate.
  destruct rg as [[q| | |]|].
  - unfold int. rewrite min_fin_eq.
    destruct (lt (Fin (minQ q (inject_Z 25))) (Fin (inject_Z 0))) eqn:E.
    + exists t. split; [reflexivity|lra].
    + apply lt_fin_false in E. unfold inject_Z in *.
      eexists. split; [reflexivity|]. lra.
  - exists (25 * (7 # 10) + t * (3 # 10)). split; [reflexivity|]. lra.
  - exists t. split; [reflexivity|lra].
  - congruence.
  - unfold int. cbn [add]. rewrite div_fin by (unfold inject_Z; lra).
    eexists. split; [reflexivity|].
    assert (Hmid : (t + inject_Z 8) / inject_Z 2 == (t + 8) * (1 # 2))
      by reflexivity.
    rewrite Hmid. lra.
Qed.

(** X14: on moderate inputs (a free cash flow and a share count between 1
    and 10^15, debt and cash of magnitude at most 10^15, a revenue growth
    that is not NaN, a whole horizon of 1 to 100 years, rates between -50
    and 100 with the terminal growth at least a hundredth of a point below
    the discount rate) [calculateDCF] returns finite values: the intrinsic
    value is the Gordon-growth value [ivQ] of its assumptions, the
    enterprise value and the terminal value are positive, and the equity
    value is the enterprise value less the net debt. *)
Theorem calculateDCF_valid_inputs
    (inputs : DCFInputs) (f sh debt c d t : Q) (py : Z) :
  to_number (freeCashFlow inputs) = Fin f -> moderate_amount f ->
  to_number (sharesOutstanding inputs) = Fin sh -> moderate_amount sh ->
  to_number (totalDebt inputs) = Fin debt -> moderate_balance debt ->
  to_number (cash inputs) = Fin c -> moderate_balance c ->
  DCF.revenueGrowth inputs <> Some NaN ->
  calculateWACC (marketCap inputs) (DCF.discountRate inputs) = Fin d ->
  moderate_rate d ->
  or_default (DCF.terminalGrowthRate inputs) (int 3) = Fin t ->
  moderate_rate t ->
  whole (horizon inputs) = Some py -> moderate_horizon py ->
  t + (1 # 100) <= d ->
  exists (o : DCFOutputs) (g ev tv : Q),
    calculateDCF inputs = Return o /\
    a_fcfGrowthRate (assumptions o) = Fin g /\ -100 < g /\
    intrinsicValue o = Fin (ivQ f sh (debt - c) py d g t) /\
    enterpriseValue o = Fin ev /\ 0 < ev /\
    equityValue o = Fin (ev - (debt - c)) /\
    ivQ f sh (debt - c) py d g t == (ev - (debt - c)) / sh /\
    nominal (terminalValue o) = Fin tv /\ 0 < tv.
Proof.
  intros Hf [Hfpos _] Hsh [Hshpos _] Hdebt _ Hcash _ Hrg Hd [Hd1 _]
    Ht [Ht1 _] Hh [Hpy Hpy100] Htd.
  assert (Htl : -100 < t) by lra.
  destruct (estimateFCFGrowthRate_finite (DCF.revenueGrowth inputs) t Hrg Htl)
    as (g & Hg & Hgl).
  pose proof (gfQ_pos d ltac:(lra)) as Hgd.
  pose proof (gfQ_pos g Hgl) as Hgg.
  pose proof (gfQ_pos t Htl) as Hgt.
  pose proof (Qpower_0_lt (gfQ g) py Hgg) as Hpg.
  pose proof (Qpower_0_lt (gfQ d) py Hgd) as Hpd.
  assert (Hden : 0 < d / inject_Z 100 - t / inject_Z 100)
    by (rewrite !percent_eq; lra).
  destruct (calculateDCF_at inputs py Hh ltac:(lia))
    as (o & Ho & Ha & _ & Htv & Hev & Heq & Hiv & _).
  cbv zeta in Ha, Htv, Hev, Heq, Hiv.
  rewrite Hd, Ht, Hg in Ha, Htv, Hev, Hiv.
  rewrite Hf in Htv, Hev. rewrite Hdebt, Hcash in Heq, Hiv.
  unfold sub in Hiv. cbn [neg add] in Hiv.
  rewrite (calcIntrinsicValue_fin inputs f sh) in Hiv
    by (try assumption; lra || lia).
  unfold int in Hev. rewrite sumPV_loop_fin in Hev by (exact Hgd || lia).
  rewrite !growth_factor_fin, !pow_fin in Htv, Hev by lia.
  unfold int, sub in Htv, Hev. cbn [mul neg add] in Htv, Hev.
  rewrite (div_fin d), (div_fin t) in Htv, Hev by (unfold inject_Z; lra).
  cbn [neg add] in Htv, Hev.
  rewrite div_fin in Htv, Hev by (unfold Qminus in Hden; lra).
  rewrite div_fin in Htv, Hev by lra.
  cbn [add] in Hev. rewrite Hev in Heq.
  unfold sub in Heq. cbn [neg add] in Heq.
  set (num := f * gfQ g ^ py * gfQ t) in *.
  set (den := d / inject_Z 100 + - (t / inject_Z 100)) in *.
  set (sum := sumQ f g d (Z.to_nat py) 1 (inject_Z 0)) in *.
  assert (Hnum : 0 < num).
  { subst num. apply Qmult_lt_0_compat; [|exact Hgt].
    apply Qmult_lt_0_compat; [lra|assumption]. }
  assert (Hden' : 0 < den) by (subst den; unfold Qminus in Hden; exact Hden).
  assert (Htvpos : 0 < num / den).
  { apply Qlt_shift_div_l; lra. }
  assert (Htvpv : 0 < num / den / gfQ d ^ py).
  { apply Qlt_shift_div_l; lra. }
  assert (Hsum : 0 <= sum).
  { subst sum. pose proof (sumQ_nonneg f g d (Z.to_nat py)
      ltac:(lra) ltac:(lra) Hgd 1%Z (inject_Z 0)) as Hs.
    unfold inject_Z in Hs at 1. exact Hs. }
  exists o, g, (sum + num / den / gfQ d ^ py), (num / den).
  split; [exact Ho|].
  split; [rewrite Ha; reflexivity|]. split; [exact Hgl|].
  split; [exact Hiv|].
  split; [exact Hev|]. split; [lra|].
  split; [exact Heq|].
  split; [reflexivity|].
  split; [rewrite Htv; reflexivity|exact Htvpos].
Qed.

(** *** The recommendation as a function of the value *)

Lemma rank_of_upside (u : Q) (r : Recommendation) :
  r = (if ge (Fin u) (int 30) then StrongBuy
       else if ge (Fin u) (int 15) then Buy
       else if ge (Fin u) (int (-15)) then Hold
       else if ge (Fin u) (int (-30)) then Sell
       else StrongSell) ->
  (30 <= u -> rank r = 4%nat) /\
  (15 <= u -> (3 <= rank r)%nat) /\
  (-15 <= u -> (2 <= rank r)%nat) /\
  (-30 <= u -> (1 <= rank r)%nat) /\
  (u < 30 -> (rank r <= 3)%nat) /\
  (u < 15 -> (rank r <= 2)%nat) /\
  (u < -15 -> (rank r <= 1)%nat) /\
  (u < -30 -> rank r = 0%nat).
Proof.
  intros ->. unfold ge, int.
  destruct (le (Fin (inject_Z 30)) (Fin u)) eqn:E1;
    [apply le_fin in E1|apply le_fin_false in E1];
  (destruct (le (Fin (inject_Z 15)) (Fin u)) eqn:E2;
    [apply le_fin in E2|apply le_fin_false in E2]);
  (destruct (le (Fin (inject_Z (-15))) (Fin u)) eqn:E3;
    [apply le_fin in E3|apply le_fin_false in E3]);
  (destruct (le (Fin (inject_Z (-30))) (Fin u)) eqn:E4;
    [apply le_fin in E4|apply le_fin_false in E4]);
  unfold inject_Z in *; cbn [rank];
  split_and!; intros; try lia; exfalso; lra.
Qed.

(** X15: for a positive current price the recommendation never gets worse
    when the intrinsic value goes up: the upside does not decrease, and
    the recommendation moves along Strong Sell, Sell, Hold, Buy, Strong
    Buy in that direction only. *)
Theorem assessValuation_monotone (v1 v2 cp : Q) :
  0 < cp -> v1 <= v2 ->
  le (upside (assessValuation (Fin v1) (Fin cp)))
     (upside (assessValuation (Fin v2) (Fin cp))) = true /\
  (rank (recommendation (assessValuation (Fin v1) (Fin cp))) <=
   rank (recommendation (assessValuation (Fin v2) (Fin cp))))%nat.
Proof.
  intros Hcp Hv.
  pose proof (recommendation_of_upside (Fin v1) (Fin cp)) as R1.
  pose proof (recommendation_of_upside (Fin v2) (Fin cp)) as R2.
  cbv zeta in R1, R2. rewrite !upside_fin in * by exact Hcp.
  set (u1 := (v1 - cp) / cp * inject_Z 100) in *.
  set (u2 := (v2 - cp) / cp * inject_Z 100) in *.
  assert (Hu : u1 <= u2).
  { subst u1 u2. apply Qmult_le_compat_r; [|unfold inject_Z; lra].
    apply Qdiv_le_r; lra. }
  split; [apply le_fin; exact Hu|].
  apply rank_of_upside in R1. apply rank_of_upside in R2.
  destruct R1 as (A1 & A2 & A3 & A4 & A5 & A6 & A7 & A8).
  destruct R2 as (B1 & B2 & B3 & B4 & B5 & B6 & B7 & B8).
  destruct (Qlt_le_dec u1 (-30)) as [|H30]; [rewrite A8 by assumption; lia|].
  specialize (B4 ltac:(lra)).
  destruct (Qlt_le_dec u1 (-15)) as [|H15];
    [specialize (A7 ltac:(assumption)); lia|].
  specialize (B3 ltac:(lra)).
  destruct (Qlt_le_dec u1 15) as [|H15'];
    [specialize (A6 ltac:(assumption)); lia|].
  specialize (B2 ltac:(lra)).
  destruct (Qlt_le_dec u1 30) as [|H30'];
    [specialize (A5 ltac:(assumption)); lia|].
  rewrite B1 by lra.
  destruct (recommendation (assessValuation (Fin v1) (Fin cp))); cbn; lia.
Qed.

(** X16: outside the positive prices.  A NaN value or price gives Strong
    Sell, since every comparison with NaN fails; for a negative price the
    order is reversed, a higher value never giving a better
    recommendation. *)
Theorem assessValuation_degenerate :
  (forall cp, recommendation (assessValuation NaN cp) = StrongSell) /\
  (forall iv, recommendation (assessValuation iv NaN) = StrongSell) /\
  (forall v1 v2 cp : Q, cp < 0 -> v1 <= v2 ->
     (rank (recommendation (assessValuation (Fin v2) (Fin cp))) <=
      rank (recommendation (assessValuation (Fin v1) (Fin cp))))%nat).
Proof.
  split_and!.
  - intros cp. reflexivity.
  - intros [v| | |]; reflexivity.
  - intros v1 v2 cp Hcp Hv.
    pose proof (recommendation_of_upside (Fin v1) (Fin cp)) as R1.
    pose proof (recommendation_of_upside (Fin v2) (Fin cp)) as R2.
    cbv zeta in R1, R2.
    assert (U : forall v, upside (assessValuation (Fin v) (Fin cp)) =
                          Fin ((v - cp) / cp * inject_Z 100)).
    { intros v. unfold assessValuation. cbn [upside].
      unfold sub, neg, add. rewrite div_fin by lra. reflexivity. }
    rewrite !U in *.
    set (u1 := (v1 - cp) / cp * inject_Z 100) in *.
    set (u2 := (v2 - cp) / cp * inject_Z 100) in *.
    assert (Hu : u2 <= u1).
    { subst u1 u2. apply Qmult_le_compat_r; [|unfold inject_Z; lra].
      unfold Qdiv. rewrite !(Qmult_comm _ (/ cp)).
      assert (Hi : / cp < 0).
      { assert (H1 : 0 < / - cp) by (apply Qinv_lt_0_compat; lra).
        assert (H2 : / - cp == - / cp) by (field; lra).
        lra. }
      nra. }
    apply rank_of_upside in R1. apply rank_of_upside in R2.
    destruct R1 as (A1 & A2 & A3 & A4 & A5 & A6 & A7 & A8).
    destruct R2 as (B1 & B2 & B3 & B4 & B5 & B6 & B7 & B8).
    destruct (Qlt_le_dec u2 (-30)) as [|H30]; [rewrite B8 by assumption; lia|].
    specialize (A4 ltac:(lra)).
    destruct (Qlt_le_dec u2 (-15)) as [|H15];
      [specialize (B7 ltac:(assumption)); lia|].
    specialize (A3 ltac:(lra)).
    destruct (Qlt_le_dec u2 15) as [|H15'];
      [specialize (B6 ltac:(assumption)); lia|].
    specialize (A2 ltac:(lra)).
    destruct (Qlt_le_dec u2 30) as [|H30'];
      [specialize (B5 ltac:(assumption)); lia|].
    rewrite A1 by lra.
    destruct (recommendation (assessValuation (Fin v2) (Fin cp))); cbn; lia.
Qed.

(** *** The discount rate and the growth rate on every input *)

(** X17: without an override [calculateWACC] returns one of its five
    rates whatever the market cap is.  An absent, [null], NaN or
    negative-infinite market cap fails every comparison and receives the
    small-company rate 14; an infinite one receives 9. *)
Theorem calculateWACC_range :
  (forall mc : field, In (calculateWACC mc None) wacc_tiers) /\
  calculateWACC Undefined None = int 14 /\
  calculateWACC Null None = int 14 /\
  calculateWACC (Num NaN) None = int 14 /\
  calculateWACC (Num NInf) None = int 14 /\
  calculateWACC (Num PInf) None = int 9 /\
  (forall mc : field,
     le (int 9) (calculateWACC mc None) = true /\
     le (calculateWACC mc None) (int 14) = true).
Proof.
  assert (R : forall mc : field, In (calculateWACC mc None) wacc_tiers).
  { intros mc. unfold calculateWACC, wacc_tiers.
    destruct (gt (to_number mc) (int 200000000000)); [cbn; tauto|].
    destruct (gt (to_number mc) (int 50000000000)); [cbn; tauto|].
    destruct (gt (to_number mc) (int 10000000000)); [cbn; tauto|].
    destruct (gt (to_number mc) (int 2000000000)); cbn; tauto. }
  split_and!; try reflexivity; [exact R|].
  intros mc. specialize (R mc). unfold wacc_tiers in R. cbn [In] in R.
  destruct R as [<-|[<-|[<-|[<-|[<-|[]]]]]]; split; reflexivity.
Qed.

(** X18: the shape of [estimateFCFGrowthRate] in the revenue growth, for
    a finite terminal growth rate [t].  From zero up the estimate does not
    decrease and is constant from 25 on; every negative revenue growth
    gives [t] itself.  So the estimate is not monotone at zero: for a
    positive [t], a revenue growth of zero gives a lower estimate than any
    negative one. *)
Theorem estimateFCFGrowthRate_shape (t : Q) :
  (forall rg1 rg2 : Q, 0 <= rg1 -> rg1 <= rg2 ->
     le (estimateFCFGrowthRate (Some (Fin rg1)) (Fin t))
        (estimateFCFGrowthRate (Some (Fin rg2)) (Fin t)) = true) /\
  (forall rg : Q, 25 <= rg ->
     same (estimateFCFGrowthRate (Some (Fin rg)) (Fin t))
          (estimateFCFGrowthRate (Some (int 25)) (Fin t))) /\
  (forall rg : Q, rg < 0 ->
     estimateFCFGrowthRate (Some (Fin rg)) (Fin t) = Fin t) /\
  (forall rg : Q, rg < 0 -> 0 < t ->
     lt (estimateFCFGrowthRate (Some (int 0)) (Fin t))
        (estimateFCFGrowthRate (Some (Fin rg)) (Fin t)) = true).
Proof.
  assert (Hpos : forall rg : Q, 0 <= rg ->
    estimateFCFGrowthRate (Some (Fin rg)) (Fin t) =
      Fin (minQ rg (inject_Z 25) * (7 # 10) + t * (3 # 10))).
  { intros rg Hrg. unfold estimateFCFGrowthRate, int.
    rewrite min_fin_eq.
    destruct (minQ_spec rg (inject_Z 25)) as (_ & _ & Hm).
    destruct (lt (Fin (minQ rg (inject_Z 25))) (Fin (inject_Z 0))) eqn:E.
    - apply lt_fin in E. unfold inject_Z in *.
      destruct Hm as [Hm|Hm]; rewrite Hm in E; lra.
    - reflexivity. }
  assert (Hneg : forall rg : Q, rg < 0 ->
    estimateFCFGrowthRate (Some (Fin rg)) (Fin t) = Fin t).
  { intros rg Hrg. unfold estimateFCFGrowthRate, int.
    rewrite min_fin_eq.
    destruct (minQ_spec rg (inject_Z 25)) as (Hm & _ & _).
    destruct (lt (Fin (minQ rg (inject_Z 25))) (Fin (inject_Z 0))) eqn:E.
    - reflexivity.
    - apply lt_fin_false in E. unfold inject_Z in *. lra. }
  split_and!.
  - intros rg1 rg2 H1 H12. rewrite !Hpos by lra. apply le_fin.
    destruct (minQ_spec rg1 (inject_Z 25)) as (A1 & A2 & A3).
    destruct (minQ_spec rg2 (inject_Z 25)) as (B1 & B2 & B3).
    unfold inject_Z in *.
    destruct A3 as [A3|A3], B3 as [B3|B3]; rewrite A3, B3; lra.
  - intros rg Hrg. rewrite Hpos by lra.
    unfold int. rewrite Hpos by (unfold inject_Z; lra).
    cbn [same].
    destruct (minQ_spec rg (inject_Z 25)) as (A1 & A2 & A3).
    destruct (minQ_spec (inject_Z 25) (inject_Z 25)) as (B1 & B2 & B3).
    unfold inject_Z in *.
    destruct A3 as [A3|A3], B3 as [B3|B3]; rewrite A3, B3; lra.
  - exact Hneg.
  - intros rg H1 Ht. rewrite (Hneg rg H1). unfold int.
    rewrite (Hpos (inject_Z 0)) by (unfold inject_Z; lra).
    apply lt_fin.
    destruct (minQ_spec (inject_Z 0) (inject_Z 25)) as (A1 & A2 & A3).
    unfold inject_Z in *. lra.
Qed.

(** X19: the bull scenario is well defined whatever the base rates are.
    Its discount rate is floored at 5 and its terminal growth capped at 4,
    so the rate gap is at least one point; on moderate magnitudes (a free
    cash flow and a share count between 1 and 10^15, a net debt of
    magnitude at most 10^15, base rates between -50 and 100, 1 to 100
    years) the bull value is the finite Gordon-growth value at the bull
    rates, also when the base rates are inverted. *)
Theorem bull_scenario_finite
    (inputs : DCFInputs) (f sh nd d g t : Q) (py : Z) :
  to_number (freeCashFlow inputs) = Fin f -> moderate_amount f ->
  to_number (sharesOutstanding inputs) = Fin sh -> moderate_amount sh ->
  moderate_balance nd ->
  moderate_rate d -> moderate_rate g -> moderate_rate t ->
  moderate_horizon py ->
  exists bear base_row bull_row,
    calculateSensitivity inputs (Fin d) (Fin g) (Fin t) py (Fin nd) =
      [bear; base_row; bull_row] /\
    scenario bull_row = bull /\
    s_discountRate bull_row = Fin (maxQ (d - 2) 5) /\
    growthRate bull_row = Fin (minQ (g + 2) 25) /\
    s_intrinsicValue bull_row =
      Fin (ivQ f sh nd py (maxQ (d - 2) 5) (minQ (g + 2) 25) (minQ (t + 1) 4)) /\
    1 <= maxQ (d - 2) 5 - minQ (t + 1) 4.
Proof.
  intros Hf _ Hsh [Hshpos _] _ _ _ _ [Hpy _].
  destruct (maxQ_spec (d - 2) 5) as (_ & Hd5 & _).
  destruct (minQ_spec (t + 1) 4) as (_ & Ht4 & _).
  unfold calculateSensitivity. do 3 eexists. split; [reflexivity|].
  cbn [scenario s_discountRate growthRate s_intrinsicValue].
  unfold sub, int. cbn [neg add]. rewrite !max_fin, !min_fin_eq.
  split; [reflexivity|]. split; [reflexivity|]. split; [reflexivity|].
  split; [|lra].
  apply calcIntrinsicValue_fin; try assumption; lra || lia.
Qed.

(* ====================================================================== *)
(** ** Further properties of the schema *)
(* ====================================================================== *)

Local Open Scope string_scope.

Lemma split_on_cons (sep : ascii) (s : string) :
  exists seg segs, split_on sep s = seg :: segs.
Proof.
  destruct s as [|c rest]; cbn [split_on]; [eauto|].
  destruct (Ascii.eqb c sep); [eauto|].
  unfold push_char. destruct (split_on sep rest); eauto.
Qed.

Lemma join_cons (sep : ascii) (seg seg' : string) (segs : list string) :
  join sep (seg :: seg' :: segs) =
    seg ++ String sep (join sep (seg' :: segs)).
Proof. reflexivity. Qed.

Lemma join_split_on (sep : ascii) (s : string) :
  join sep (split_on sep s) = s.
Proof.
  induction s as [|c rest IH]; [reflexivity|].
  cbn [split_on].
  destruct (split_on_cons sep rest) as (seg & segs & E).
  rewrite E in *.
  destruct (Ascii.eqb_spec c sep) as [->|_].
  - rewrite join_cons, IH. reflexivity.
  - unfold push_char. destruct segs as [|seg' segs].
    + cbn [join] in *. rewrite IH. reflexivity.
    + rewrite join_cons. rewrite join_cons in IH.
      rewrite <- IH. reflexivity.
Qed.

Lemma split_on_no_sep (sep : ascii) (s seg : string) :
  In seg (split_on sep s) -> has_char sep seg = false.
Proof.
  revert seg. induction s as [|c rest IH]; intros seg.
  - cbn. intros [<-|[]]. reflexivity.
  - cbn [split_on].
    destruct (Ascii.eqb_spec c sep) as [->|Hne].
    + intros [<-|Hin]; [reflexivity|apply IH; exact Hin].
    + destruct (split_on_cons sep rest) as (seg0 & segs & E).
      rewrite E in *. cbn [push_char].
      intros [<-|Hin].
      * cbn [has_char].
        apply Ascii.eqb_neq in Hne. rewrite Hne.
        apply IH. left. reflexivity.
      * apply IH. right. exact Hin.
Qed.

Lemma has_char_trim_start (c : ascii) (s : string) :
  has_char c s = false -> has_char c (trim_start s) = false.
Proof.
  induction s as [|c' rest IH]; [reflexivity|].
  intros Hs. cbn [trim_start].
  destruct (Ascii.is_space c'); [|exact Hs].
  apply IH. cbn [has_char] in Hs. apply orb_false_iff in Hs. tauto.
Qed.

Lemma has_char_trim_end (c : ascii) (s : string) :
  has_char c s = false -> has_char c (trim_end s) = false.
Proof.
  induction s as [|c' rest IH]; [reflexivity|].
  intros Hs. cbn [has_char] in Hs. apply orb_false_iff in Hs.
  destruct Hs as [Hc Hrest]. specialize (IH Hrest).
  cbn [trim_end].
  destruct (trim_end rest) as [|c'' rest''].
  - destruct (Ascii.is_space c'); [reflexivity|].
    cbn [has_char]. rewrite Hc. reflexivity.
  - cbn [has_char] in *. rewrite Hc. exact IH.
Qed.

Lemma trim_end_idempotent (s : string) : trim_end (trim_end s) = trim_end s.
Proof.
  induction s as [|c rest IH]; [reflexivity|].
  cbn [trim_end].
  destruct (trim_end rest) as [|c' rest'] eqn:E.
  - destruct (Ascii.is_space c) eqn:Hc; [reflexivity|].
    cbn [trim_end]. rewrite Hc. reflexivity.
  - change (trim_end (String c (String c' rest')))
      with (match trim_end (String c' rest') with
            | EmptyString =>
                if Ascii.is_space c then EmptyString else String c EmptyString
            | String c1 rest1 => String c (String c1 rest1)
            end).
    rewrite IH. reflexivity.
Qed.

Lemma trim_start_head (s : string) :
  trim_start s = EmptyString \/
  exists c rest, trim_start s = String c rest /\ Ascii.is_space c = false.
Proof.
  induction s as [|c rest IH]; [left; reflexivity|].
  cbn [trim_start]. destruct (Ascii.is_space c) eqn:Hc; [exact IH|].
  right. eauto.
Qed.

Lemma trim_end_head (c : ascii) (rest : string) :
  Ascii.is_space c = false ->
  exists rest', trim_end (String c rest) = String c rest'.
Proof.
  intros Hc. cbn [trim_end].
  destruct (trim_end rest); [rewrite Hc|]; eauto.
Qed.

Lemma trim_idempotent (s : string) : trim (trim s) = trim s.
Proof.
  unfold trim.
  destruct (trim_start_head s) as [E|(c & rest & E & Hc)]; rewrite E.
  - reflexivity.
  - destruct (trim_end_head c rest Hc) as (rest' & E').
    rewrite E'. cbn [trim_start]. rewrite Hc.
    rewrite <- E'. apply trim_end_idempotent.
Qed.

(** X20: the statements that [initializeDatabase] executes.  Splitting a
    script on semicolons loses nothing (joining the segments gives the
    script back); every statement executed is a trimmed segment, is not
    empty, holds no semicolon and is left as it is by another [trim].
    For [SCHEMA_SQL] these are thirteen statements, each a [CREATE TABLE]
    or [CREATE INDEX] guarded by [IF NOT EXISTS], and the tables they
    create are the five tables of the schema. *)
Theorem initializeDatabase_statements :
  (forall sql : string, join ";" (split_on ";" sql) = sql) /\
  (forall sql s : string, In s (statements sql) ->
     s <> EmptyString /\ has_char ";" s = false /\ trim s = s /\
     exists seg, In seg (split_on ";" sql) /\ s = trim seg) /\
  length (statements SCHEMA_SQL) = 13%nat /\
  forallb creates_if_absent (statements SCHEMA_SQL) = true /\
  length (tables SCHEMA_SQL) = 5%nat /\
  omap parse_table (map (strip_comments false) (statements SCHEMA_SQL)) =
    tables SCHEMA_SQL.
Proof.
  split_and!.
  - intros sql. apply join_split_on.
  - intros sql s Hin. unfold statements in Hin.
    apply filter_In in Hin. destruct Hin as [Hin Hlen].
    apply in_map_iff in Hin. destruct Hin as (seg & <- & Hseg).
    split_and!.
    + intros E. rewrite E in Hlen. discriminate.
    + apply has_char_trim_end, has_char_trim_start.
      eapply split_on_no_sep. exact Hseg.
    + apply trim_idempotent.
    + exists seg. split; [exact Hseg|reflexivity].
  - vm_compute. reflexivity.
  - vm_compute. reflexivity.
  - vm_compute. reflexivity.
  - vm_compute. reflexivity.
Qed.

(* ====================================================================== *)
(** ** The further properties on concrete runs *)
(* ====================================================================== *)

Local Close Scope string_scope.
Local Open Scope Z_scope.

Lemma executeBatch_paced_witness :
  exists (r : completion (gmap string (Z + thrown)))
         (s' : @RateLimiter.state string Z unit),
    executeBatch DEFAULT_CONFIG 3 three_tickers (failing_fetch "Not Found")
      stop_on_error fresh_limiter = Some (r, s') /\
    lastRequestTime fresh_limiter
      + (requestCount s' - requestCount fresh_limiter) * 500
      <= lastRequestTime s'.
Proof.
  assert (exists r s',
    executeBatch DEFAULT_CONFIG 3 three_tickers (failing_fetch "Not Found")
      stop_on_error fresh_limiter = Some (r, s')) as (r & s' & Hrun).
  { eexists. eexists. vm_compute. reflexivity. }
  exists r, s'. split; [exact Hrun|].
  apply (executeBatch_paced DEFAULT_CONFIG (failing_fetch "Not Found")
           3 three_tickers stop_on_error fresh_limiter s' r Hrun).
Defined.

Lemma getStats_successRate_bounds_witness :
  exists (r : completion (gmap string (Z + thrown)))
         (s' : @RateLimiter.state string Z unit) (rate : Q),
    executeBatch DEFAULT_CONFIG 3 three_tickers (failing_fetch "Not Found")
      no_options fresh_limiter = Some (r, s') /\
    getStats s' = (requestCount s', errorCount s', Fin rate) /\
    (0 <= rate <= 1)%Q.
Proof.
  assert (exists r s',
    executeBatch DEFAULT_CONFIG 3 three_tickers (failing_fetch "Not Found")
      no_options fresh_limiter = Some (r, s')) as (r & s' & Hrun).
  { eexists. eexists. vm_compute. reflexivity. }
  destruct (getStats_successRate_bounds DEFAULT_CONFIG
              (failing_fetch "Not Found") 3 three_tickers no_options
              fresh_limiter s' r)
    as (_ & (rate & Hstats & Hrate & _) & _).
  - cbn. lia.
  - exact Hrun.
  - exists r, s', rate. split; [exact Hrun|]. split; assumption.
Defined.


Lemma executeBatchFiltered_spec_witness :
  exists (successes : list (string * Z))
         (s' : @RateLimiter.state string Z unit),
    executeBatchFiltered DEFAULT_CONFIG 3 three_tickers
      (failing_fetch "Not Found") stop_on_error fresh_limiter
      = Some (Return successes, s') /\
    NoDup successes.*1.
Proof.
  destruct (executeBatchFiltered_spec DEFAULT_CONFIG
              (failing_fetch "Not Found") 3 three_tickers stop_on_error
              fresh_limiter)
    as (successes & results & s' & Hrun & _ & _ & Hnd & _).
  - reflexivity.
  - cbn. lia.
  - exists successes, s'. split; assumption.
Defined.

Lemma split_batches_partition_witness :
  exists batches : list (list string),
    split_batches DEFAULT_CONFIG tickers23 23 0 = Some batches /\
    concat batches = tickers23 /\
    Z.of_nat (length batches) = ceil_div 23 10.
Proof.
  destruct (split_batches_partition DEFAULT_CONFIG tickers23 23)
    as (batches & Hsplit & Hconcat & _ & Hlen & _).
  - reflexivity.
  - cbn. lia.
  - exists batches. split; [exact Hsplit|]. split; [exact Hconcat|].
    exact Hlen.
Defined.

Lemma estimateTime_overestimates_witness :
  exists (results : gmap string (Z + thrown))
         (s' : @RateLimiter.state string Z unit),
    executeBatch DEFAULT_CONFIG 23 tickers23 instant_fetch no_options
      fresh_limiter = Some (Return results, s') /\
    clock s' - clock fresh_limiter <= (estimateTime DEFAULT_CONFIG 23).1.1.
Proof.
  destruct (estimateTime_overestimates DEFAULT_CONFIG instant_fetch 23
              tickers23 no_options fresh_limiter)
    as (results & s' & Hrun & _ & _ & Hle).
  - reflexivity.
  - cbn. lia.
  - cbn. lia.
  - intros item w. exists 100, w. reflexivity.
  - discriminate.
  - cbn. lia.
  - exists results, s'. split; [exact Hrun|].
    apply Hle. cbn. lia.
Defined.

Lemma executeBatch_progress_reports_witness :
  exists (results : gmap string (Z + thrown))
         (trace : list (@RateLimiter.event string Z))
         (s' : @RateLimiter.state string Z unit),
    executeBatch DEFAULT_CONFIG 3 three_tickers (failing_fetch "Not Found")
      {| onProgress := true; onError := true; continueOnError := None |}
      fresh_limiter = Some (Return results, s') /\
    progress_reports trace = [(1, 3); (2, 3); (3, 3)].
Proof.
  destruct (executeBatch_progress_reports DEFAULT_CONFIG
              (failing_fetch "Not Found") 3 three_tickers
              {| onProgress := true; onError := true;
                 continueOnError := None |}
              fresh_limiter)
    as (results & trace & s' & Hrun & _ & Hreports).
  - reflexivity.
  - discriminate.
  - cbn. lia.
  - exists results, trace, s'. split; [exact Hrun|]. exact Hreports.
Defined.

Lemma base_scenario_is_headline_witness :
  exists (o : DCFOutputs) (rbear rbase rbull : SensitivityRow),
    calculateDCF scenario_inputs = Return o /\
    sensitivity o = [rbear; rbase; rbull] /\
    s_intrinsicValue rbase = intrinsicValue o.
Proof.
  assert (exists o, calculateDCF scenario_inputs = Return o) as (o & Ho).
  { eexists. vm_compute. reflexivity. }
  destruct (base_scenario_is_headline scenario_inputs o Ho)
    as (rbear & rbase & rbull & Hs & _ & _ & _ & _ & _ & Hv).
  exists o, rbear, rbase, rbull. split; [exact Ho|]. split; assumption.
Defined.

Lemma calculateDCF_output_shape_witness :
  exists o : DCFOutputs,
    calculateDCF absent_fcf_inputs = Return o /\
    map year (projectedCashFlows o) =
      seqZ 1 (a_projectionYears (assumptions o)).
Proof.
  assert (exists o, calculateDCF absent_fcf_inputs = Return o) as (o & Ho).
  { eexists. vm_compute. reflexivity. }
  destruct (calculateDCF_output_shape absent_fcf_inputs o Ho)
    as (_ & _ & _ & Hyears & _).
  exists o. split; assumption.
Defined.

Lemma calculateDCF_valid_inputs_witness :
  exists (o : DCFOutputs) (ev : Q),
    calculateDCF scenario_inputs = Return o /\
    enterpriseValue o = Fin ev /\ (0 < ev)%Q.
Proof.
  destruct (calculateDCF_valid_inputs scenario_inputs
              10000000000 5000000000 20000000000 30000000000 9 3 5)
    as (o & g & ev & tv & Ho & _ & _ & _ & Hev & Hpos & _);
    try reflexivity; try discriminate; try (split; discriminate).
  exists o, ev. split; [exact Ho|]. split; assumption.
Defined.

Lemma assessValuation_monotone_witness :
  (rank (recommendation (assessValuation (int 100) (int 100))) <=
   rank (recommendation (assessValuation (int 140) (int 100))))%nat.
Proof.
  apply (assessValuation_monotone 100 140 100).
  - reflexivity.
  - discriminate.
Defined.

Lemma bull_scenario_finite_witness :
  exists bear base_row bull_row : SensitivityRow,
    calculateSensitivity scenario_inputs (int 9) (dec 65 10) (int 3) 5
      (int (-10000000000)) = [bear; base_row; bull_row] /\
    s_discountRate bull_row = Fin (maxQ (9 - 2) 5).
Proof.
  destruct (bull_scenario_finite scenario_inputs
              10000000000 5000000000 (-10000000000) 9 (65 # 10) 3 5)
    as (bear & base_row & bull_row & Hrows & _ & Hd & _);
    try reflexivity; try (split; discriminate).
  exists bear, base_row, bull_row. split; assumption.
Defined.
